(** * Tally-Counter: the clean-slate inventory store, its reader and its sync engine

    The development follows the repository:

    - [Schema] embeds [docs/supabase-schema.sql]: the three tables with
      their constraints, the [updated_at] trigger, the view
      [inventory_view] and the function [get_latest_sync_timestamp].
    - [Client] embeds the read side, [mobile-app/src/config/supabase.ts],
      [mobile-app/src/hooks/useInventory.ts] and [formatLastSync] of
      [mobile-app/src/components/InventoryList.tsx].
    - [Engine] is the sync engine ([python-sync/tally_sync.py]).  That file is
      not part of the sources at hand; its definitions are modelled from the
      specification and say so.
    - [JS], [Component], [Paginated] and [Virtualized] embed the rest of the
      read side: the list components of
      [mobile-app/src/components/InventoryList.tsx] with their state, and
      [mobile-app/src/hooks/useVirtualizedList.ts].
    - [SampleData] embeds the two [INSERT]s at the end of the schema.
    - [Fetches] is [fetchItems] of the hook once more, [await] by [await],
      for the calls that overlap.

    Conventions.  A SQL table is a list of rows (a bag: nothing in the
    representation prevents duplicates, the constraints do).  A nullable
    column is an [option].  A [DECIMAL(15,3)] is the integer number of
    thousandths.  A timestamp is an integer number of microseconds.  A text
    is a [string] of the bytes of its UTF-8 encoding, in the store as on the
    client. *)

From stdpp Require Import base decidable option list strings gmap sorting pretty.
From Stdlib Require Import ZArith Lia.

(** ** SQL values *)

(** [uuid_generate_v4()] is modelled by a seed kept in the database: the
    generated identifier is one that no row carries yet. *)
Definition uuid := nat.
Definition timestamptz := Z.

(** [DECIMAL(15,3)]: fifteen significant digits, three of them after the
    point.  The value [d] stands for [d / 1000]. *)
Definition decimal := Z.
Definition decimal_fits (d : decimal) : Prop := (Z.abs d < 10 ^ 15)%Z.

(** [INTEGER] is PostgreSQL's 32-bit signed integer. *)
Definition integer_fits (n : Z) : Prop := (- 2 ^ 31 ≤ n < 2 ^ 31)%Z.

(** A byte [10xxxxxx] continues a character of a text; every other byte
    begins one. *)
Definition continuation (b : Ascii.ascii) : bool :=
  match b with
  | Ascii.Ascii _ _ _ _ _ _ false true => true
  | _ => false
  end.

(** [char_length(s)]: the number of characters of a text. *)
Fixpoint char_length (s : string) : nat :=
  match s with
  | EmptyString => 0
  | String b s => (if continuation b then 0 else 1) + char_length s
  end.

(** [rtrim(s)]: the text without the spaces at its end. *)
Fixpoint rtrim (s : string) : string :=
  match s with
  | EmptyString => EmptyString
  | String b s =>
      match rtrim s with
      | EmptyString => if Ascii.eqb b Ascii.Space then EmptyString else String b EmptyString
      | s' => String b s'
      end
  end.

(** [VARCHAR(n)] holds the texts of at most [n] characters. *)
Definition varchar_fits (n : nat) (s : string) : Prop := char_length s ≤ n.

(** A longer text is an error, unless all that exceeds the [n] characters is
    spaces: that text PostgreSQL cuts to [n] characters and stores.  The
    statements below are those whose texts are not cut. *)
Definition varchar_cut (n : nat) (s : string) : Prop :=
  n < char_length s ∧ char_length (rtrim s) ≤ n.

(** A column in the [VALUES] of a statement: left out (so that [INSERT]
    takes the [DEFAULT] and [UPDATE] keeps the old value), or given, where
    [Given None] is an explicit [NULL]. *)
Inductive col (A : Type) : Type :=
  | Omitted
  | Given (v : option A).
Arguments Omitted {A}.
Arguments Given {A} v.

(** A text given for a [VARCHAR(n)] column that PostgreSQL would cut. *)
Definition col_cut (n : nat) (c : col string) : Prop :=
  match c with
  | Given (Some s) => varchar_cut n s
  | _ => False
  end.

(** The value [INSERT] stores. *)
Definition inserted {A} (dflt : option A) (c : col A) : option A :=
  match c with Omitted => dflt | Given v => v end.

(** The value [UPDATE ... SET] stores. *)
Definition updated {A} (old : option A) (c : col A) : option A :=
  match c with Omitted => old | Given v => v end.

(** A constraint on a nullable column holds at [NULL]. *)
Definition null_or {A} (P : A → Prop) (v : option A) : Prop :=
  match v with None => True | Some a => P a end.

Global Instance null_or_dec {A} (P : A → Prop) `{∀ a, Decision (P a)} v :
  Decision (null_or P v).
Proof. destruct v; simpl; apply _. Defined.

Global Instance decimal_fits_dec d : Decision (decimal_fits d).
Proof. unfold decimal_fits. apply _. Defined.
Global Instance integer_fits_dec n : Decision (integer_fits n).
Proof. unfold integer_fits. apply _. Defined.
Global Instance varchar_fits_dec n s : Decision (varchar_fits n s).
Proof. unfold varchar_fits. apply _. Defined.
Global Instance varchar_cut_dec n s : Decision (varchar_cut n s).
Proof. unfold varchar_cut. apply _. Defined.
Global Instance col_cut_dec n c : Decision (col_cut n c).
Proof. destruct c as [|[s|]]; simpl; apply _. Defined.

(** ** The durable store: [docs/supabase-schema.sql] *)

Module Schema.

(** [CREATE TABLE items] *)
Record items_row := {
  i_id : uuid;                          (* UUID PRIMARY KEY DEFAULT uuid_generate_v4() *)
  i_item_code : string;                 (* VARCHAR(100) UNIQUE NOT NULL *)
  i_item_name : string;                 (* VARCHAR(255) NOT NULL *)
  i_category : option string;           (* VARCHAR(100) DEFAULT 'General' *)
  i_unit : option string;               (* VARCHAR(50) DEFAULT 'Nos' *)
  i_created_at : option timestamptz;    (* DEFAULT NOW() *)
  i_updated_at : option timestamptz     (* DEFAULT NOW() *)
}.

(** [CREATE TABLE stock_levels] *)
Record stock_levels_row := {
  sl_id : uuid;                         (* UUID PRIMARY KEY DEFAULT uuid_generate_v4() *)
  sl_item_id : option uuid;             (* UUID REFERENCES items(id) ON DELETE CASCADE *)
  sl_current_stock : option decimal;    (* DECIMAL(15,3) DEFAULT 0 *)
  sl_physical_baseline : option decimal;(* DECIMAL(15,3) DEFAULT 0 *)
  sl_tally_delta : option decimal;      (* DECIMAL(15,3) DEFAULT 0 *)
  sl_last_sync : option timestamptz;    (* DEFAULT NOW() *)
  sl_sync_source : option string        (* VARCHAR(50) DEFAULT 'manual' *)
}.

(** [CREATE TABLE sync_logs] *)
Record sync_logs_row := {
  lg_id : uuid;                         (* UUID PRIMARY KEY DEFAULT uuid_generate_v4() *)
  lg_sync_timestamp : option timestamptz; (* DEFAULT NOW() *)
  lg_items_processed : option Z;        (* INTEGER DEFAULT 0 *)
  lg_status : string;                   (* VARCHAR(20) NOT NULL CHECK (status IN (...)) *)
  lg_error_message : option string;     (* TEXT *)
  lg_duration_seconds : option Z        (* INTEGER *)
}.

Global Instance items_row_eq_dec : EqDecision items_row.
Proof. solve_decision. Defined.
Global Instance stock_levels_row_eq_dec : EqDecision stock_levels_row.
Proof. solve_decision. Defined.
Global Instance sync_logs_row_eq_dec : EqDecision sync_logs_row.
Proof. solve_decision. Defined.

Record database := {
  items : list items_row;
  stock_levels : list stock_levels_row;
  sync_logs : list sync_logs_row;
  uuid_seed : uuid
}.

Definition empty_database : database :=
  {| items := []; stock_levels := []; sync_logs := []; uuid_seed := 0 |}.

(** The columns a statement may write; the primary keys are always
    generated. *)
Record items_values := {
  iv_item_code : col string;
  iv_item_name : col string;
  iv_category : col string;
  iv_unit : col string;
  iv_created_at : col timestamptz;
  iv_updated_at : col timestamptz
}.

Record stock_levels_values := {
  slv_item_id : col uuid;
  slv_current_stock : col decimal;
  slv_physical_baseline : col decimal;
  slv_tally_delta : col decimal;
  slv_last_sync : col timestamptz;
  slv_sync_source : col string
}.

Record sync_logs_values := {
  lgv_sync_timestamp : col timestamptz;
  lgv_items_processed : col Z;
  lgv_status : col string;
  lgv_error_message : col string;
  lgv_duration_seconds : col Z
}.

(** A text of the values is one PostgreSQL would cut to its column. *)
Definition items_values_cut (v : items_values) : Prop :=
  col_cut 100 (iv_item_code v) ∨ col_cut 255 (iv_item_name v)
  ∨ col_cut 100 (iv_category v) ∨ col_cut 50 (iv_unit v).

Global Instance items_values_cut_dec v : Decision (items_values_cut v).
Proof. unfold items_values_cut. apply _. Defined.

(** [CHECK (status IN ('SUCCESS', 'FAILED', 'ERROR'))] *)
Definition status_check (s : string) : Prop :=
  s ∈ ["SUCCESS"; "FAILED"; "ERROR"].

Global Instance status_check_dec s : Decision (status_check s).
Proof. unfold status_check. apply _. Defined.

(** *** Rows proposed for insertion *)

(** The tuple [INSERT INTO items] proposes at time [now]: defaults filled
    in, [NOT NULL] and the column types checked. *)
Definition items_proposed (now : timestamptz) (id : uuid) (v : items_values)
  : option items_row :=
  code ← inserted None (iv_item_code v);
  name ← inserted None (iv_item_name v);
  let category := inserted (Some "General") (iv_category v) in
  let unit := inserted (Some "Nos") (iv_unit v) in
  guard (varchar_fits 100 code);;
  guard (varchar_fits 255 name);;
  guard (null_or (varchar_fits 100) category);;
  guard (null_or (varchar_fits 50) unit);;
  Some {| i_id := id; i_item_code := code; i_item_name := name;
          i_category := category; i_unit := unit;
          i_created_at := inserted (Some now) (iv_created_at v);
          i_updated_at := inserted (Some now) (iv_updated_at v) |}.

Definition stock_levels_proposed (now : timestamptz) (id : uuid)
    (v : stock_levels_values) : option stock_levels_row :=
  let current := inserted (Some 0%Z) (slv_current_stock v) in
  let baseline := inserted (Some 0%Z) (slv_physical_baseline v) in
  let delta := inserted (Some 0%Z) (slv_tally_delta v) in
  let source := inserted (Some "manual") (slv_sync_source v) in
  guard (null_or decimal_fits current);;
  guard (null_or decimal_fits baseline);;
  guard (null_or decimal_fits delta);;
  guard (null_or (varchar_fits 50) source);;
  Some {| sl_id := id; sl_item_id := inserted None (slv_item_id v);
          sl_current_stock := current; sl_physical_baseline := baseline;
          sl_tally_delta := delta;
          sl_last_sync := inserted (Some now) (slv_last_sync v);
          sl_sync_source := source |}.

Definition sync_logs_proposed (now : timestamptz) (id : uuid)
    (v : sync_logs_values) : option sync_logs_row :=
  status ← inserted None (lgv_status v);
  let processed := inserted (Some 0%Z) (lgv_items_processed v) in
  let duration := inserted None (lgv_duration_seconds v) in
  guard (varchar_fits 20 status);;
  guard (status_check status);;
  guard (null_or integer_fits processed);;
  guard (null_or integer_fits duration);;
  Some {| lg_id := id;
          lg_sync_timestamp := inserted (Some now) (lgv_sync_timestamp v);
          lg_items_processed := processed; lg_status := status;
          lg_error_message := inserted None (lgv_error_message v);
          lg_duration_seconds := duration |}.

(** *** Statements on [items] *)

(** [INSERT INTO items (...) VALUES (...)]: the primary key is fresh, the
    item code must not be taken. *)
Definition insert_items (now : timestamptz) (v : items_values) (db : database)
  : option database :=
  row ← items_proposed now (uuid_seed db) v;
  guard (i_item_code row ∉ i_item_code <$> items db);;
  Some {| items := items db ++ [row]; stock_levels := stock_levels db;
          sync_logs := sync_logs db; uuid_seed := S (uuid_seed db) |}.

(** [update_updated_at_column()], the [BEFORE UPDATE] trigger on [items]:
    [NEW.updated_at = NOW()]. *)
Definition update_updated_at_column (now : timestamptz) (new : items_row)
  : items_row :=
  {| i_id := i_id new; i_item_code := i_item_code new;
     i_item_name := i_item_name new; i_category := i_category new;
     i_unit := i_unit new; i_created_at := i_created_at new;
     i_updated_at := Some now |}.

(** [DO UPDATE SET c = EXCLUDED.c] for the columns of the statement, on the
    row [old] in conflict; [excluded] is the proposed row. *)
Definition items_set (v : items_values) (excluded old : items_row) : items_row :=
  {| i_id := i_id old;
     i_item_code := i_item_code old;
     i_item_name :=
       match iv_item_name v with Omitted => i_item_name old | Given _ => i_item_name excluded end;
     i_category := updated (i_category old) (iv_category v);
     i_unit := updated (i_unit old) (iv_unit v);
     i_created_at := updated (i_created_at old) (iv_created_at v);
     i_updated_at := updated (i_updated_at old) (iv_updated_at v) |}.

(** [INSERT INTO items ... ON CONFLICT (item_code) DO UPDATE SET ...]: the
    proposed row is checked first; a row with the same code is updated in
    place (and the trigger fires), otherwise the row is inserted. *)
Definition upsert_items (now : timestamptz) (v : items_values) (db : database)
  : option database :=
  row ← items_proposed now (uuid_seed db) v;
  if decide (i_item_code row ∈ i_item_code <$> items db) then
    Some {| items :=
              (λ old, if decide (i_item_code old = i_item_code row)
                      then update_updated_at_column now (items_set v row old)
                      else old) <$> items db;
            stock_levels := stock_levels db;
            sync_logs := sync_logs db; uuid_seed := uuid_seed db |}
  else insert_items now v db.

(** [DELETE FROM items WHERE id = ...], with [ON DELETE CASCADE] on
    [stock_levels.item_id]. *)
Definition delete_items (id : uuid) (db : database) : database :=
  {| items := filter (λ i, i_id i ≠ id) (items db);
     stock_levels := filter (λ sl, sl_item_id sl ≠ Some id) (stock_levels db);
     sync_logs := sync_logs db; uuid_seed := uuid_seed db |}.

(** *** Statements on [stock_levels] *)

(** [REFERENCES items(id)]: a non-null [item_id] names an item. *)
Definition references_items (db : database) (item_id : option uuid) : Prop :=
  null_or (λ id, id ∈ i_id <$> items db) item_id.

(** [UNIQUE(item_id)]: no other row carries the same non-null [item_id]. *)
Definition item_id_free (db : database) (item_id : option uuid) : Prop :=
  null_or (λ id, Some id ∉ sl_item_id <$> stock_levels db) item_id.

Global Instance references_items_dec db o : Decision (references_items db o).
Proof. unfold references_items. apply _. Defined.
Global Instance item_id_free_dec db o : Decision (item_id_free db o).
Proof. unfold item_id_free. apply _. Defined.

Definition insert_stock_levels (now : timestamptz) (v : stock_levels_values)
    (db : database) : option database :=
  row ← stock_levels_proposed now (uuid_seed db) v;
  guard (references_items db (sl_item_id row));;
  guard (item_id_free db (sl_item_id row));;
  Some {| items := items db; stock_levels := stock_levels db ++ [row];
          sync_logs := sync_logs db; uuid_seed := S (uuid_seed db) |}.

Definition stock_levels_set (v : stock_levels_values) (old : stock_levels_row)
  : stock_levels_row :=
  {| sl_id := sl_id old;
     sl_item_id := sl_item_id old;
     sl_current_stock := updated (sl_current_stock old) (slv_current_stock v);
     sl_physical_baseline := updated (sl_physical_baseline old) (slv_physical_baseline v);
     sl_tally_delta := updated (sl_tally_delta old) (slv_tally_delta v);
     sl_last_sync := updated (sl_last_sync old) (slv_last_sync v);
     sl_sync_source := updated (sl_sync_source old) (slv_sync_source v) |}.

(** [INSERT INTO stock_levels ... ON CONFLICT (item_id) DO UPDATE SET ...].
    Two [NULL]s never conflict. *)
Definition upsert_stock_levels (now : timestamptz) (v : stock_levels_values)
    (db : database) : option database :=
  row ← stock_levels_proposed now (uuid_seed db) v;
  match sl_item_id row with
  | Some id =>
      if decide (Some id ∈ sl_item_id <$> stock_levels db) then
        Some {| items := items db;
                stock_levels :=
                  (λ old, if decide (sl_item_id old = Some id)
                          then stock_levels_set v old else old)
                    <$> stock_levels db;
                sync_logs := sync_logs db; uuid_seed := uuid_seed db |}
      else insert_stock_levels now v db
  | None => insert_stock_levels now v db
  end.

(** *** Statements on [sync_logs] *)

Definition insert_sync_logs (now : timestamptz) (v : sync_logs_values)
    (db : database) : option database :=
  row ← sync_logs_proposed now (uuid_seed db) v;
  Some {| items := items db; stock_levels := stock_levels db;
          sync_logs := sync_logs db ++ [row]; uuid_seed := S (uuid_seed db) |}.

(** *** [CREATE VIEW inventory_view] *)

Record inventory_view_row := {
  v_id : uuid;                          (* i.id *)
  v_item_code : string;                 (* i.item_code *)
  v_item_name : string;                 (* i.item_name *)
  v_category : option string;           (* i.category *)
  v_unit : option string;               (* i.unit *)
  v_current_stock : decimal;            (* COALESCE(sl.current_stock, 0) *)
  v_physical_baseline : decimal;        (* COALESCE(sl.physical_baseline, 0) *)
  v_tally_delta : decimal;              (* COALESCE(sl.tally_delta, 0) *)
  v_last_sync : option timestamptz;     (* COALESCE(sl.last_sync, i.created_at) *)
  v_sync_source : string                (* COALESCE(sl.sync_source, 'manual') *)
}.

Global Instance inventory_view_row_eq_dec : EqDecision inventory_view_row.
Proof. solve_decision. Defined.

(** [COALESCE(a, b)] *)
Definition COALESCE {A} (a b : option A) : option A :=
  match a with Some _ => a | None => b end.

(** [items i LEFT JOIN stock_levels sl ON i.id = sl.item_id], for one item:
    one joined row per matching stock level, and one row with an all-[NULL]
    right side when there is none. *)
Definition left_join_stock_levels (sls : list stock_levels_row) (i : items_row)
  : list (items_row * option stock_levels_row) :=
  match filter (λ sl, sl_item_id sl = Some (i_id i)) sls with
  | [] => [(i, None)]
  | matching => (λ sl, (i, Some sl)) <$> matching
  end.

(** The [SELECT] list of the view. *)
Definition inventory_view_select (j : items_row * option stock_levels_row)
  : inventory_view_row :=
  let '(i, sl) := j in
  {| v_id := i_id i;
     v_item_code := i_item_code i;
     v_item_name := i_item_name i;
     v_category := i_category i;
     v_unit := i_unit i;
     v_current_stock := default 0%Z (COALESCE (sl ≫= sl_current_stock) (Some 0%Z));
     v_physical_baseline := default 0%Z (COALESCE (sl ≫= sl_physical_baseline) (Some 0%Z));
     v_tally_delta := default 0%Z (COALESCE (sl ≫= sl_tally_delta) (Some 0%Z));
     v_last_sync := COALESCE (sl ≫= sl_last_sync) (i_created_at i);
     v_sync_source := default "manual" (COALESCE (sl ≫= sl_sync_source) (Some "manual")) |}.

(** [ORDER BY key]: the order of [VARCHAR] values is the collation of the
    database, a parameter here; rows with equal keys come in the order the
    sort leaves them in, which SQL does not fix. *)
Definition ORDER_BY {A} (collate_le : string → string → bool) (key : A → string)
  : list A → list A :=
  merge_sort (λ a b, collate_le (key a) (key b)).

Definition inventory_view (collate_le : string → string → bool) (db : database)
  : list inventory_view_row :=
  ORDER_BY collate_le v_item_name
    (inventory_view_select <$> (items db ≫= left_join_stock_levels (stock_levels db))).

(** *** Row level security *)

(** The role of a request, [auth.role()]: [anon] with the anon key,
    [authenticated] once a user has signed in, [service_role] with the
    service role key. *)
Inductive role := anon | authenticated | service_role.

Global Instance role_eq_dec : EqDecision role.
Proof. solve_decision. Defined.

(** [CREATE POLICY "Allow read access for authenticated users" ON ...
    FOR SELECT USING (auth.role() = 'authenticated')] *)
Definition allow_read_access_for_authenticated_users (r : role) : Prop :=
  r = authenticated.

(** [CREATE POLICY "Allow full access for service role" ON ...
    FOR ALL USING (auth.role() = 'service_role')] *)
Definition allow_full_access_for_service_role (r : role) : Prop :=
  r = service_role.

(** [ALTER TABLE ... ENABLE ROW LEVEL SECURITY]: a [SELECT] of a role sees
    the rows that one of the policies of the table admits.  The three tables
    have the same two policies. *)
Definition selectable {A} (r : role) (rows : list A) : list A :=
  filter (λ _, allow_read_access_for_authenticated_users r
               ∨ allow_full_access_for_service_role r) rows.

(** The tables as the statements of a role read them.  [inventory_view] is
    not read this way: a view reads its tables with the rights of its owner,
    and [GRANT SELECT ON inventory_view] opens it to [authenticated] and
    [anon]. *)
Definition row_level_security (r : role) (db : database) : database :=
  {| items := selectable r (items db);
     stock_levels := selectable r (stock_levels db);
     sync_logs := selectable r (sync_logs db);
     uuid_seed := uuid_seed db |}.

(** *** [CREATE FUNCTION get_latest_sync_timestamp()] *)

(** [MAX] skips [NULL]s and is [NULL] over no value. *)
Definition MAX (l : list (option timestamptz)) : option timestamptz :=
  foldr (λ x acc,
           match x, acc with
           | Some a, Some b => Some (Z.max a b)
           | Some a, None => Some a
           | None, _ => acc
           end) None l.

Definition get_latest_sync_timestamp (db : database) : option timestamptz :=
  MAX (sl_last_sync <$>
         filter (λ sl, sl_sync_source sl = Some "tally_sync") (stock_levels db)).

(** The function is not declared [SECURITY DEFINER]: its [SELECT] runs with
    the rights of the role that calls it, on the rows that role sees. *)
Definition get_latest_sync_timestamp_as (r : role) (db : database)
  : option timestamptz :=
  get_latest_sync_timestamp (row_level_security r db).

(** *** The statements as a transition system *)

Inductive statement :=
  | INSERT_items (v : items_values)
  | UPSERT_items (v : items_values)
  | DELETE_items (id : uuid)
  | INSERT_stock_levels (v : stock_levels_values)
  | UPSERT_stock_levels (v : stock_levels_values)
  | INSERT_sync_logs (v : sync_logs_values).

(** A rejected statement leaves the database as it was. *)
Definition execute (now : timestamptz) (s : statement) (db : database) : option database :=
  match s with
  | INSERT_items v => insert_items now v db
  | UPSERT_items v => upsert_items now v db
  | DELETE_items id => Some (delete_items id db)
  | INSERT_stock_levels v => insert_stock_levels now v db
  | UPSERT_stock_levels v => upsert_stock_levels now v db
  | INSERT_sync_logs v => insert_sync_logs now v db
  end.

(** The databases the statements can build from the empty one. *)
Inductive reachable : database → Prop :=
  | reachable_empty : reachable empty_database
  | reachable_execute now s db db' :
      reachable db → execute now s db = Some db' → reachable db'.

(** What the constraints of the schema say about a database. *)
Record constraints (db : database) : Prop := {
  items_pkey : NoDup (i_id <$> items db);
  items_item_code_key : NoDup (i_item_code <$> items db);
  stock_levels_pkey : NoDup (sl_id <$> stock_levels db);
  stock_levels_item_id_key :
    NoDup (omap sl_item_id (stock_levels db));
  stock_levels_item_id_fkey :
    Forall (λ sl, references_items db (sl_item_id sl)) (stock_levels db);
  sync_logs_status_check :
    Forall (λ lg, status_check (lg_status lg)) (sync_logs db);
  stock_levels_decimal :
    Forall (λ sl, null_or decimal_fits (sl_current_stock sl)
                  ∧ null_or decimal_fits (sl_physical_baseline sl)
                  ∧ null_or decimal_fits (sl_tally_delta sl)) (stock_levels db);
  uuid_seed_fresh :
    Forall (λ i, i_id i < uuid_seed db) (items db)
    ∧ Forall (λ sl, sl_id sl < uuid_seed db) (stock_levels db)
    ∧ Forall (λ lg, lg_id lg < uuid_seed db) (sync_logs db)
}.

End Schema.

(** ** The read side: [mobile-app/src] *)

Module Client.

(** *** JavaScript values *)

(** A [number] is an IEEE 754 binary64 value; the finite ones are
    [mantissa * 2 ^ exponent]. *)
Record number := { mantissa : Z; exponent : Z }.


(** [n / d] rounded to the nearest integer, ties to even ([0 < d]). *)
Definition round_half_even (n d : Z) : Z :=
  let q := (n `div` d)%Z in
  let r := (n `mod` d)%Z in
  if (2 * r <? d)%Z then q
  else if (d <? 2 * r)%Z then (q + 1)%Z
  else if Z.even q then q else (q + 1)%Z.

(** The store's JSON carries a [DECIMAL(15,3)] as a decimal numeral, and
    the client reads a numeral as the nearest [number], ties to even.  For
    the magnitudes of the column the result is a normal number with a
    negative exponent. *)
Definition number_of_decimal (d : decimal) : number :=
  if (d =? 0)%Z then {| mantissa := 0; exponent := 0 |}
  else
    let a := Z.abs d in
    let k := (Z.log2 a - 62)%Z in
    let e := if (a * 2 ^ (- k) <? 1000 * 2 ^ 53)%Z then k else (k + 1)%Z in
    let m := round_half_even (a * 2 ^ (- e)) 1000 in
    if (m =? 2 ^ 53)%Z
    then {| mantissa := Z.sgn d * 2 ^ 52; exponent := e + 1 |}
    else {| mantissa := Z.sgn d * m; exponent := e |}.







(** [Date]: milliseconds since the epoch.  A [timestamptz] has microseconds;
    [new Date(text)] keeps the milliseconds. *)
Definition Date := Z.
Definition new_Date (t : timestamptz) : Date := (t `div` 1000)%Z.

(** *** [config/supabase.ts] *)

(** [export type InventoryItem].  The fields the type declares [string] hold
    [null] where the view's column is [NULL]. *)
Record InventoryItem := {
  id : uuid;
  item_code : string;
  item_name : string;
  category : option string;
  unit : option string;
  current_stock : number;
  physical_baseline : number;
  tally_delta : number;
  last_sync : option timestamptz;
  sync_source : string
}.

(** A row of [inventory_view] as the client receives it. *)
Definition InventoryItem_of_row (r : Schema.inventory_view_row) : InventoryItem :=
  {| id := Schema.v_id r;
     item_code := Schema.v_item_code r;
     item_name := Schema.v_item_name r;
     category := Schema.v_category r;
     unit := Schema.v_unit r;
     current_stock := number_of_decimal (Schema.v_current_stock r);
     physical_baseline := number_of_decimal (Schema.v_physical_baseline r);
     tally_delta := number_of_decimal (Schema.v_tally_delta r);
     last_sync := Schema.v_last_sync r;
     sync_source := Schema.v_sync_source r |}.

(** *** The store as the client sees it *)

(** The [error] of a response. *)
Record PostgrestError := { instanceof_Error : bool; message : string }.

(** [{ data, error }] *)
Record response (A : Type) := { data : option A; error : option PostgrestError }.
Arguments data {A} _.
Arguments error {A} _.

(** The store at the time of a fetch: its rows, its collation, whether
    the two calls of the hook fail, and the role it gives the key of the
    client.  [createClient(supabaseUrl, supabaseAnonKey)] passes the anon
    key, and nothing in the app signs a user in: its requests have the role
    [anon]. *)
Record backend := {
  database : Schema.database;
  collate_le : string → string → bool;
  select_failure : option PostgrestError;
  rpc_failure : option PostgrestError;
  auth_role : Schema.role
}.

(** The requests the hook sends, with the literals of the source. *)
Inductive request :=
  | from_select_order (relation columns column : string)
      (* supabase.from(relation).select(columns).order(column) *)
  | rpc (fn : string)
      (* supabase.rpc(fn) *)
  | channel_on_postgres_changes (event schema table : string).
      (* supabase.channel(...).on('postgres_changes', { event, schema, table }, ...) *)

(** [supabase.from('inventory_view').select('*').order('item_name')] *)
Definition from_inventory_view_select_order_item_name (be : backend)
  : response (list InventoryItem) :=
  match select_failure be with
  | Some e => {| data := None; error := Some e |}
  | None =>
      {| data :=
           Some (InventoryItem_of_row <$>
                   Schema.ORDER_BY (collate_le be) Schema.v_item_name
                     (Schema.inventory_view (collate_le be) (database be)));
         error := None |}
  end.

(** [supabase.rpc('get_latest_sync_timestamp')], called with the role of
    the client; a SQL [NULL] is [null]. *)
Definition rpc_get_latest_sync_timestamp (be : backend) : response timestamptz :=
  match rpc_failure be with
  | Some e => {| data := None; error := Some e |}
  | None =>
      {| data := Schema.get_latest_sync_timestamp_as (auth_role be) (database be);
         error := None |}
  end.

(** *** [hooks/useInventory.ts] *)

(** The four [useState] cells. *)
Record useInventory := {
  items : list InventoryItem;
  loading : bool;
  error_ : option string;
  lastSync : option Date
}.

(** The initial values of the cells. *)
Definition useInventory_initial : useInventory :=
  {| items := []; loading := true; error_ := None; lastSync := None |}.

(** [fetchItems]: the cells when the call has settled, and the requests it
    sent (which ones, not when), for a call during which no other call runs.
    [Fetches] below has the calls that overlap. *)
Definition fetchItems (be : backend) (st : useInventory)
  : useInventory * list request :=
  (* setLoading(true); setError(null) *)
  let view := from_inventory_view_select_order_item_name be in
  match error view with
  | Some fetchError =>
      (* throw fetchError; catch: setError(...); finally: setLoading(false) *)
      ({| items := items st; loading := false;
          error_ := Some (if instanceof_Error fetchError then message fetchError
                          else "Failed to fetch inventory");
          lastSync := lastSync st |},
       [from_select_order "inventory_view" "*" "item_name"])
  | None =>
      (* setItems(data || []) *)
      let sync := rpc_get_latest_sync_timestamp be in
      ({| items := default [] (data view); loading := false; error_ := None;
          (* if (!syncError && syncData) setLastSync(new Date(syncData)) *)
          lastSync :=
            match error sync, data sync with
            | None, Some syncData => Some (new_Date syncData)
            | _, _ => lastSync st
            end |},
       [from_select_order "inventory_view" "*" "item_name";
        rpc "get_latest_sync_timestamp"])
  end.

(** [useEffect(..., [])]: the first fetch and the subscription to the
    changes of [stock_levels], whose callback fetches again. *)
Definition useEffect (be : backend) : useInventory * list request :=
  let '(st, sent) := fetchItems be useInventory_initial in
  (st, sent ++ [channel_on_postgres_changes "*" "public" "stock_levels"]).

(** The hook after mounting on [be] and then fetching again (on
    [refreshItems] or on a change notification) once for each of [bes], each
    call made when the one before has settled. *)
Definition session (be : backend) (bes : list backend) : useInventory * list request :=
  foldl (λ acc be', let '(st, sent) := fetchItems be' acc.1 in (st, acc.2 ++ sent))
        (useEffect be) bes.

(** *** [formatLastSync] of [components/InventoryList.tsx] *)

Definition formatLastSync (now : Date) (date : option Date) : string :=
  match date with
  | None => "Never"
  | Some date =>
      let diffMs := (now - date)%Z in
      let diffMins := (diffMs `div` 60000)%Z in
      let diffHours := (diffMins `div` 60)%Z in
      let diffDays := (diffHours `div` 24)%Z in
      if (diffMins <? 1)%Z then "Just now"
      else if (diffMins <? 60)%Z then pretty diffMins +:+ "m ago"
      else if (diffHours <? 24)%Z then pretty diffHours +:+ "h ago"
      else pretty diffDays +:+ "d ago"
  end.

End Client.

(** ** The sync engine *)

Module Engine.
Import Schema.

(** *** Source Connector *)

(** Modelled from the spec: the rows of [fetchStockItems()] (§4.1); the
    connector of [python-sync/tally_sync.py] is missing. *)
Record stock_item := {
  si_item_code : string;
  si_item_name : string;
  si_category : string;
  si_unit : string;
  si_closing_balance : decimal
}.

(** Modelled from the spec: the rows of [fetchMovements(since)] (§4.1),
    "pre-aggregated per item by the connector or left row-level for the
    caller to fold"; the connector of [tally_sync.py] is missing. *)
Record movement := {
  mv_item_code : string;
  mv_quantity_delta : decimal
}.

(** Modelled from the spec: what one connector answers in a run (§4.1), a
    [ConnectionError] or the rows of its two queries; the connector of
    [tally_sync.py] is missing. *)
Inductive fetched :=
  | ConnectionError (company error : string)
  | Fetched (company : string) (stock_items : list stock_item)
            (movements : list movement).

(** *** Multi-Source Aggregator *)

(** Modelled from the spec: the item attributes of §3, with the defaults
    "General" and "Nos"; the engine's item type is missing. *)
Record item_attrs := {
  ia_item_name : string;
  ia_category : string;
  ia_unit : string
}.

(** Modelled from the spec: the result of [aggregate] (§4.2); the
    aggregator of [tally_sync.py] is missing. *)
Record aggregation := {
  agg_items : gmap string item_attrs;
  agg_deltas : gmap string decimal;
  agg_failures : list (string * string)
}.

Definition aggregation_empty : aggregation :=
  {| agg_items := ∅; agg_deltas := ∅; agg_failures := [] |}.

(** An item absent from the mapping has delta zero. *)
Definition delta_of (deltas : gmap string decimal) (code : string) : decimal :=
  default 0%Z (deltas !! code).

(** Modelled from the spec: one stock item of a source (§4.2): its
    attributes replace what an earlier source said, "last-writer-wins in
    connector iteration order"; the item is known from now on, so it has a
    delta, zero until a movement says otherwise (§4.3 gives every item
    known from the source side a row). *)
Definition add_stock_item (acc : gmap string item_attrs * gmap string decimal)
    (si : stock_item) : gmap string item_attrs * gmap string decimal :=
  (<[si_item_code si :=
       {| ia_item_name := si_item_name si; ia_category := si_category si;
          ia_unit := si_unit si |}]> acc.1,
   <[si_item_code si := delta_of acc.2 (si_item_code si)]> acc.2).

(** Modelled from the spec: one movement row (§4.2), "deltas are summed per
    item_code". *)
Definition add_movement (deltas : gmap string decimal) (mv : movement)
  : gmap string decimal :=
  <[mv_item_code mv := (delta_of deltas (mv_item_code mv) + mv_quantity_delta mv)%Z]> deltas.

(** Modelled from the spec: one connector merged into the aggregation
    (§4.2): a failure is recorded and the others go on. *)
Definition aggregate_connector (acc : aggregation) (f : fetched) : aggregation :=
  match f with
  | ConnectionError company error =>
      {| agg_items := agg_items acc; agg_deltas := agg_deltas acc;
         agg_failures := agg_failures acc ++ [(company, error)] |}
  | Fetched _ stock_items movements =>
      let '(its, ds) := foldl add_stock_item (agg_items acc, agg_deltas acc) stock_items in
      {| agg_items := its; agg_deltas := foldl add_movement ds movements;
         agg_failures := agg_failures acc |}
  end.

Definition succeeded (f : fetched) : bool :=
  match f with ConnectionError _ _ => false | Fetched _ _ _ => true end.

(** Modelled from the spec: [aggregate] (§4.2): "if all connectors fail,
    the aggregator itself fails with AggregationError"; [None] is that
    error. *)
Definition aggregate (fs : list fetched) : option aggregation :=
  if existsb succeeded fs then Some (foldl aggregate_connector aggregation_empty fs)
  else None.

(** *** Clean-Slate Calculator *)

(** Modelled from the spec: a Baseline Entry (§3, §6); the reader of the
    baseline file of [tally_sync.py] is missing. *)
Record baseline_entry := {
  bl_item_name : string;
  bl_physical_count : decimal;
  bl_baseline_date : timestamptz;
  bl_notes : string
}.

(** Modelled from the spec: a computed stock level (§4.3). *)
Record stock_level := {
  current_stock : decimal;
  physical_baseline : decimal;
  tally_delta : decimal
}.

(** Modelled from the spec: the rule of §4.3 for one item,
    [current_stock = physical_baseline + tally_delta], the baseline 0 for
    an item without a baseline entry and the delta 0 for an item without
    movement. *)
Definition clean_slate (b : option baseline_entry) (d : option decimal)
  : option stock_level :=
  match b, d with
  | None, None => None
  | _, _ =>
      let pb := default 0%Z (bl_physical_count <$> b) in
      let td := default 0%Z d in
      Some {| current_stock := (pb + td)%Z; physical_baseline := pb; tally_delta := td |}
  end.

(** Modelled from the spec: [compute] (§4.3); the calculator of
    [tally_sync.py] is missing. *)
Definition compute (baseline : gmap string baseline_entry)
    (deltas : gmap string decimal) : gmap string stock_level :=
  merge clean_slate baseline deltas.

(** *** Publisher *)

(** Modelled from the spec: [runMeta] (§4.4) and the fields of a
    SyncOperation (§3) that come from the run. *)
Record run_meta := {
  run_timestamp : timestamptz;
  duration_seconds : Z
}.

(** Modelled from the spec: the Item upsert "keyed by item_code" (§4.4). *)
Definition item_values (code : string) (a : item_attrs) : items_values :=
  {| iv_item_code := Given (Some code);
     iv_item_name := Given (Some (ia_item_name a));
     iv_category := Given (Some (ia_category a));
     iv_unit := Given (Some (ia_unit a));
     iv_created_at := Omitted;
     iv_updated_at := Omitted |}.

(** Modelled from the spec: the StockLevel upsert "by item_id" (§4.4); the
    Publisher "is the sole writer of StockLevel.last_sync and sync_source".
    The tag is the one [get_latest_sync_timestamp] selects. *)
Definition stock_level_values (meta : run_meta) (item_id : uuid) (l : stock_level)
  : stock_levels_values :=
  {| slv_item_id := Given (Some item_id);
     slv_current_stock := Given (Some (current_stock l));
     slv_physical_baseline := Given (Some (physical_baseline l));
     slv_tally_delta := Given (Some (tally_delta l));
     slv_last_sync := Given (Some (run_timestamp meta));
     slv_sync_source := Given (Some "tally_sync") |}.

(** The storage id of the item with a code. *)
Definition item_id_of (db : database) (code : string) : option uuid :=
  i_id <$> head (filter (λ i, i_item_code i = code) (items db)).

(** Modelled from the spec: one item published (§4.4), "atomic per item":
    the item, then its stock level under the item's storage id, or nothing
    at all.  [clock] is the store's [NOW()]. *)
Definition publish_item (clock : timestamptz) (meta : run_meta) (code : string)
    (a : item_attrs) (l : stock_level) (db : database) : option database :=
  db' ← upsert_items clock (item_values code a) db;
  item_id ← item_id_of db' code;
  upsert_stock_levels clock (stock_level_values meta item_id l) db'.

(** Modelled from the spec: the result of [publish] (§4.4),
    [{itemsProcessed}] or a [PublishError], with the store as it is left. *)
Record published := {
  pub_database : database;
  itemsProcessed : nat;
  PublishError : bool
}.

(** Modelled from the spec: the items one after the other (§4.4, §7): the
    first rejected write ends the publication, "no partial credit beyond
    already-committed items", and [itemsProcessed] is "the count actually
    committed". *)
Fixpoint publish_entries (clock : timestamptz) (meta : run_meta)
    (entries : list (string * (item_attrs * stock_level)))
    (db : database) (committed : nat) : published :=
  match entries with
  | [] => {| pub_database := db; itemsProcessed := committed; PublishError := false |}
  | (code, (a, l)) :: entries =>
      match publish_item clock meta code a l db with
      | Some db' => publish_entries clock meta entries db' (S committed)
      | None => {| pub_database := db; itemsProcessed := committed; PublishError := true |}
      end
  end.

(** Modelled from the spec: [publish(items, stockLevels, runMeta)] (§4.4);
    the publisher of [tally_sync.py] is missing.  A stock level is published
    together with its item (§3: it is "never created without an owning
    Item"), the codes taken in the order of the mapping.  The SyncOperation
    row of §4.4 is written by [run], once the publication has ended. *)
Definition publish (clock : timestamptz) (meta : run_meta)
    (items : gmap string item_attrs) (stockLevels : gmap string stock_level)
    (db : database) : published :=
  publish_entries clock meta
    (map_to_list (map_zip items stockLevels)) db 0.

(** *** Sync Orchestrator *)

(** Modelled from the spec: the status of a run (§3, §4.5). *)
Inductive status := SUCCESS | FAILED | ERROR.

Definition status_text (s : status) : string :=
  match s with SUCCESS => "SUCCESS" | FAILED => "FAILED" | ERROR => "ERROR" end.

(** Modelled from the spec: the Item of a stock level (§3): "created on
    first sight from any source or baseline row", with the attributes of
    the source when a stock master has the item, else the name of the
    baseline row, else the code itself, and the defaults "General" and
    "Nos". *)
Definition item_of (agg_items : gmap string item_attrs)
    (baseline : gmap string baseline_entry) (code : string) : item_attrs :=
  match agg_items !! code with
  | Some a => a
  | None =>
      {| ia_item_name := default code (bl_item_name <$> baseline !! code);
         ia_category := "General"; ia_unit := "Nos" |}
  end.

(** Modelled from the spec: the one SyncOperation row of a run (§3, §4.4). *)
Definition sync_operation (meta : run_meta) (s : status) (processed : nat)
    (error_message : option string) : sync_logs_values :=
  {| lgv_sync_timestamp := Given (Some (run_timestamp meta));
     lgv_items_processed := Given (Some (Z.of_nat processed));
     lgv_status := Given (Some (status_text s));
     lgv_error_message := Given error_message;
     lgv_duration_seconds := Given (Some (duration_seconds meta)) |}.

Definition write_sync_operation (clock : timestamptz) (v : sync_logs_values)
    (db : database) : database :=
  default db (insert_sync_logs clock v db).

(** Modelled from the spec: the outcome of a run (§4.5). *)
Record outcome := {
  out_database : database;
  out_status : status;
  out_items_processed : nat
}.

(** Modelled from the spec: a run (§4.5): aggregate, calculate, publish,
    then log; "SUCCESS only if aggregation had zero connector failures and
    publish succeeded for all items; otherwise FAILED (partial) or ERROR
    (aggregation totally failed / publish rejected)".  The orchestrator of
    [tally_sync.py] is missing. *)
Definition run (clock : timestamptz) (meta : run_meta)
    (baseline : gmap string baseline_entry) (fetches : list fetched)
    (db : database) : outcome :=
  match aggregate fetches with
  | None =>
      {| out_database :=
           write_sync_operation clock
             (sync_operation meta ERROR 0 (Some "AggregationError: every source failed")) db;
         out_status := ERROR; out_items_processed := 0 |}
  | Some agg =>
      let levels := compute baseline (agg_deltas agg) in
      let items := map_imap (λ code _, Some (item_of (agg_items agg) baseline code)) levels in
      let p := publish clock meta items levels db in
      let s := if PublishError p then ERROR
               else if decide (agg_failures agg = []) then SUCCESS else FAILED in
      let message :=
        if PublishError p then Some "PublishError: a write was rejected"
        else if decide (agg_failures agg = []) then None
        else Some ("ConnectionError: " +:+ String.concat ", " (agg_failures agg).*1) in
      {| out_database :=
           write_sync_operation clock
             (sync_operation meta s (itemsProcessed p) message) (pub_database p);
         out_status := s; out_items_processed := itemsProcessed p |}
  end.

(** *** The vocabulary of the claims about deltas *)

(** The delta of a code in the movement rows of one answer. *)
Definition movements_delta (code : string) (mvs : list movement) : decimal :=
  foldr (λ mv acc,
           ((if decide (mv_item_code mv = code) then mv_quantity_delta mv else 0)
            + acc)%Z) 0%Z mvs.

(** The delta of a code in one source; a source that failed, or does not
    have the item, contributes zero. *)
Definition source_delta (code : string) (f : fetched) : decimal :=
  match f with
  | ConnectionError _ _ => 0%Z
  | Fetched _ _ movements => movements_delta code movements
  end.

(** The sum over the sources. *)
Definition sources_delta (code : string) (fs : list fetched) : decimal :=
  foldr (λ f acc, (source_delta code f + acc)%Z) 0%Z fs.

(** The sources in which an item is present. *)
Definition present_in (code : string) (f : fetched) : Prop :=
  match f with
  | ConnectionError _ _ => False
  | Fetched _ stock_items movements =>
      code ∈ si_item_code <$> stock_items ∨ code ∈ mv_item_code <$> movements
  end.

End Engine.

(** ** A publication, step by step

    The definitions the proofs about [publish] are stated with. *)

Module Publication.
Import Schema Engine.

(** What the column types of [items] ask of an item. *)
Definition item_publishable (code : string) (a : item_attrs) : Prop :=
  varchar_fits 100 code ∧ varchar_fits 255 (ia_item_name a)
  ∧ varchar_fits 100 (ia_category a) ∧ varchar_fits 50 (ia_unit a).

(** What the column types of [stock_levels] ask of a stock level. *)
Definition level_publishable (l : stock_level) : Prop :=
  decimal_fits (current_stock l) ∧ decimal_fits (physical_baseline l)
  ∧ decimal_fits (tally_delta l).

Global Instance item_publishable_dec code a : Decision (item_publishable code a).
Proof. unfold item_publishable. apply _. Defined.
Global Instance level_publishable_dec l : Decision (level_publishable l).
Proof. unfold level_publishable. apply _. Defined.

(** The row of an item seen for the first time. *)
Definition created_item (clock : timestamptz) (id : uuid) (code : string)
    (a : item_attrs) : items_row :=
  {| i_id := id; i_item_code := code; i_item_name := ia_item_name a;
     i_category := Some (ia_category a); i_unit := Some (ia_unit a);
     i_created_at := Some clock; i_updated_at := Some clock |}.

(** The row of an item seen again. *)
Definition refreshed_item (clock : timestamptz) (a : item_attrs) (old : items_row)
  : items_row :=
  {| i_id := i_id old; i_item_code := i_item_code old;
     i_item_name := ia_item_name a;
     i_category := Some (ia_category a); i_unit := Some (ia_unit a);
     i_created_at := i_created_at old; i_updated_at := Some clock |}.

(** The stock level the publisher stores for an item. *)
Definition level_row (id item_id : uuid) (meta : run_meta) (l : stock_level)
  : stock_levels_row :=
  {| sl_id := id; sl_item_id := Some item_id;
     sl_current_stock := Some (current_stock l);
     sl_physical_baseline := Some (physical_baseline l);
     sl_tally_delta := Some (tally_delta l);
     sl_last_sync := Some (run_timestamp meta);
     sl_sync_source := Some "tally_sync" |}.

(** [items] after the update of the item of a code. *)
Definition refresh_items (clock : timestamptz) (code : string) (a : item_attrs)
    (l : list items_row) : list items_row :=
  (λ old, if decide (i_item_code old = code) then refreshed_item clock a old else old) <$> l.

(** [stock_levels] after the update of the stock level of an item. *)
Definition refresh_levels (item_id : uuid) (meta : run_meta) (l : stock_level)
    (sls : list stock_levels_row) : list stock_levels_row :=
  (λ old, if decide (sl_item_id old = Some item_id)
          then level_row (sl_id old) item_id meta l else old) <$> sls.

(** The store after the item upsert of the publisher. *)
Definition upserted_item (clock : timestamptz) (code : string) (a : item_attrs)
    (db : database) : database :=
  if decide (code ∈ i_item_code <$> items db) then
    {| items := refresh_items clock code a (items db);
       stock_levels := stock_levels db;
       sync_logs := sync_logs db; uuid_seed := uuid_seed db |}
  else
    {| items := items db ++ [created_item clock (uuid_seed db) code a];
       stock_levels := stock_levels db;
       sync_logs := sync_logs db; uuid_seed := S (uuid_seed db) |}.

(** The store after the stock level upsert of the publisher. *)
Definition upserted_level (meta : run_meta) (item_id : uuid) (l : stock_level)
    (db : database) : database :=
  if decide (Some item_id ∈ sl_item_id <$> stock_levels db) then
    {| items := items db;
       stock_levels := refresh_levels item_id meta l (stock_levels db);
       sync_logs := sync_logs db; uuid_seed := uuid_seed db |}
  else
    {| items := items db;
       stock_levels := stock_levels db ++ [level_row (uuid_seed db) item_id meta l];
       sync_logs := sync_logs db; uuid_seed := S (uuid_seed db) |}.

(** The storage id under which a code is published: the one its item has,
    or the one its item is about to get. *)
Definition storage_id (db : database) (code : string) : uuid :=
  default (uuid_seed db) (item_id_of db code).

(** The store after one item has been published. *)
Definition published_item (clock : timestamptz) (meta : run_meta) (code : string)
    (a : item_attrs) (l : stock_level) (db : database) : database :=
  upserted_level meta (storage_id db code) l (upserted_item clock code a db).

(** An entry of a publication: a code, the item and its stock level. *)
Abbreviation entry := (string * (item_attrs * stock_level))%type.

(** The entries the store accepts. *)
Definition publishable (e : entry) : Prop :=
  item_publishable e.1 e.2.1 ∧ level_publishable e.2.2.

(** One accepted entry published. *)
Definition step (clock : timestamptz) (meta : run_meta) (db : database) (e : entry)
  : database :=
  published_item clock meta e.1 e.2.1 e.2.2 db.

(** The entries a publication commits: those before the first one the store
    rejects. *)
Fixpoint committed (es : list entry) : list entry :=
  match es with
  | [] => []
  | e :: es => if decide (publishable e) then e :: committed es else []
  end.

(** The item of a code carries the attributes [a], and its [updated_at]
    satisfies [T]. *)
Definition item_held (T : option timestamptz → Prop) (db : database)
    (code : string) (a : item_attrs) : Prop :=
  code ∈ i_item_code <$> items db
  ∧ ∀ i, i ∈ items db → i_item_code i = code →
      i_item_name i = ia_item_name a ∧ i_category i = Some (ia_category a)
      ∧ i_unit i = Some (ia_unit a) ∧ T (i_updated_at i).

(** The stock level of the item [id] is the one published for [l]. *)
Definition level_held (meta : run_meta) (db : database) (id : uuid)
    (l : stock_level) : Prop :=
  Some id ∈ sl_item_id <$> stock_levels db
  ∧ ∀ sl, sl ∈ stock_levels db → sl_item_id sl = Some id →
      sl = level_row (sl_id sl) id meta l.

(** The store holds an entry: the item and, under its storage id, the stock
    level. *)
Definition held (T : option timestamptz → Prop) (meta : run_meta) (db : database)
    (e : entry) : Prop :=
  item_held T db e.1 e.2.1 ∧ level_held meta db (storage_id db e.1) e.2.2.



End Publication.

(** ** Stores and runs to try the definitions on *)

Module Fixtures.

Import Schema.

(** The sample data at the end of the schema: five items, and a stock level
    for each, entered by hand. *)
Definition sample_item (code name category unit : string) : statement :=
  INSERT_items {| iv_item_code := Given (Some code); iv_item_name := Given (Some name);
                  iv_category := Given (Some category); iv_unit := Given (Some unit);
                  iv_created_at := Omitted; iv_updated_at := Omitted |}.

Definition sample_stock_level (item_id : uuid) (count : decimal) : statement :=
  INSERT_stock_levels
    {| slv_item_id := Given (Some item_id); slv_current_stock := Given (Some count);
       slv_physical_baseline := Given (Some count); slv_tally_delta := Given (Some 0%Z);
       slv_last_sync := Omitted; slv_sync_source := Given (Some "manual") |}.

Definition sample_items : list statement :=
  [sample_item "BRAKE001" "Brake Pads Front" "Brakes" "Set";
   sample_item "BRAKE002" "Brake Pads Rear" "Brakes" "Set";
   sample_item "OIL001" "Engine Oil 5W30" "Lubricants" "Liter";
   sample_item "FILTER001" "Air Filter" "Filters" "Piece";
   sample_item "SPARK001" "Spark Plugs" "Ignition" "Set"].

Definition sample_stock_levels : list statement :=
  [sample_stock_level 0 25000%Z; sample_stock_level 1 18000%Z;
   sample_stock_level 2 42000%Z; sample_stock_level 3 15000%Z;
   sample_stock_level 4 30000%Z].

(** A script run at one time of the store; a rejected statement is skipped. *)
Definition script (now : timestamptz) (ss : list statement) (db : database) : database :=
  foldl (λ db s, default db (execute now s db)) db ss.

(** The store between the two [INSERT]s of the sample data, and after. *)
Definition items_only : database :=
  script 1700000000000000%Z sample_items empty_database.

Definition sample_data : database :=
  script 1700000000000000%Z sample_stock_levels items_only.

(** The store after a sync that found 0.9 liters of OIL001 used since the
    count of 42 liters. *)
Definition synced_data : database :=
  script 1700000600000000%Z
    [UPSERT_stock_levels
       {| slv_item_id := Given (Some 2); slv_current_stock := Given (Some 41100%Z);
          slv_physical_baseline := Given (Some 42000%Z);
          slv_tally_delta := Given (Some (-900)%Z);
          slv_last_sync := Given (Some 1700000600000000%Z);
          slv_sync_source := Given (Some "tally_sync") |}]
    sample_data.

(** The same store once OIL001 has been removed. *)
Definition pruned_data : database :=
  script 1700000700000000%Z [DELETE_items 2] synced_data.

(** The stores as the app reads them, with the anon key and without
    failure. *)
Definition sample_backend : Client.backend :=
  {| Client.database := sample_data; Client.collate_le := String.leb;
     Client.select_failure := None; Client.rpc_failure := None;
     Client.auth_role := anon |}.

Definition synced_backend : Client.backend :=
  {| Client.database := synced_data; Client.collate_le := String.leb;
     Client.select_failure := None; Client.rpc_failure := None;
     Client.auth_role := anon |}.

Definition pruned_backend : Client.backend :=
  {| Client.database := pruned_data; Client.collate_le := String.leb;
     Client.select_failure := None; Client.rpc_failure := None;
     Client.auth_role := anon |}.

Import Engine.

Local Open Scope Z_scope.

(** The example of the multi-company guide:
    "Physical Baseline: 50 units (from CSV); Company 1 Delta: -5 units
    (closing - opening); Company 2 Delta: +2 units (closing - opening);
    Combined Delta: -3 units; Clean Slate Stock: 50 + (-3) = 47 units". *)
Definition guide_sources : list fetched :=
  [Fetched "Company 1" []
     [{| mv_item_code := "BRAKE001"; mv_quantity_delta := -5000 |}];
   Fetched "Company 2" []
     [{| mv_item_code := "BRAKE001"; mv_quantity_delta := 2000 |}]].

Definition guide_baseline : gmap string baseline_entry :=
  {[ "BRAKE001" := {| bl_item_name := "Brake Pad Set"; bl_physical_count := 50000;
                      bl_baseline_date := 1704067200000000;
                      bl_notes := "Combined count across all locations" |};
     "FILTER002" := {| bl_item_name := "Air Filter"; bl_physical_count := 30000;
                       bl_baseline_date := 1704067200000000;
                       bl_notes := "Total physical inventory" |} ]}.

Definition guide_meta : run_meta :=
  {| run_timestamp := 1706745600000000; duration_seconds := 12 |}.

Definition guide_run : outcome :=
  run 1706745601000000 guide_meta guide_baseline guide_sources empty_database.



End Fixtures.

(** ** JavaScript strings, numbers and arrays *)

Module JS.
Import Client.

Local Open Scope Z_scope.

(** [s.includes(t)]: [t] occurs in [s]. *)
Fixpoint includes (s t : string) : bool :=
  String.prefix t s
  || match s with
     | EmptyString => false
     | String _ s' => includes s' t
     end.

(** [String(v)] of a string or [null]. *)
Definition ToString (v : option string) : string := default "null" v.

(** An integer literal. *)
Definition literal (n : Z) : number := {| mantissa := n; exponent := 0 |}.

(** [x <= y] on finite numbers. *)
Definition number_leb (x y : number) : bool :=
  let e := Z.min (exponent x) (exponent y) in
  mantissa x * 2 ^ (exponent x - e) <=? mantissa y * 2 ^ (exponent y - e).

(** [Math.floor(a / b)] and [Math.ceil(a / b)] on whole numbers [a] and
    [0 < b].  Below [2 ^ 53] the quotient, rounded to a [number], lies
    between the same two integers as the exact one. *)
Definition Math_floor_div (a b : Z) : Z := a `div` b.
Definition Math_ceil_div (a b : Z) : Z := - ((- a) `div` b).

(** An index of [slice] relative to the length: from the end when
    negative, and clamped. *)
Definition relative_index (len k : Z) : Z :=
  if k <? 0 then Z.max (len + k) 0 else Z.min k len.

(** [array.slice(start, end)] *)
Definition slice {A} (start end_ : Z) (array : list A) : list A :=
  let len := Z.of_nat (length array) in
  let k := relative_index len start in
  let final := relative_index len end_ in
  take (Z.to_nat (final - k)) (drop (Z.to_nat k) array).

(** [[...new Set(array)]]: the values in the order of their first
    occurrence. *)
Fixpoint new_Set {A} `{EqDecision A} (array : list A) : list A :=
  match array with
  | [] => []
  | x :: array => x :: filter (λ y, y ≠ x) (new_Set array)
  end.

(** [array.sort(le)], a stable sort: an element goes before the first
    one that is not below it. *)
Fixpoint sort_insert {A} (le : A → A → bool) (x : A) (sorted : list A) : list A :=
  match sorted with
  | [] => [x]
  | y :: sorted' => if le x y then x :: sorted else y :: sort_insert le x sorted'
  end.

Definition sort_by {A} (le : A → A → bool) (array : list A) : list A :=
  foldr (sort_insert le) [] array.

(** The characters of a text as code points, read off its bytes: a byte
    [0xxxxxxx] is a character, and a byte [110xxxxx], [1110xxxx] or
    [11110xxx] begins one of two, three or four bytes, each further byte
    giving six bits.  [pending] bytes of the character [point] are to come. *)
Fixpoint code_points_from (pending : nat) (point : N) (s : string) : list N :=
  match s with
  | EmptyString => []
  | String b s =>
      let n := Ascii.N_of_ascii b in
      match pending with
      | O =>
          if (n <? 128)%N then n :: code_points_from 0 0 s
          else if (n <? 224)%N then code_points_from 1 (n `mod` 32)%N s
          else if (n <? 240)%N then code_points_from 2 (n `mod` 16)%N s
          else code_points_from 3 (n `mod` 8)%N s
      | S pending =>
          let point := (point * 64 + n `mod` 64)%N in
          match pending with
          | O => point :: code_points_from 0 0 s
          | S _ => code_points_from pending point s
          end
      end
  end.

(** A JavaScript string is a sequence of UTF-16 code units: one for a
    character below [U+10000], a pair of surrogates above. *)
Definition code_units_of_point (point : N) : list N :=
  if (point <? 65536)%N then [point]
  else [(55296 + (point - 65536) `div` 1024)%N; (56320 + (point - 65536) `mod` 1024)%N].

Definition code_units (s : string) : list N :=
  code_points_from 0 0 s ≫= code_units_of_point.

(** [x <= y] on strings: the order of the dictionary on their code units. *)
Fixpoint code_units_leb (x y : list N) : bool :=
  match x, y with
  | [], _ => true
  | _ :: _, [] => false
  | a :: x, b :: y =>
      if (a <? b)%N then true else if (b <? a)%N then false else code_units_leb x y
  end.

Definition string_leb (x y : string) : bool :=
  code_units_leb (code_units x) (code_units y).

(** [array.sort()] on strings and [null]s: the order of the code units of
    [String(v)]. *)
Definition sort : list (option string) → list (option string) :=
  sort_by (λ x y, string_leb (ToString x) (ToString y)).

End JS.

(** ** The list components: [mobile-app/src/components/InventoryList.tsx] *)

Module Component.
Import Client JS.

Local Open Scope Z_scope.

(** [getStockStatusColor] *)
Definition getStockStatusColor (stock : number) : string :=
  if number_leb stock (literal 0) then "text-red-600 bg-red-50"
  else if number_leb stock (literal 5) then "text-yellow-600 bg-yellow-50"
  else "text-green-600 bg-green-50".

(** [{item.tally_delta >= 0 ? '+' : ''}], the text before the delta of a
    card. *)
Definition delta_prefix (item : InventoryItem) : string :=
  if number_leb (literal 0) (tally_delta item) then "+" else "".

(** [categories]: ['All', ...new Set(items.map(item => item.category))],
    sorted. *)
Definition categories (items : list InventoryItem) : list (option string) :=
  sort (Some "All" :: new_Set (category <$> items)).

Section filtering.

(** [String.prototype.toLowerCase] is the platform's. *)
Variable toLowerCase : string → string.

Definition matchesSearch (term : string) (item : InventoryItem) : bool :=
  includes (toLowerCase (item_name item)) (toLowerCase term)
  || includes (toLowerCase (item_code item)) (toLowerCase term).

Definition matchesCategory (selectedCategory : option string) (item : InventoryItem)
  : bool :=
  bool_decide (selectedCategory = Some "All")
  || bool_decide (category item = selectedCategory).

(** [filteredItems] of the first version of the component
    (no debouncing, no pages). *)
Definition filteredItems_simple (items : list InventoryItem) (searchTerm : string)
    (selectedCategory : option string) : list InventoryItem :=
  filter (λ item, matchesSearch searchTerm item && matchesCategory selectedCategory item)
         items.

(** [filteredItems] of [InventoryList] and of [VirtualizedInventoryList]. *)
Definition filteredItems (items : list InventoryItem) (debouncedSearchTerm : string)
    (selectedCategory : option string) : list InventoryItem :=
  if bool_decide (length items = 0%nat) then []
  else
    filter (λ item,
              (bool_decide (debouncedSearchTerm = "")
               || matchesSearch debouncedSearchTerm item)
              && matchesCategory selectedCategory item)
           items.

End filtering.

(** *** Pages *)

Definition itemsPerPage : Z := 50.

Definition totalPages (filtered : Z) : Z := Math_ceil_div filtered itemsPerPage.
Definition startIndex (currentPage : Z) : Z := (currentPage - 1) * itemsPerPage.
Definition endIndex (currentPage : Z) : Z := startIndex currentPage + itemsPerPage.

Definition paginatedItems {A} (filteredItems : list A) (currentPage : Z) : list A :=
  slice (startIndex currentPage) (endIndex currentPage) filteredItems.

(** The page buttons, [Array.from({ length: Math.min(5, totalPages) }, ...)]:
    a page number, or nothing where the source returns [null]. *)
Definition pageNum (totalPages currentPage i : Z) : Z :=
  Z.max 1 (Z.min (totalPages - 4) (currentPage - 2)) + i.

Definition pageButtons (totalPages currentPage : Z) : list (option Z) :=
  (λ i, let n := pageNum totalPages currentPage i in
        if totalPages <? n then None else Some n)
  <$> seqZ 0 (Z.min 5 totalPages).

End Component.

(** ** [InventoryList]: its state, what it shows and what the user can do *)

Module Paginated.
Import Client JS Component.

Local Open Scope Z_scope.

(** The [useState] cells of [InventoryList] and the timeout that
    [searchTimeoutRef] holds while it is pending: the milliseconds left and
    the search term its callback has captured. *)
Record state := {
  searchTerm : string;
  debouncedSearchTerm : string;
  selectedCategory : option string;
  currentPage : Z;
  searchTimeout : option (nat * string)
}.

(** After the first render: both effects have run, the first has set a
    timeout for the empty search term. *)
Definition mounted : state :=
  {| searchTerm := ""; debouncedSearchTerm := ""; selectedCategory := Some "All";
     currentPage := 1; searchTimeout := Some (300%nat, "") |}.

(** [handleSearchChange]: [setSearchTerm]; when the term changes, the effect
    on [searchTerm] clears the pending timeout and sets a new one. *)
Definition handleSearchChange (value : string) (st : state) : state :=
  if decide (value = searchTerm st) then st
  else {| searchTerm := value; debouncedSearchTerm := debouncedSearchTerm st;
          selectedCategory := selectedCategory st; currentPage := currentPage st;
          searchTimeout := Some (300%nat, value) |}.

(** The callback of the timeout:
    [setDebouncedSearchTerm(searchTerm); setCurrentPage(1)]. *)
Definition timeout (captured : string) (st : state) : state :=
  {| searchTerm := searchTerm st; debouncedSearchTerm := captured;
     selectedCategory := selectedCategory st; currentPage := 1;
     searchTimeout := None |}.

(** Time passes. *)
Definition elapse (ms : nat) (st : state) : state :=
  match searchTimeout st with
  | Some (due, captured) =>
      if decide (due ≤ ms)%nat then timeout captured st
      else {| searchTerm := searchTerm st;
              debouncedSearchTerm := debouncedSearchTerm st;
              selectedCategory := selectedCategory st;
              currentPage := currentPage st;
              searchTimeout := Some ((due - ms)%nat, captured) |}
  | None => st
  end.

(** [handleCategoryChange]: [setSelectedCategory]; when the category
    changes, the effect on [selectedCategory] sets the page to 1. *)
Definition handleCategoryChange (category : option string) (st : state) : state :=
  if decide (category = selectedCategory st) then st
  else {| searchTerm := searchTerm st; debouncedSearchTerm := debouncedSearchTerm st;
          selectedCategory := category; currentPage := 1;
          searchTimeout := searchTimeout st |}.

(** [handlePageChange] *)
Definition handlePageChange (page : Z) (st : state) : state :=
  {| searchTerm := searchTerm st; debouncedSearchTerm := debouncedSearchTerm st;
     selectedCategory := selectedCategory st; currentPage := page;
     searchTimeout := searchTimeout st |}.

(** The timeout that is pending holds the search term of the field, and
    without a pending timeout the debounced term is that of the field. *)
Definition debouncing (st : state) : Prop :=
  (∀ due captured, searchTimeout st = Some (due, captured) →
     captured = searchTerm st ∧ (0 < due ≤ 300)%nat)
  ∧ (searchTimeout st = None → debouncedSearchTerm st = searchTerm st).

Section component.

Variable toLowerCase : string → string.

(** The filtered items and the number of pages of a render. *)
Definition filtered (hook : useInventory) (st : state) : list InventoryItem :=
  filteredItems toLowerCase (items hook) (debouncedSearchTerm st) (selectedCategory st).

Definition pages (hook : useInventory) (st : state) : Z :=
  totalPages (Z.of_nat (length (filtered hook st))).

(** The current page is a page of the filtered list, or the first one. *)
Definition on_a_page (hook : useInventory) (st : state) : Prop :=
  1 ≤ currentPage st ≤ Z.max 1 (pages hook st).

(** *** What the component shows *)

(** The pagination bar: whether Previous is enabled, the page buttons (each
    with its number and whether it is the current page), whether Next is
    enabled. *)
Record pagination := {
  previous : bool;
  buttons : list (option (Z * bool));
  next : bool
}.

(** The summary: "Showing [from]-[to] of [of] items", and
    "(filtered from [total] total)" when the filter has left items out. *)
Record summary := {
  showing_from : Z;
  showing_to : Z;
  showing_of : Z;
  filtered_from : option Z
}.

(** What the list screen shows, apart from its fixed texts. *)
Record inventory := {
  last_sync_text : string;                (* Last sync: {formatLastSync(lastSync)} *)
  searching : bool;                       (* debouncedSearchTerm !== searchTerm *)
  category_buttons : list (option string * bool);
                                          (* the categories, the selected one marked *)
  body : string + list InventoryItem;     (* the message of the empty list, or the cards *)
  pagination_bar : option pagination;     (* totalPages > 1 && ... *)
  summary_line : option summary           (* filteredItems.length > 0 && ... *)
}.

Inductive rendered :=
  | Loading_inventory
  | Error_loading_inventory (error : string)
  | Inventory (shown : inventory).

Definition inventory_of (now : Date) (hook : useInventory) (st : state) : inventory :=
  let filteredItems := filtered hook st in
  let count := Z.of_nat (length filteredItems) in
  let totalPages := pages hook st in
  {| last_sync_text := formatLastSync now (lastSync hook);
     searching := bool_decide (debouncedSearchTerm st ≠ searchTerm st);
     category_buttons :=
       (λ category, (category, bool_decide (selectedCategory st = category)))
         <$> categories (items hook);
     body :=
       if count =? 0 then
         inl (if bool_decide (debouncedSearchTerm st ≠ "")
                 || bool_decide (selectedCategory st ≠ Some "All")
              then "No items match your search criteria"
              else "No inventory items found")
       else inr (paginatedItems filteredItems (currentPage st));
     pagination_bar :=
       if 1 <? totalPages then
         Some {| previous := bool_decide (currentPage st ≠ 1);
                 buttons :=
                   fmap (M := option) (λ n, (n, bool_decide (currentPage st = n)))
                     <$> pageButtons totalPages (currentPage st);
                 next := bool_decide (currentPage st ≠ totalPages) |}
       else None;
     summary_line :=
       if 0 <? count then
         Some {| showing_from := startIndex (currentPage st) + 1;
                 showing_to := Z.min (endIndex (currentPage st)) count;
                 showing_of := count;
                 filtered_from :=
                   if bool_decide (count ≠ Z.of_nat (length (items hook)))
                   then Some (Z.of_nat (length (items hook))) else None |}
       else None |}.

(** [InventoryList], rendered at the time [now].  An empty string is
    falsy: [if (error)] does not take it for an error. *)
Definition InventoryList (now : Date) (hook : useInventory) (st : state) : rendered :=
  if loading hook then Loading_inventory
  else
    match error_ hook with
    | Some error =>
        if decide (error = "") then Inventory (inventory_of now hook st)
        else Error_loading_inventory error
    | None => Inventory (inventory_of now hook st)
    end.

(** *** What the user can do *)

Inductive event :=
  | type (value : string)                 (* in the search field *)
  | click_category (category : option string)
  | click_previous
  | click_next
  | click_page (n : Z)
  | wait (ms : nat).

(** The handlers the screen offers: a control that is not shown, or is
    disabled, does nothing. *)
Definition handle (screen : rendered) (e : event) (st : state) : state :=
  match e, screen with
  | wait ms, _ => elapse ms st
  | type value, Inventory _ => handleSearchChange value st
  | click_category category, Inventory shown =>
      if decide (category ∈ (category_buttons shown).*1)
      then handleCategoryChange category st else st
  | click_previous, Inventory shown =>
      match pagination_bar shown with
      | Some bar => if previous bar then handlePageChange (currentPage st - 1) st else st
      | None => st
      end
  | click_next, Inventory shown =>
      match pagination_bar shown with
      | Some bar => if next bar then handlePageChange (currentPage st + 1) st else st
      | None => st
      end
  | click_page n, Inventory shown =>
      match pagination_bar shown with
      | Some bar =>
          if decide (Some n ∈ fmap (M := option) fst <$> buttons bar)
          then handlePageChange n st else st
      | None => st
      end
  | _, _ => st
  end.

(** The clock after an event. *)
Definition after (now : Date) (e : event) : Date :=
  match e with wait ms => now + Z.of_nat ms | _ => now end.

(** The component from the time [now] on, with the cells of the hook as
    they are: the state after the events. *)
Fixpoint interact (now : Date) (hook : useInventory) (events : list event) (st : state)
  : state :=
  match events with
  | [] => st
  | e :: events =>
      interact (after now e) hook events (handle (InventoryList now hook st) e st)
  end.

End component.

End Paginated.

(** ** The virtual list: [mobile-app/src/hooks/useVirtualizedList.ts] *)

Module Virtualized.
Import JS.

Local Open Scope Z_scope.

(** What the hook returns, [handleScroll] apart. *)
Record virtualized (T : Type) := {
  visibleItems : list (T * Z);            (* { item, index } *)
  totalHeight : Z;
  startIndex : Z;
  offsetY : Z
}.
Arguments visibleItems {T} _.
Arguments totalHeight {T} _.
Arguments startIndex {T} _.
Arguments offsetY {T} _.

(** [useVirtualizedList] at the scroll position [scrollTop]; [overscan]
    is 5 when it is not given.  Heights and positions are whole numbers of
    pixels. *)
Definition useVirtualizedList {T} (items : list T)
    (itemHeight containerHeight : Z) (overscan : option Z) (scrollTop : Z)
  : virtualized T :=
  let overscan := default 5 overscan in
  let visibleCount := Math_ceil_div containerHeight itemHeight in
  let startIndex := Z.max 0 (Math_floor_div scrollTop itemHeight - overscan) in
  let endIndex :=
    Z.min (Z.of_nat (length items) - 1) (startIndex + visibleCount + overscan * 2) in
  {| visibleItems :=
       imap (λ index item, (item, startIndex + Z.of_nat index))
            (slice startIndex (endIndex + 1) items);
     totalHeight := Z.of_nat (length items) * itemHeight;
     startIndex := startIndex;
     offsetY := startIndex * itemHeight |}.

End Virtualized.

(** ** The sample data of [docs/supabase-schema.sql] *)

Module SampleData.
Import Schema.

Local Open Scope Z_scope.

(** An [INSERT] of several rows is one statement: every row is stored, or
    none. *)
Definition insert_items_rows (now : timestamptz) (rows : list items_values)
    (db : database) : option database :=
  foldl (λ db v, db ≫= insert_items now v) (Some db) rows.

Definition insert_stock_levels_rows (now : timestamptz)
    (rows : list stock_levels_values) (db : database) : option database :=
  foldl (λ db v, db ≫= insert_stock_levels now v) (Some db) rows.

(** [INSERT INTO items (item_code, item_name, category, unit) VALUES ...] *)
Definition sample_item_values (code name category unit : string) : items_values :=
  {| iv_item_code := Given (Some code); iv_item_name := Given (Some name);
     iv_category := Given (Some category); iv_unit := Given (Some unit);
     iv_created_at := Omitted; iv_updated_at := Omitted |}.

Definition sample_items_values : list items_values :=
  [sample_item_values "BRAKE001" "Brake Pads Front" "Brakes" "Set";
   sample_item_values "BRAKE002" "Brake Pads Rear" "Brakes" "Set";
   sample_item_values "OIL001" "Engine Oil 5W30" "Lubricants" "Liter";
   sample_item_values "FILTER001" "Air Filter" "Filters" "Piece";
   sample_item_values "SPARK001" "Spark Plugs" "Ignition" "Set"].

(** The row of a sample item. *)
Definition sample_item_row (now : timestamptz) (id : uuid) (v : items_values)
  : items_row :=
  {| i_id := id;
     i_item_code := default "" (inserted None (iv_item_code v));
     i_item_name := default "" (inserted None (iv_item_name v));
     i_category := inserted None (iv_category v);
     i_unit := inserted None (iv_unit v);
     i_created_at := Some now; i_updated_at := Some now |}.

(** [CASE WHEN i.item_code = 'BRAKE001' THEN 25 ... END]: [NULL] when no
    branch applies. *)
Definition sample_count (item_code : string) : option decimal :=
  if decide (item_code = "BRAKE001") then Some 25000
  else if decide (item_code = "BRAKE002") then Some 18000
  else if decide (item_code = "OIL001") then Some 42000
  else if decide (item_code = "FILTER001") then Some 15000
  else if decide (item_code = "SPARK001") then Some 30000
  else None.

(** The row that
    [SELECT i.id, CASE ... END, CASE ... END, 0, 'manual' FROM items i]
    yields for an item. *)
Definition sample_stock_level_values (i : items_row) : stock_levels_values :=
  {| slv_item_id := Given (Some (i_id i));
     slv_current_stock := Given (sample_count (i_item_code i));
     slv_physical_baseline := Given (sample_count (i_item_code i));
     slv_tally_delta := Given (Some 0);
     slv_last_sync := Omitted;
     slv_sync_source := Given (Some "manual") |}.

(** The stock level the sample data stores for an item. *)
Definition sample_stock_level_row (now : timestamptz) (id : uuid) (i : items_row)
  : stock_levels_row :=
  {| sl_id := id; sl_item_id := Some (i_id i);
     sl_current_stock := sample_count (i_item_code i);
     sl_physical_baseline := sample_count (i_item_code i);
     sl_tally_delta := Some 0%Z; sl_last_sync := Some now;
     sl_sync_source := Some "manual" |}.

(** [INSERT INTO stock_levels (...) SELECT ... FROM items i] *)
Definition insert_sample_stock_levels (now : timestamptz) (db : database)
  : option database :=
  insert_stock_levels_rows now (sample_stock_level_values <$> items db) db.

(** The two statements, one after the other. *)
Definition load_sample_data (now : timestamptz) (db : database) : option database :=
  insert_items_rows now sample_items_values db ≫= insert_sample_stock_levels now.

End SampleData.

(** ** The hook over several fetches *)

Module Session.
Import Client.


End Session.

(** ** The hook while fetches overlap *)

Module Fetches.
Import Client.

(** [fetchItems] is [async]: the hook begins a call on mounting, on every
    [refreshItems] and on every change notification, without waiting for the
    calls before, and between the [await]s of a call the others run.  A call
    that has begun is at one of its two [await]s, or has returned. *)
Inductive stage := awaits_select | awaits_rpc | returned.

Global Instance stage_eq_dec : EqDecision stage.
Proof. solve_decision. Defined.

(** The hook: its cells, the calls of [fetchItems] in the order in which
    they began, and the requests sent so far. *)
Record hook := {
  cells : useInventory;
  calls : list stage;
  sent : list request
}.

(** What happens to the hook: a call of [fetchItems] begins, or the call
    number [k] resumes from an [await] with the answer of the store [be]. *)
Inductive event :=
  | fetchItems_begins
  | select_resumes (k : nat) (be : backend)
  | rpc_resumes (k : nat) (be : backend).

(** The message the [catch] of [fetchItems] sets. *)
Definition caught (err : PostgrestError) : string :=
  if instanceof_Error err then message err else "Failed to fetch inventory".

(** [fetchItems] up to its first [await]: [setLoading(true)],
    [setError(null)], and the query of the view is sent. *)
Definition begin (h : hook) : hook :=
  {| cells := {| items := items (cells h); loading := true; error_ := None;
                 lastSync := lastSync (cells h) |};
     calls := calls h ++ [awaits_select];
     sent := sent h ++ [from_select_order "inventory_view" "*" "item_name"] |}.

(** From the first [await] to the second: [throw fetchError], caught, and
    the call returns through [finally]; or [setItems(data || [])], and the
    call of the function is sent. *)
Definition after_select (k : nat) (be : backend) (h : hook) : hook :=
  let view := from_inventory_view_select_order_item_name be in
  match error view with
  | Some fetchError =>
      {| cells := {| items := items (cells h); loading := false;
                     error_ := Some (caught fetchError);
                     lastSync := lastSync (cells h) |};
         calls := <[k := returned]> (calls h);
         sent := sent h |}
  | None =>
      {| cells := {| items := default [] (data view); loading := loading (cells h);
                     error_ := error_ (cells h); lastSync := lastSync (cells h) |};
         calls := <[k := awaits_rpc]> (calls h);
         sent := sent h ++ [rpc "get_latest_sync_timestamp"] |}
  end.

(** From the second [await] to the end: [setLastSync] under its guard, then
    [finally]. *)
Definition after_rpc (k : nat) (be : backend) (h : hook) : hook :=
  let sync := rpc_get_latest_sync_timestamp be in
  {| cells := {| items := items (cells h); loading := false;
                 error_ := error_ (cells h);
                 lastSync :=
                   match error sync, data sync with
                   | None, Some syncData => Some (new_Date syncData)
                   | _, _ => lastSync (cells h)
                   end |};
     calls := <[k := returned]> (calls h);
     sent := sent h |}.

(** An [await] resumes once: the event of a call that is not at that
    [await] does not happen. *)
Definition effective (h : hook) (e : event) : Prop :=
  match e with
  | fetchItems_begins => True
  | select_resumes k _ => calls h !! k = Some awaits_select
  | rpc_resumes k _ => calls h !! k = Some awaits_rpc
  end.

Global Instance effective_dec h e : Decision (effective h e).
Proof. destruct e; simpl; apply _. Defined.

Definition handle (h : hook) (e : event) : hook :=
  match e with
  | fetchItems_begins => begin h
  | select_resumes k be => if decide (effective h e) then after_select k be h else h
  | rpc_resumes k be => if decide (effective h e) then after_rpc k be h else h
  end.

(** [useEffect(..., [])]: the first call of [fetchItems] runs to its first
    [await], and the hook subscribes to the changes of [stock_levels]. *)
Definition mounted : hook :=
  let h := begin {| cells := useInventory_initial; calls := []; sent := [] |} in
  {| cells := cells h; calls := calls h;
     sent := sent h ++ [channel_on_postgres_changes "*" "public" "stock_levels"] |}.

Definition run (es : list event) : hook := foldl handle mounted es.

(** The events that can happen one after the other, from the hook [h]. *)
Fixpoint possible (h : hook) (es : list event) : Prop :=
  match es with
  | [] => True
  | e :: es => effective h e ∧ possible (handle h e) es
  end.

Global Instance possible_dec h es : Decision (possible h es).
Proof. revert h. induction es as [|e es IH]; intros h; simpl; apply _. Defined.

(** The events that write the cells [error] and [loading]: a call begins,
    a query of the view fails, a call returns. *)
Definition begins (e : event) : Prop := e = fetchItems_begins.

Definition fails (e : event) : Prop :=
  match e with
  | select_resumes _ be => is_Some (select_failure be)
  | _ => False
  end.

Definition returns (e : event) : Prop :=
  match e with
  | fetchItems_begins => False
  | select_resumes _ be => is_Some (select_failure be)
  | rpc_resumes _ _ => True
  end.

(** A query of the view fails with the message [text]. *)
Definition fails_with (text : string) (e : event) : Prop :=
  match e with
  | select_resumes _ be => caught <$> select_failure be = Some text
  | _ => False
  end.

(** An event with [P] has happened, and none with [Q] since. *)
Definition since (P Q : event → Prop) (es : list event) : Prop :=
  ∃ es1 e es2, es = es1 ++ e :: es2 ∧ P e ∧ Forall (λ e, ¬ Q e) es2.

(** A call made alone: both [await]s resume before anything else happens. *)
Definition alone (k : nat) (be : backend) : list event :=
  select_resumes k be
  :: match select_failure be with
     | None => [rpc_resumes k be]
     | Some _ => []
     end.

(** The calls made one after the other: the one of the mount on [be], then
    one on each of [bes], each begun when the one before has returned. *)
Definition one_after_the_other (be : backend) (bes : list backend) : list event :=
  alone 0 be ++ mjoin (imap (λ i be', fetchItems_begins :: alone (S i) be') bes).

End Fetches.

(** ** Screens to try the components on *)

Module Screens.
Import Client.

(** [toLowerCase] on the letters A to Z; the other characters are left as
    they are. *)
Definition toLowerCase_ascii (c : Ascii.ascii) : Ascii.ascii :=
  let n := Ascii.nat_of_ascii c in
  if decide (65 ≤ n ≤ 90) then Ascii.ascii_of_nat (n + 32) else c.

Fixpoint toLowerCase (s : string) : string :=
  match s with
  | EmptyString => EmptyString
  | String c s => String (toLowerCase_ascii c) (toLowerCase s)
  end.

(** The cells of the hook with [n] items in stock, fetched without error. *)
Definition numbered_item (k : nat) : InventoryItem :=
  {| id := k; item_code := "ITEM" +:+ pretty k; item_name := "Item " +:+ pretty k;
     category := Some "General"; unit := Some "Nos";
     current_stock := number_of_decimal 10000%Z;
     physical_baseline := number_of_decimal 10000%Z;
     tally_delta := number_of_decimal 0%Z;
     last_sync := None; sync_source := "manual" |}.

Definition numbered (n : nat) : useInventory :=
  {| items := numbered_item <$> seq 0 n; loading := false; error_ := None;
     lastSync := None |}.

End Screens.

(** * Proofs *)

(** ** The store keeps its constraints *)

Module SchemaFacts.
Import Schema.

(** *** What a proposed row is *)

Lemma items_proposed_Some now id v row :
  items_proposed now id v = Some row →
  i_id row = id
  ∧ iv_item_code v = Given (Some (i_item_code row))
  ∧ iv_item_name v = Given (Some (i_item_name row))
  ∧ i_category row = inserted (Some "General") (iv_category v)
  ∧ i_unit row = inserted (Some "Nos") (iv_unit v)
  ∧ i_created_at row = inserted (Some now) (iv_created_at v)
  ∧ i_updated_at row = inserted (Some now) (iv_updated_at v)
  ∧ varchar_fits 100 (i_item_code row) ∧ varchar_fits 255 (i_item_name row).
Proof.
  unfold items_proposed. intros Hp.
  destruct (iv_item_code v) as [|[code|]] eqn:Hc; simplify_option_eq.
  destruct (iv_item_name v) as [|[name|]] eqn:Hn; simplify_option_eq.
  done.
Qed.

Lemma stock_levels_proposed_Some now id v row :
  stock_levels_proposed now id v = Some row →
  sl_id row = id
  ∧ sl_item_id row = inserted None (slv_item_id v)
  ∧ sl_current_stock row = inserted (Some 0%Z) (slv_current_stock v)
  ∧ sl_physical_baseline row = inserted (Some 0%Z) (slv_physical_baseline v)
  ∧ sl_tally_delta row = inserted (Some 0%Z) (slv_tally_delta v)
  ∧ sl_last_sync row = inserted (Some now) (slv_last_sync v)
  ∧ sl_sync_source row = inserted (Some "manual") (slv_sync_source v)
  ∧ null_or decimal_fits (sl_current_stock row)
  ∧ null_or decimal_fits (sl_physical_baseline row)
  ∧ null_or decimal_fits (sl_tally_delta row).
Proof.
  unfold stock_levels_proposed. intros Hp. simplify_option_eq. done.
Qed.

Lemma sync_logs_proposed_Some now id v row :
  sync_logs_proposed now id v = Some row →
  lg_id row = id
  ∧ lgv_status v = Given (Some (lg_status row))
  ∧ status_check (lg_status row)
  ∧ lg_sync_timestamp row = inserted (Some now) (lgv_sync_timestamp v)
  ∧ lg_items_processed row = inserted (Some 0%Z) (lgv_items_processed v)
  ∧ lg_error_message row = inserted None (lgv_error_message v)
  ∧ lg_duration_seconds row = inserted None (lgv_duration_seconds v).
Proof.
  unfold sync_logs_proposed. intros Hp.
  destruct (lgv_status v) as [|[st|]] eqn:Hs; simplify_option_eq.
  done.
Qed.

(** *** What a statement does *)

Lemma insert_items_Some now v db db' :
  insert_items now v db = Some db' →
  ∃ row, items_proposed now (uuid_seed db) v = Some row
    ∧ (i_item_code row ∉ i_item_code <$> items db)
    ∧ db' = {| items := items db ++ [row]; stock_levels := stock_levels db;
               sync_logs := sync_logs db; uuid_seed := S (uuid_seed db) |}.
Proof. unfold insert_items. intros. simplify_option_eq. eauto. Qed.

Lemma upsert_items_Some now v db db' :
  upsert_items now v db = Some db' →
  ∃ row, items_proposed now (uuid_seed db) v = Some row
    ∧ (if decide (i_item_code row ∈ i_item_code <$> items db) then
         db' = {| items :=
                    (λ old, if decide (i_item_code old = i_item_code row)
                            then update_updated_at_column now (items_set v row old)
                            else old) <$> items db;
                  stock_levels := stock_levels db;
                  sync_logs := sync_logs db; uuid_seed := uuid_seed db |}
       else
         db' = {| items := items db ++ [row]; stock_levels := stock_levels db;
                  sync_logs := sync_logs db; uuid_seed := S (uuid_seed db) |}).
Proof.
  unfold upsert_items. intros Hu.
  destruct (items_proposed now (uuid_seed db) v) as [row|] eqn:Hp; [|done].
  exists row. split; [done|]. simpl in Hu. case_decide; [by simplify_eq|].
  apply insert_items_Some in Hu as (row' & ? & ? & ->). by simplify_eq.
Qed.

Lemma insert_stock_levels_Some now v db db' :
  insert_stock_levels now v db = Some db' →
  ∃ row, stock_levels_proposed now (uuid_seed db) v = Some row
    ∧ references_items db (sl_item_id row)
    ∧ item_id_free db (sl_item_id row)
    ∧ db' = {| items := items db; stock_levels := stock_levels db ++ [row];
               sync_logs := sync_logs db; uuid_seed := S (uuid_seed db) |}.
Proof. unfold insert_stock_levels. intros. simplify_option_eq. eauto. Qed.

Lemma insert_sync_logs_Some now v db db' :
  insert_sync_logs now v db = Some db' →
  ∃ row, sync_logs_proposed now (uuid_seed db) v = Some row
    ∧ db' = {| items := items db; stock_levels := stock_levels db;
               sync_logs := sync_logs db ++ [row]; uuid_seed := S (uuid_seed db) |}.
Proof. unfold insert_sync_logs. intros. simplify_option_eq. eauto. Qed.

(** *** The constraints hold in every database the statements build *)

Lemma constraints_empty : constraints empty_database.
Proof. split; simpl; repeat split; constructor. Qed.

(** A projection that an update leaves alone. *)
Lemma fmap_update_same {A B} (key : A → B) (f : A → A) (l : list A) :
  (∀ a, key (f a) = key a) → key <$> (f <$> l) = key <$> l.
Proof. intros Hf. rewrite <-list_fmap_compose. apply list_fmap_ext. intros; apply Hf. Qed.

Lemma omap_update_same {A B} (key : A → option B) (f : A → A) (l : list A) :
  (∀ a, key (f a) = key a) → omap key (f <$> l) = omap key l.
Proof.
  intros Hf. induction l as [|a l IH]; [done|].
  rewrite fmap_cons. cbn [omap list_omap]. fold (omap key (f <$> l)) (omap key l).
  by rewrite Hf, IH.
Qed.

Lemma NoDup_fmap_filter {A B} (key : A → B) (P : A → Prop) `{∀ a, Decision (P a)} l :
  NoDup (key <$> l) → NoDup (key <$> filter P l).
Proof.
  intros Hl. apply (sublist_NoDup _ (key <$> l)); [done|].
  apply fmap_sublist, sublist_filter.
Qed.

Lemma NoDup_omap_filter {A B} (key : A → option B) (P : A → Prop)
    `{∀ a, Decision (P a)} l :
  NoDup (omap key l) → NoDup (omap key (filter P l)).
Proof.
  induction l as [|a l IH]; [done|]. simpl.
  intros Hl. assert (NoDup (omap key l)) as Hl'.
  { destruct (key a); [by apply NoDup_cons in Hl as [??]|done]. }
  rewrite filter_cons. case_decide; [|by auto]. simpl.
  destruct (key a) as [b|] eqn:Hk; [|by auto].
  apply NoDup_cons in Hl as [Hb _]. apply NoDup_cons. split; [|by auto].
  intros Hin. apply Hb. apply list_elem_of_omap in Hin as (x & Hx & ?).
  apply list_elem_of_omap. exists x. split; [|done].
  by apply list_elem_of_filter in Hx as [_ ?].
Qed.

Lemma elem_of_omap_Some {A B} (key : A → option B) (l : list A) (b : B) :
  b ∈ omap key l ↔ Some b ∈ key <$> l.
Proof.
  rewrite list_elem_of_omap, list_elem_of_fmap. split.
  - intros (x & ? & ?). exists x. done.
  - intros (x & ? & ?). exists x. done.
Qed.

Lemma NoDup_snoc_fresh {A} (l : list A) (x : A) :
  x ∉ l → NoDup l → NoDup (l ++ [x]).
Proof.
  intros Hx Hl. apply NoDup_app. split_and!; [done| |apply NoDup_singleton].
  intros y Hy ->%list_elem_of_singleton. done.
Qed.

Lemma references_items_mono db db' o :
  i_id <$> items db ⊆ i_id <$> items db' →
  references_items db o → references_items db' o.
Proof.
  unfold references_items. destruct o; simpl; [|done]. intros Hsub ?. by apply Hsub.
Qed.

Lemma constraints_insert_items now v db db' :
  constraints db → insert_items now v db = Some db' → constraints db'.
Proof.
  intros [Hpk Hcode Hslpk Hslitem Hfk Hst Hdec (Hi & Hs & Hl)]
    (row & Hp & Hfree & ->)%insert_items_Some.
  apply items_proposed_Some in Hp as (Hid & _).
  split; simpl; try done.
  - rewrite fmap_app. apply NoDup_snoc_fresh; [|done].
    intros (i & Hix & Hin)%list_elem_of_fmap.
    rewrite Forall_forall in Hi. specialize (Hi _ Hin). lia.
  - rewrite fmap_app. by apply NoDup_snoc_fresh.
  - apply (Forall_impl _ _ _ Hfk). intros sl.
    apply references_items_mono. simpl. rewrite fmap_app.
    intros x ?. apply elem_of_app. by left.
  - split_and!.
    + apply Forall_app. split; [apply (Forall_impl _ _ _ Hi); simpl; lia|].
      apply Forall_singleton. lia.
    + apply (Forall_impl _ _ _ Hs); simpl; lia.
    + apply (Forall_impl _ _ _ Hl); simpl; lia.
Qed.

(** An upsert in conflict keeps the keys of every row. *)
Lemma items_update_id now v row old :
  i_id (update_updated_at_column now (items_set v row old)) = i_id old.
Proof. done. Qed.

Lemma items_update_item_code now v row old :
  i_item_code (update_updated_at_column now (items_set v row old)) = i_item_code old.
Proof. done. Qed.

Lemma constraints_upsert_items now v db db' :
  constraints db → upsert_items now v db = Some db' → constraints db'.
Proof.
  intros Hdb Hu. pose proof Hu as (row & Hp & Hcase)%upsert_items_Some.
  case_decide as Hconflict.
  - subst db'. destruct Hdb as [Hpk Hcode Hslpk Hslitem Hfk Hst Hdec (Hi & Hs & Hl)].
    set (f := λ old, if decide (i_item_code old = i_item_code row)
                     then update_updated_at_column now (items_set v row old)
                     else old).
    assert (i_id <$> (f <$> items db) = i_id <$> items db) as Hids.
    { apply fmap_update_same. intros a. unfold f. by case_decide. }
    assert (i_item_code <$> (f <$> items db) = i_item_code <$> items db) as Hcodes.
    { apply fmap_update_same. intros a. unfold f. by case_decide. }
    split; simpl; fold f; rewrite ?Hids, ?Hcodes; try done.
    + apply (Forall_impl _ _ _ Hfk). intros sl.
      apply references_items_mono. simpl. fold f. by rewrite Hids.
    + split_and!; [|done..]. apply Forall_fmap.
      apply (Forall_impl _ _ _ Hi). intros a. simpl. unfold f. by case_decide.
  - unfold upsert_items in Hu. rewrite Hp in Hu. simpl in Hu.
    rewrite decide_False in Hu by done. by eapply constraints_insert_items.
Qed.

Lemma constraints_delete_items id db :
  constraints db → constraints (delete_items id db).
Proof.
  intros [Hpk Hcode Hslpk Hslitem Hfk Hst Hdec (Hi & Hs & Hl)].
  split; simpl; try done.
  - by apply NoDup_fmap_filter.
  - by apply NoDup_fmap_filter.
  - by apply NoDup_fmap_filter.
  - by apply NoDup_omap_filter.
  - apply Forall_forall. intros sl [Hne Hin]%list_elem_of_filter.
    rewrite Forall_forall in Hfk. specialize (Hfk _ Hin).
    unfold references_items in *. simpl.
    destruct (sl_item_id sl) as [j|]; simpl in *; [|done].
    apply list_elem_of_fmap in Hfk as (i & -> & Hi').
    apply list_elem_of_fmap. exists i. split; [done|].
    apply list_elem_of_filter. split; [congruence|done].
  - apply Forall_forall. intros sl [_ Hin]%list_elem_of_filter.
    rewrite Forall_forall in Hdec. by apply Hdec.
  - split_and!; [| |done].
    + apply Forall_forall. intros i [_ Hin]%list_elem_of_filter.
      rewrite Forall_forall in Hi. by apply Hi.
    + apply Forall_forall. intros sl [_ Hin]%list_elem_of_filter.
      rewrite Forall_forall in Hs. by apply Hs.
Qed.

Lemma constraints_insert_stock_levels now v db db' :
  constraints db → insert_stock_levels now v db = Some db' → constraints db'.
Proof.
  intros [Hpk Hcode Hslpk Hslitem Hfk Hst Hdec (Hi & Hs & Hl)]
    (row & Hp & Href & Hfree & ->)%insert_stock_levels_Some.
  apply stock_levels_proposed_Some in Hp
    as (Hid & _ & _ & _ & _ & _ & _ & Hc & Hb & Hd).
  split; simpl; try done.
  - rewrite fmap_app. apply NoDup_snoc_fresh; [|done].
    intros (i & Hix & Hin)%list_elem_of_fmap.
    rewrite Forall_forall in Hs. specialize (Hs _ Hin). lia.
  - rewrite omap_app. simpl. unfold item_id_free in Hfree.
    destruct (sl_item_id row) as [j|]; simpl in *; [|by rewrite app_nil_r].
    apply NoDup_snoc_fresh; [|done]. by rewrite elem_of_omap_Some.
  - apply Forall_app. split; [|by apply Forall_singleton].
    done.
  - apply Forall_app. split; [done|]. by apply Forall_singleton.
  - split_and!.
    + apply (Forall_impl _ _ _ Hi); simpl; lia.
    + apply Forall_app. split; [apply (Forall_impl _ _ _ Hs); simpl; lia|].
      apply Forall_singleton. lia.
    + apply (Forall_impl _ _ _ Hl); simpl; lia.
Qed.

Lemma upsert_stock_levels_Some now v db db' :
  upsert_stock_levels now v db = Some db' →
  ∃ row, stock_levels_proposed now (uuid_seed db) v = Some row
    ∧ ((∃ id, sl_item_id row = Some id
          ∧ Some id ∈ sl_item_id <$> stock_levels db
          ∧ db' = {| items := items db;
                     stock_levels :=
                       (λ old, if decide (sl_item_id old = Some id)
                               then stock_levels_set v old else old)
                         <$> stock_levels db;
                     sync_logs := sync_logs db; uuid_seed := uuid_seed db |})
       ∨ (item_id_free db (sl_item_id row)
          ∧ insert_stock_levels now v db = Some db')).
Proof.
  unfold upsert_stock_levels. intros Hu.
  destruct (stock_levels_proposed now (uuid_seed db) v) as [row|] eqn:Hp; [|done].
  exists row. split; [done|]. simpl in Hu.
  destruct (sl_item_id row) as [id|] eqn:Hid.
  - case_decide as Hconflict.
    + left. exists id. by simplify_eq.
    + right. by split.
  - right. by split.
Qed.

Lemma updated_fits {A} (P : A → Prop) dflt old (c : col A) :
  null_or P (inserted dflt c) → null_or P old → null_or P (updated old c).
Proof. by destruct c. Qed.

Lemma constraints_upsert_stock_levels now v db db' :
  constraints db → upsert_stock_levels now v db = Some db' → constraints db'.
Proof.
  intros Hdb (row & Hp & [(id & Hid & Hconflict & ->)|[_ Hins]])%upsert_stock_levels_Some;
    [|by eapply constraints_insert_stock_levels].
  destruct Hdb as [Hpk Hcode Hslpk Hslitem Hfk Hst Hdec (Hi & Hs & Hl)].
  apply stock_levels_proposed_Some in Hp
    as (_ & _ & Hc & Hb & Hd & _ & _ & Hcf & Hbf & Hdf).
  rewrite Hc in Hcf. rewrite Hb in Hbf. rewrite Hd in Hdf.
  set (f := λ old, if decide (sl_item_id old = Some id)
                   then stock_levels_set v old else old).
  assert (sl_id <$> (f <$> stock_levels db) = sl_id <$> stock_levels db) as Hids.
  { apply fmap_update_same. intros a. unfold f. by case_decide. }
  assert (∀ a, sl_item_id (f a) = sl_item_id a) as Hitem.
  { intros a. unfold f. by case_decide. }
  split; simpl; fold f; rewrite ?Hids; try done.
  - by rewrite omap_update_same.
  - apply Forall_fmap. apply (Forall_impl _ _ _ Hfk). intros sl. simpl.
    rewrite Hitem. by apply references_items_mono.
  - apply Forall_fmap. apply (Forall_impl _ _ _ Hdec). intros sl (?&?&?). simpl.
    unfold f. case_decide; [|done]. simpl.
    split_and!; eapply updated_fits; eassumption.
  - split_and!; [done| |done]. apply Forall_fmap.
    apply (Forall_impl _ _ _ Hs). intros a. simpl. unfold f. by case_decide.
Qed.

Lemma constraints_insert_sync_logs now v db db' :
  constraints db → insert_sync_logs now v db = Some db' → constraints db'.
Proof.
  intros [Hpk Hcode Hslpk Hslitem Hfk Hst Hdec (Hi & Hs & Hl)]
    (row & Hp & ->)%insert_sync_logs_Some.
  apply sync_logs_proposed_Some in Hp as (Hid & _ & Hcheck & _).
  split; simpl; try done.
  - apply Forall_app. split; [done|]. by apply Forall_singleton.
  - split_and!.
    + apply (Forall_impl _ _ _ Hi); simpl; lia.
    + apply (Forall_impl _ _ _ Hs); simpl; lia.
    + apply Forall_app. split; [apply (Forall_impl _ _ _ Hl); simpl; lia|].
      apply Forall_singleton. lia.
Qed.

Lemma constraints_execute now s db db' :
  constraints db → execute now s db = Some db' → constraints db'.
Proof.
  destruct s; simpl; intros Hdb Hs;
    eauto using constraints_insert_items, constraints_upsert_items,
      constraints_insert_stock_levels, constraints_upsert_stock_levels,
      constraints_insert_sync_logs.
  simplify_eq. by apply constraints_delete_items.
Qed.

Lemma reachable_constraints db : reachable db → constraints db.
Proof.
  induction 1 as [|now s db db' _ IH Hs];
    eauto using constraints_empty, constraints_execute.
Qed.

End SchemaFacts.

(** ** One publication *)

Module PublicationFacts.
Import Schema Engine Publication SchemaFacts.

(** *** The two upserts of the publisher, spelled out *)

Lemma items_proposed_item_values clock id code a :
  items_proposed clock id (item_values code a)
  = if decide (item_publishable code a) then Some (created_item clock id code a)
    else None.
Proof.
  unfold items_proposed, item_values. simpl.
  destruct (decide (item_publishable code a)) as [(?&?&?&?)|Hno].
  - by rewrite !option_guard_True.
  - repeat case_guard; try done. by destruct Hno.
Qed.

Lemma upsert_items_item_values clock code a db :
  upsert_items clock (item_values code a) db
  = if decide (item_publishable code a) then
      Some (if decide (code ∈ i_item_code <$> items db) then
              {| items := refresh_items clock code a (items db);
                 stock_levels := stock_levels db;
                 sync_logs := sync_logs db; uuid_seed := uuid_seed db |}
            else
              {| items := items db ++ [created_item clock (uuid_seed db) code a];
                 stock_levels := stock_levels db;
                 sync_logs := sync_logs db; uuid_seed := S (uuid_seed db) |})
    else None.
Proof.
  unfold upsert_items, insert_items. rewrite items_proposed_item_values.
  destruct (decide (item_publishable code a)); [|done]. simpl.
  destruct (decide (code ∈ i_item_code <$> items db)); [done|].
  by rewrite option_guard_True.
Qed.

Lemma stock_levels_proposed_stock_level_values clock id meta item_id l :
  stock_levels_proposed clock id (stock_level_values meta item_id l)
  = if decide (level_publishable l) then Some (level_row id item_id meta l)
    else None.
Proof.
  unfold stock_levels_proposed, stock_level_values. simpl.
  destruct (decide (level_publishable l)) as [(?&?&?)|Hno].
  - by rewrite !option_guard_True.
  - repeat case_guard; try done. by destruct Hno.
Qed.

Lemma upsert_stock_levels_stock_level_values clock meta item_id l db :
  item_id ∈ i_id <$> items db →
  upsert_stock_levels clock (stock_level_values meta item_id l) db
  = if decide (level_publishable l) then
      Some (if decide (Some item_id ∈ sl_item_id <$> stock_levels db) then
              {| items := items db;
                 stock_levels := refresh_levels item_id meta l (stock_levels db);
                 sync_logs := sync_logs db; uuid_seed := uuid_seed db |}
            else
              {| items := items db;
                 stock_levels := stock_levels db ++ [level_row (uuid_seed db) item_id meta l];
                 sync_logs := sync_logs db; uuid_seed := S (uuid_seed db) |})
    else None.
Proof.
  intros Hin.
  unfold upsert_stock_levels, insert_stock_levels.
  rewrite stock_levels_proposed_stock_level_values.
  destruct (decide (level_publishable l)); [|done]. simpl.
  destruct (decide (Some item_id ∈ sl_item_id <$> stock_levels db)).
  - do 2 f_equal. apply list_fmap_ext. intros _ old _.
    case_decide as Hold; [|done].
    unfold stock_levels_set, level_row. simpl. by rewrite Hold.
  - by rewrite !option_guard_True.
Qed.

(** *** One item published, spelled out *)

Lemma item_id_of_Some db code id :
  item_id_of db code = Some id →
  ∃ i, i ∈ items db ∧ i_item_code i = code ∧ i_id i = id.
Proof.
  unfold item_id_of. intros Hid.
  destruct (filter _ (items db)) as [|i rest] eqn:Hf; [done|].
  simpl in Hid. simplify_eq. exists i.
  assert (i ∈ filter (λ i, i_item_code i = code) (items db)) as Hin.
  { rewrite Hf. apply list_elem_of_here. }
  apply list_elem_of_filter in Hin as [??]. done.
Qed.

Lemma item_id_of_None db code :
  item_id_of db code = None ↔ code ∉ i_item_code <$> items db.
Proof.
  unfold item_id_of. split.
  - intros Hid (i & -> & Hin)%list_elem_of_fmap.
    destruct (filter _ (items db)) as [|j rest] eqn:Hf; [|done].
    assert (i ∈ filter (λ j, i_item_code j = i_item_code i) (items db)) as Hi.
    { by apply list_elem_of_filter. }
    rewrite Hf in Hi. by apply not_elem_of_nil in Hi.
  - intros Hno. destruct (filter _ (items db)) as [|j rest] eqn:Hf; [done|].
    exfalso. apply Hno.
    assert (j ∈ filter (λ i, i_item_code i = code) (items db)) as Hin.
    { rewrite Hf. apply list_elem_of_here. }
    apply list_elem_of_filter in Hin as [<- ?]. by apply list_elem_of_fmap_2.
Qed.

Lemma item_id_of_is_Some db code :
  code ∈ i_item_code <$> items db → is_Some (item_id_of db code).
Proof.
  intros Hin. destruct (item_id_of db code) eqn:Hid; [done|].
  by apply item_id_of_None in Hid.
Qed.

(** The item a code names is found again after any update that keeps the
    codes and the ids. *)
Lemma head_filter_fmap_update (code : string) (f : items_row → items_row)
    (l : list items_row) :
  (∀ i, i_item_code (f i) = i_item_code i) → (∀ i, i_id (f i) = i_id i) →
  i_id <$> head (filter (λ i, i_item_code i = code) (f <$> l))
  = i_id <$> head (filter (λ i, i_item_code i = code) l).
Proof.
  intros Hcode Hid. induction l as [|i l IH]; [done|].
  rewrite fmap_cons, !filter_cons. rewrite Hcode.
  case_decide; [|done]. simpl. by rewrite Hid.
Qed.

Lemma item_id_of_upserted_item clock code a db :
  item_id_of (upserted_item clock code a db) code = Some (storage_id db code).
Proof.
  unfold upserted_item, storage_id. case_decide as Hin.
  - unfold item_id_of at 1. simpl. unfold refresh_items.
    rewrite head_filter_fmap_update; [| |]; [|intros; by case_decide..].
    fold (item_id_of db code).
    by destruct (item_id_of_is_Some _ _ Hin) as [id ->].
  - pose proof Hin as Hnone. apply item_id_of_None in Hnone. rewrite Hnone. simpl.
    unfold item_id_of in *. simpl. rewrite filter_app.
    destruct (filter _ (items db)) as [|j rest]; [|done]. simpl.
    rewrite filter_cons. simpl. by rewrite decide_True.
Qed.

Lemma item_id_of_upserted_item_ne clock code a db code' :
  code' ≠ code →
  item_id_of (upserted_item clock code a db) code' = item_id_of db code'.
Proof.
  intros Hne. unfold upserted_item. case_decide as Hin.
  - unfold item_id_of. simpl. unfold refresh_items.
    apply head_filter_fmap_update; intros; by case_decide.
  - unfold item_id_of. simpl. rewrite filter_app, filter_cons. simpl.
    rewrite decide_False by done. by rewrite filter_nil, app_nil_r.
Qed.

Lemma storage_id_upserted_item clock code a db :
  storage_id db code ∈ i_id <$> items (upserted_item clock code a db).
Proof.
  pose proof (item_id_of_upserted_item clock code a db) as Hid.
  apply item_id_of_Some in Hid as (i & Hin & _ & <-). by apply list_elem_of_fmap_2.
Qed.

Lemma publish_item_eq clock meta code a l db :
  publish_item clock meta code a l db
  = if decide (item_publishable code a ∧ level_publishable l)
    then Some (published_item clock meta code a l db) else None.
Proof.
  unfold publish_item. rewrite upsert_items_item_values.
  fold (upserted_item clock code a db).
  destruct (decide (item_publishable code a)) as [Hi|Hi]; simpl.
  - rewrite item_id_of_upserted_item. simpl.
    rewrite upsert_stock_levels_stock_level_values
      by apply storage_id_upserted_item.
    fold (upserted_level meta (storage_id db code) l (upserted_item clock code a db)).
    destruct (decide (level_publishable l)) as [Hl|Hl].
    + by rewrite decide_True.
    + rewrite decide_False; [done|]. by intros [??].
  - rewrite decide_False; [done|]. by intros [??].
Qed.

Lemma constraints_published_item clock meta code a l db :
  constraints db → item_publishable code a → level_publishable l →
  constraints (published_item clock meta code a l db).
Proof.
  intros Hdb Hi Hl.
  pose proof (publish_item_eq clock meta code a l db) as Heq.
  rewrite decide_True in Heq by done.
  unfold publish_item in Heq.
  destruct (upsert_items clock (item_values code a) db) as [db1|] eqn:H1; [|done].
  simpl in Heq. destruct (item_id_of db1 code) as [id|]; [|done]. simpl in Heq.
  eapply constraints_upsert_stock_levels; [|exact Heq].
  by eapply constraints_upsert_items.
Qed.

(** *** A publication, spelled out *)

Lemma publish_entries_eq clock meta es db n :
  publish_entries clock meta es db n
  = {| pub_database := foldl (step clock meta) db (committed es);
       itemsProcessed := n + length (committed es);
       PublishError := bool_decide (length (committed es) ≠ length es) |}.
Proof.
  revert db n. induction es as [|[code [a l]] es IH]; intros db n; simpl.
  - f_equal. lia.
  - rewrite publish_item_eq. unfold publishable. simpl.
    destruct (decide (item_publishable code a ∧ level_publishable l)) as [Hp|Hp].
    + rewrite IH. simpl. f_equal; [lia|]. apply bool_decide_ext. lia.
    + simpl. f_equal. lia.
Qed.

Lemma committed_publishable es : Forall publishable (committed es).
Proof.
  induction es as [|e es IH]; simpl; [done|]. case_decide; [|done].
  by constructor.
Qed.


Lemma constraints_step clock meta db e :
  constraints db → publishable e → constraints (step clock meta db e).
Proof. intros ? [??]. by apply constraints_published_item. Qed.

Lemma constraints_foldl_step clock meta es db :
  constraints db → Forall publishable es →
  constraints (foldl (step clock meta) db es).
Proof.
  revert db. induction es as [|e es IH]; intros db Hdb Hes; simpl; [done|].
  apply Forall_cons in Hes as [??]. apply IH; [|done]. by apply constraints_step.
Qed.

(** *** What the store holds of an entry *)




Lemma item_id_of_items db db' code :
  items db = items db' → item_id_of db code = item_id_of db' code.
Proof. unfold item_id_of. by intros ->. Qed.

Lemma items_upserted_level meta id l db :
  items (upserted_level meta id l db) = items db.
Proof. unfold upserted_level. by case_decide. Qed.

Lemma stock_levels_upserted_item clock code a db :
  stock_levels (upserted_item clock code a db) = stock_levels db.
Proof. unfold upserted_item. by case_decide. Qed.

Lemma NoDup_fmap_eq {A B} (f : A → B) (l : list A) x y :
  NoDup (f <$> l) → x ∈ l → y ∈ l → f x = f y → x = y.
Proof.
  induction l as [|z l IH]; [by intros _ ?%not_elem_of_nil|].
  rewrite fmap_cons. intros [Hz Hl]%NoDup_cons.
  intros [->|Hx]%elem_of_cons [->|Hy]%elem_of_cons Heq; [done| | |by apply IH].
  - destruct Hz. rewrite Heq. by apply list_elem_of_fmap_2.
  - destruct Hz. rewrite <-Heq. by apply list_elem_of_fmap_2.
Qed.

Lemma storage_id_Some db code id :
  item_id_of db code = Some id → storage_id db code = id.
Proof. unfold storage_id. by intros ->. Qed.

(** What was published is held. *)
Lemma held_step clock meta db e :
  held (λ u, u = Some clock) meta (step clock meta db e) e.
Proof.
  destruct e as [code [a l]]. unfold held, step, published_item. simpl.
  assert (item_id_of (upserted_level meta (storage_id db code) l
                        (upserted_item clock code a db)) code
          = Some (storage_id db code)) as Hid.
  { rewrite <-(item_id_of_upserted_item clock code a db).
    apply item_id_of_items, items_upserted_level. }
  split.
  - split.
    + apply item_id_of_Some in Hid as (i & Hin & <- & _). by apply list_elem_of_fmap_2.
    + intros i. rewrite items_upserted_level. unfold upserted_item.
      case_decide as Hin; simpl.
      * unfold refresh_items. intros (old & -> & Hold)%list_elem_of_fmap.
        case_decide; [done|]. done.
      * intros [Hi| ->%list_elem_of_singleton]%elem_of_app Hcode; [|done].
        destruct Hin. rewrite <-Hcode. by apply list_elem_of_fmap_2.
  - rewrite (storage_id_Some _ _ _ Hid).
    set (id := storage_id db code). unfold level_held, upserted_level.
    rewrite stock_levels_upserted_item.
    case_decide as Hin; simpl.
    + split.
      * unfold refresh_levels. rewrite <-list_fmap_compose.
        apply list_elem_of_fmap in Hin as (old & Hold & Hin).
        apply list_elem_of_fmap. exists old. split; [|done]. simpl.
        case_decide; [done|congruence].
      * unfold refresh_levels. intros sl (old & -> & Hold)%list_elem_of_fmap.
        case_decide; [done|]. done.
    + split.
      * rewrite fmap_app. apply elem_of_app. right. simpl. apply list_elem_of_here.
      * intros sl [Hsl| ->%list_elem_of_singleton]%elem_of_app Hsid; [|done].
        destruct Hin. rewrite <-Hsid. by apply list_elem_of_fmap_2.
Qed.

(** The storage ids of two codes differ. *)
Lemma storage_id_ne db code code' :
  constraints db → code ∈ i_item_code <$> items db → code' ≠ code →
  storage_id db code' ≠ storage_id db code.
Proof.
  intros Hdb Hin Hne. unfold storage_id.
  destruct (item_id_of_is_Some _ _ Hin) as [id Hid]. rewrite Hid. simpl.
  apply item_id_of_Some in Hid as (i & Hi & Hicode & <-).
  destruct (item_id_of db code') as [id'|] eqn:Hid'; simpl.
  - apply item_id_of_Some in Hid' as (i' & Hi' & Hicode' & <-).
    intros Heq. apply Hne. rewrite <-Hicode, <-Hicode'. f_equal.
    eapply NoDup_fmap_eq; [apply (items_pkey _ Hdb)|done..].
  - destruct (uuid_seed_fresh _ Hdb) as (Hfresh & _).
    rewrite Forall_forall in Hfresh. specialize (Hfresh _ Hi). lia.
Qed.

(** Publishing another code leaves what is held of a code alone. *)
Lemma held_step_ne T clock meta db e e' :
  constraints db → held T meta db e → e'.1 ≠ e.1 →
  held T meta (step clock meta db e') e.
Proof.
  destruct e as [code [a l]], e' as [code' [a' l']].
  unfold held, step, published_item. simpl.
  intros Hdb [[Hin Hitem] [Hlin Hlevel]] Hne.
  assert (item_id_of (upserted_level meta (storage_id db code') l'
                        (upserted_item clock code' a' db)) code
          = item_id_of db code) as Hid.
  { erewrite item_id_of_items by apply items_upserted_level.
    apply item_id_of_upserted_item_ne. congruence. }
  assert (storage_id (upserted_level meta (storage_id db code') l'
                        (upserted_item clock code' a' db)) code
          = storage_id db code) as Hsid.
  { destruct (item_id_of_is_Some _ _ Hin) as [id Hid'].
    rewrite (storage_id_Some _ _ _ Hid'). apply storage_id_Some. congruence. }
  pose proof (storage_id_ne db code code' Hdb Hin Hne) as Hidne.
  split.
  - split.
    + rewrite items_upserted_level. unfold upserted_item. case_decide; simpl.
      * unfold refresh_items. rewrite <-list_fmap_compose.
        apply list_elem_of_fmap in Hin as (old & Hold & Hin).
        apply list_elem_of_fmap. exists old. split; [|done]. simpl.
        by case_decide.
      * rewrite fmap_app. apply elem_of_app. by left.
    + intros i. rewrite items_upserted_level. unfold upserted_item.
      case_decide; simpl.
      * unfold refresh_items. intros (old & -> & Hold)%list_elem_of_fmap.
        case_decide; [simpl; congruence|]. by apply Hitem.
      * intros [Hi| ->%list_elem_of_singleton]%elem_of_app; [by apply Hitem|].
        simpl. congruence.
  - rewrite Hsid. set (id := storage_id db code) in *.
    set (id' := storage_id db code') in *.
    unfold level_held, upserted_level. rewrite stock_levels_upserted_item.
    case_decide; simpl.
    + split.
      * unfold refresh_levels. rewrite <-list_fmap_compose.
        apply list_elem_of_fmap in Hlin as (old & Hold & Hlin).
        apply list_elem_of_fmap. exists old. split; [|done]. simpl.
        case_decide; [congruence|done].
      * unfold refresh_levels. intros sl (old & -> & Hold)%list_elem_of_fmap.
        case_decide; [simpl; congruence|]. by apply Hlevel.
    + split.
      * rewrite fmap_app. apply elem_of_app. by left.
      * intros sl [Hsl| ->%list_elem_of_singleton]%elem_of_app; [by apply Hlevel|].
        simpl. congruence.
Qed.




(** *** A whole publication *)

Lemma held_foldl_step_ne T clock meta es db e :
  constraints db → Forall publishable es → held T meta db e → e.1 ∉ es.*1 →
  held T meta (foldl (step clock meta) db es) e.
Proof.
  revert db. induction es as [|e' es IH]; intros db Hdb Hes Hheld Hnotin; [done|].
  apply Forall_cons in Hes as [He' Hes]. rewrite fmap_cons in Hnotin.
  apply not_elem_of_cons in Hnotin as [Hne Hnotin]. simpl.
  apply IH; [by apply constraints_step|done| |done].
  apply held_step_ne; [done..|congruence].
Qed.

(** Every committed entry is held when the publication ends. *)
Lemma held_foldl_step clock meta es db e :
  constraints db → NoDup es.*1 → Forall publishable es → e ∈ es →
  held (λ u, u = Some clock) meta (foldl (step clock meta) db es) e.
Proof.
  revert db. induction es as [|e' es IH]; intros db Hdb Hnd Hes Hin;
    [by apply not_elem_of_nil in Hin|].
  apply Forall_cons in Hes as [He' Hes]. rewrite fmap_cons in Hnd.
  apply NoDup_cons in Hnd as [Hnotin Hnd]. simpl.
  apply elem_of_cons in Hin as [->|Hin].
  - apply held_foldl_step_ne; [by apply constraints_step|done| |done].
    apply held_step.
  - apply IH; [by apply constraints_step|done..].
Qed.



End PublicationFacts.

(** ** The view and the function *)

Module ViewFacts.
Import Schema SchemaFacts.

Lemma elem_of_ORDER_BY {A} collate_le (key : A → string) (l : list A) x :
  x ∈ ORDER_BY collate_le key l ↔ x ∈ l.
Proof. unfold ORDER_BY. by rewrite merge_sort_Permutation. Qed.

Lemma elem_of_left_join_stock_levels sls i j :
  j ∈ left_join_stock_levels sls i ↔
  j.1 = i ∧ match j.2 with
            | Some sl => sl ∈ sls ∧ sl_item_id sl = Some (i_id i)
            | None => ∀ sl, sl ∈ sls → sl_item_id sl ≠ Some (i_id i)
            end.
Proof.
  unfold left_join_stock_levels. destruct j as [i' osl]. simpl.
  assert (∀ sl, sl ∈ filter (λ sl, sl_item_id sl = Some (i_id i)) sls
                ↔ sl_item_id sl = Some (i_id i) ∧ sl ∈ sls) as Hfil
    by (intros sl'; by rewrite list_elem_of_filter).
  destruct (filter _ sls) as [|m ms].
  - rewrite list_elem_of_singleton. split.
    + intros [= -> ->]. split; [done|]. intros sl Hsl Hid.
      eapply not_elem_of_nil, Hfil. done.
    + intros [-> Hosl]. destruct osl as [sl|]; [|done].
      destruct Hosl as [Hsl Hid]. exfalso. eapply not_elem_of_nil, Hfil. done.
  - change ((i', osl) ∈ (λ sl, (i, Some sl)) <$> (m :: ms) ↔
            i' = i ∧ match osl with
                     | Some sl => sl ∈ sls ∧ sl_item_id sl = Some (i_id i)
                     | None => ∀ sl, sl ∈ sls → sl_item_id sl ≠ Some (i_id i)
                     end).
    rewrite list_elem_of_fmap. split.
    + intros (sl & [= -> ->] & [Hid Hsl]%Hfil). done.
    + intros [-> Hosl]. destruct osl as [sl|].
      * exists sl. split; [done|]. apply Hfil. by destruct Hosl.
      * exfalso. destruct (Hfil m) as [[Hid Hm] _]; [apply list_elem_of_here|].
        by eapply Hosl.
Qed.

Lemma elem_of_inventory_view collate_le db r :
  r ∈ inventory_view collate_le db ↔
  ∃ i osl, i ∈ items db
    ∧ match osl with
      | Some sl => sl ∈ stock_levels db ∧ sl_item_id sl = Some (i_id i)
      | None => ∀ sl, sl ∈ stock_levels db → sl_item_id sl ≠ Some (i_id i)
      end
    ∧ r = inventory_view_select (i, osl).
Proof.
  unfold inventory_view. rewrite elem_of_ORDER_BY, list_elem_of_fmap. split.
  - intros ([i osl] & -> & (i' & Hj & Hi')%list_elem_of_bind).
    apply elem_of_left_join_stock_levels in Hj as [Heq Hosl]. simpl in *. subst i'.
    by exists i, osl.
  - intros (i & osl & Hi & Hosl & ->). exists (i, osl). split; [done|].
    apply list_elem_of_bind. exists i. split; [|done].
    by apply elem_of_left_join_stock_levels.
Qed.

(** [ORDER BY] sorts, as far as the collation compares any two names. *)
Lemma Sorted_ORDER_BY {A} (collate_le : string → string → bool) (key : A → string)
    (l : list A) :
  (∀ a b, collate_le a b ∨ collate_le b a) →
  Sorted (λ a b, collate_le (key a) (key b)) (ORDER_BY collate_le key l).
Proof.
  intros Htotal. unfold ORDER_BY. apply Sorted_merge_sort.
  intros a b. apply Htotal.
Qed.

(** *** [get_latest_sync_timestamp] *)

Lemma MAX_None l : MAX l = None ↔ ∀ t, Some t ∉ l.
Proof.
  induction l as [|[a|] l IH]; simpl.
  - split; [|done]. intros _ t. apply not_elem_of_nil.
  - split.
    + by destruct (MAX l).
    + intros Hno. destruct (Hno a). apply list_elem_of_here.
  - rewrite IH. split.
    + intros Hno t [?|?]%elem_of_cons; [done|]. by eapply Hno.
    + intros Hno t Hin. eapply Hno, list_elem_of_further, Hin.
Qed.

Lemma MAX_Some l t :
  MAX l = Some t ↔ Some t ∈ l ∧ ∀ t', Some t' ∈ l → (t' ≤ t)%Z.
Proof.
  revert t. induction l as [|[a|] l IH]; intros t; simpl.
  - split; [done|]. by intros [?%not_elem_of_nil _].
  - destruct (MAX l) as [b|] eqn:Hmax.
    + destruct (IH b) as [[Hb Hle] _]; [done|]. split.
      * intros [= <-]. split.
        -- destruct (Z.max_spec a b) as [[_ ->]|[_ ->]];
             [by apply list_elem_of_further|apply list_elem_of_here].
        -- intros t' [[= ->]|Hin]%elem_of_cons; [lia|].
           specialize (Hle _ Hin). lia.
      * intros [Hin Hmaxi]. f_equal.
        assert (a ≤ t)%Z by apply Hmaxi, list_elem_of_here.
        assert (b ≤ t)%Z by by apply Hmaxi, list_elem_of_further.
        apply elem_of_cons in Hin as [[= ->]|Hin]; [lia|].
        specialize (Hle _ Hin). lia.
    + pose proof (proj1 (MAX_None l) Hmax) as Hno. split.
      * intros [= <-]. split; [apply list_elem_of_here|].
        intros t' [[= ->]|Hin]%elem_of_cons; [lia|]. by apply Hno in Hin.
      * intros [[[= ->]|Hin]%elem_of_cons _]; [done|]. by apply Hno in Hin.
  - rewrite IH. split.
    + intros [Hin Hle]. split; [by apply list_elem_of_further|].
      intros t' [?|?]%elem_of_cons; [done|]. by apply Hle.
    + intros [[?|Hin]%elem_of_cons Hle]; [done|]. split; [done|].
      intros t' Hin'. by apply Hle, list_elem_of_further.
Qed.

Lemma get_latest_sync_timestamp_Some db t :
  get_latest_sync_timestamp db = Some t ↔
  (∃ sl, sl ∈ stock_levels db ∧ sl_sync_source sl = Some "tally_sync"
         ∧ sl_last_sync sl = Some t)
  ∧ (∀ sl t', sl ∈ stock_levels db → sl_sync_source sl = Some "tally_sync" →
       sl_last_sync sl = Some t' → (t' ≤ t)%Z).
Proof.
  unfold get_latest_sync_timestamp. rewrite MAX_Some. split.
  - intros [(sl & Ht & [Hsrc Hsl]%list_elem_of_filter)%list_elem_of_fmap Hle].
    split; [by exists sl|]. intros sl' t' Hsl' Hsrc' Ht'. apply Hle.
    apply list_elem_of_fmap. exists sl'. split; [done|]. by apply list_elem_of_filter.
  - intros [(sl & Hsl & Hsrc & Ht) Hle]. split.
    + apply list_elem_of_fmap. exists sl. split; [done|]. by apply list_elem_of_filter.
    + intros t' (sl' & Ht' & [Hsrc' Hsl']%list_elem_of_filter)%list_elem_of_fmap.
      by eapply Hle.
Qed.

Lemma get_latest_sync_timestamp_None db :
  get_latest_sync_timestamp db = None ↔
  ∀ sl, sl ∈ stock_levels db → sl_sync_source sl = Some "tally_sync" →
        sl_last_sync sl = None.
Proof.
  unfold get_latest_sync_timestamp. rewrite MAX_None. split.
  - intros Hno sl Hsl Hsrc. destruct (sl_last_sync sl) as [t|] eqn:Ht; [|done].
    destruct (Hno t). apply list_elem_of_fmap. exists sl. split; [done|].
    by apply list_elem_of_filter.
  - intros Hnone t (sl & Ht & [Hsrc Hsl]%list_elem_of_filter)%list_elem_of_fmap.
    rewrite (Hnone sl Hsl Hsrc) in Ht. done.
Qed.

(** *** Row level security *)

Lemma selectable_anon {A} (rows : list A) : selectable anon rows = [].
Proof.
  unfold selectable. induction rows as [|x rows IH]; [done|].
  rewrite filter_cons_False; [done|].
  unfold allow_read_access_for_authenticated_users,
    allow_full_access_for_service_role. by intros [|].
Qed.

Lemma selectable_admitted {A} r (rows : list A) :
  r ≠ anon → selectable r rows = rows.
Proof.
  intros Hr. unfold selectable. induction rows as [|x rows IH]; [done|].
  rewrite filter_cons_True, IH; [done|].
  unfold allow_read_access_for_authenticated_users,
    allow_full_access_for_service_role. destruct r; auto. done.
Qed.

Lemma get_latest_sync_timestamp_as_anon db :
  get_latest_sync_timestamp_as anon db = None.
Proof.
  unfold get_latest_sync_timestamp_as, get_latest_sync_timestamp. simpl.
  by rewrite selectable_anon.
Qed.

Lemma get_latest_sync_timestamp_as_admitted r db :
  r ≠ anon → get_latest_sync_timestamp_as r db = get_latest_sync_timestamp db.
Proof.
  intros Hr. unfold get_latest_sync_timestamp_as, get_latest_sync_timestamp. simpl.
  by rewrite selectable_admitted.
Qed.

End ViewFacts.

(** ** The client *)

Module ClientFacts.
Import Client.

Local Open Scope Z_scope.

(** *** Numbers *)

Lemma round_half_even_near n d :
  0 < d → 2 * Z.abs (d * round_half_even n d - n) ≤ d.
Proof.
  intros Hd. unfold round_half_even.
  pose proof (Z.div_mod n d ltac:(lia)) as Hdiv.
  pose proof (Z.mod_pos_bound n d Hd) as Hmod.
  repeat case_match; rewrite ?Z.ltb_lt, ?Z.ltb_ge in *; lia.
Qed.

Lemma round_half_even_mono_bounds n d lo hi :
  0 < d → d * lo ≤ n ≤ d * hi → lo ≤ round_half_even n d ≤ hi.
Proof.
  intros Hd [Hlo Hhi]. unfold round_half_even.
  pose proof (Z.div_mod n d ltac:(lia)) as Hdiv.
  pose proof (Z.mod_pos_bound n d Hd) as Hmod.
  assert (lo ≤ n `div` d) by (apply Z.div_le_lower_bound; lia).
  assert (n `div` d ≤ hi) by (apply Z.div_le_upper_bound; lia).
  assert (n `div` d = hi → n `mod` d = 0) by nia.
  repeat case_match; rewrite ?Z.ltb_lt, ?Z.ltb_ge in *; lia.
Qed.

(** The number read for a non-zero decimal of the column: a normal number,
    with a negative exponent, within half a unit of its last place. *)
Lemma number_of_decimal_normal d :
  decimal_fits d → d ≠ 0 →
  ∃ m s, 11 ≤ s ≤ 62 ∧ 2 ^ 52 ≤ m < 2 ^ 53
    ∧ number_of_decimal d = {| mantissa := Z.sgn d * m; exponent := - s |}
    ∧ 2 * Z.abs (1000 * m - Z.abs d * 2 ^ s) ≤ 1000.
Proof.
  unfold decimal_fits, number_of_decimal. intros Hfits Hd.
  rewrite (proj2 (Z.eqb_neq d 0)) by done.
  set (a := Z.abs d) in *. assert (0 < a) as Ha by (unfold a; lia).
  set (L := Z.log2 a).
  assert (0 ≤ L) as HL0 by apply Z.log2_nonneg.
  destruct (Z.log2_spec a Ha) as [HLlo HLhi]. fold L in HLlo, HLhi.
  assert (L < 50) as HL50 by (apply Z.log2_lt_pow2; lia).
  assert (2 ^ Z.succ L = 2 * 2 ^ L) as Hsucc by (apply Z.pow_succ_r; lia).
  assert (2 ^ L * 2 ^ (61 - L) = 2 ^ 61) as Hsplit.
  { rewrite <-Z.pow_add_r by lia. f_equal. lia. }
  assert (2 ^ (62 - L) = 2 * 2 ^ (61 - L)) as Hdouble.
  { replace (62 - L) with (Z.succ (61 - L)) by lia. apply Z.pow_succ_r. lia. }
  assert (0 < 2 ^ (61 - L)) as Hpos by (apply Z.pow_pos_nonneg; lia).
  replace (- (L - 62)) with (62 - L) by lia.
  set (Q := 2 ^ (61 - L)) in *. set (PL := 2 ^ L) in *.
  destruct (a * 2 ^ (62 - L) <? 1000 * 2 ^ 53) eqn:Hcmp.
  - apply Z.ltb_lt in Hcmp.
    replace (- (L - 62)) with (62 - L) by lia.
    set (N := a * 2 ^ (62 - L)) in *.
    assert (1000 * 2 ^ 52 ≤ N ≤ 1000 * 2 ^ 53) as HN by (unfold N; nia).
    pose proof (round_half_even_mono_bounds N 1000 _ _ ltac:(lia) HN) as Hm.
    pose proof (round_half_even_near N 1000 ltac:(lia)) as Hnear.
    set (m := round_half_even N 1000) in *.
    destruct (m =? 2 ^ 53) eqn:Hm53.
    + apply Z.eqb_eq in Hm53. exists (2 ^ 52), (61 - L).
      assert (2 * Z.abs (1000 * 2 ^ 52 - a * 2 ^ (61 - L)) ≤ 1000).
      { fold Q. unfold N in Hnear. rewrite Hdouble in Hnear. fold Q in Hnear. lia. }
      split_and!; try lia. f_equal. lia.
    + apply Z.eqb_neq in Hm53. exists m, (62 - L).
      assert (2 * Z.abs (1000 * m - a * 2 ^ (62 - L)) ≤ 1000) by (fold N; lia).
      split_and!; try lia. f_equal. lia.
  - apply Z.ltb_ge in Hcmp.
    replace (- (L - 62 + 1)) with (61 - L) by lia. fold Q.
    set (N := a * Q) in *.
    assert (1000 * 2 ^ 52 ≤ N ≤ 1000 * 2 ^ 53) as HN by (unfold N; nia).
    pose proof (round_half_even_mono_bounds N 1000 _ _ ltac:(lia) HN) as Hm.
    pose proof (round_half_even_near N 1000 ltac:(lia)) as Hnear.
    set (m := round_half_even N 1000) in *.
    assert (2 ^ (60 - L) * 2 = Q) as Hhalf.
    { unfold Q. replace (61 - L) with (Z.succ (60 - L)) by lia.
      rewrite Z.pow_succ_r by lia. lia. }
    destruct (m =? 2 ^ 53) eqn:Hm53.
    + apply Z.eqb_eq in Hm53. exists (2 ^ 52), (60 - L).
      assert (2 * Z.abs (1000 * 2 ^ 52 - a * 2 ^ (60 - L)) ≤ 1000).
      { unfold N in Hnear. rewrite <-Hhalf in Hnear. lia. }
      split_and!; try lia. f_equal. lia.
    + apply Z.eqb_neq in Hm53. exists m, (61 - L).
      assert (2 * Z.abs (1000 * m - a * 2 ^ (61 - L)) ≤ 1000) by (fold Q; fold N; lia).
      split_and!; try lia. f_equal. lia.
Qed.









Local Close Scope Z_scope.

(** *** The hook *)

Lemma fetchItems_sent be st r :
  r ∈ (fetchItems be st).2 →
  r = from_select_order "inventory_view" "*" "item_name"
  ∨ r = rpc "get_latest_sync_timestamp".
Proof.
  unfold fetchItems. destruct (error _); simpl.
  - intros ->%list_elem_of_singleton. by left.
  - intros [-> | ->%list_elem_of_singleton]%elem_of_cons; [by left|by right].
Qed.

Lemma fetchItems_items be st :
  select_failure be = None →
  items (fetchItems be st).1
  = InventoryItem_of_row <$>
      Schema.ORDER_BY (collate_le be) Schema.v_item_name
        (Schema.inventory_view (collate_le be) (database be)).
Proof.
  intros Hok. unfold fetchItems, from_inventory_view_select_order_item_name.
  by rewrite Hok.
Qed.

Lemma fetchItems_lastSync be st :
  select_failure be = None → rpc_failure be = None →
  lastSync (fetchItems be st).1
  = match Schema.get_latest_sync_timestamp_as (auth_role be) (database be) with
    | Some t => Some (new_Date t)
    | None => lastSync st
    end.
Proof.
  intros Hselect Hrpc.
  unfold fetchItems, from_inventory_view_select_order_item_name,
    rpc_get_latest_sync_timestamp.
  rewrite Hselect, Hrpc. simpl.
  by destruct (Schema.get_latest_sync_timestamp_as _ (database be)).
Qed.

Lemma useEffect_sent be r :
  r ∈ (useEffect be).2 →
  r = from_select_order "inventory_view" "*" "item_name"
  ∨ r = rpc "get_latest_sync_timestamp"
  ∨ r = channel_on_postgres_changes "*" "public" "stock_levels".
Proof.
  unfold useEffect.
  pose proof (fetchItems_sent be useInventory_initial r) as Hsent.
  destruct (fetchItems be useInventory_initial) as [st sent]. simpl in *.
  intros [Hr| ->%list_elem_of_singleton]%elem_of_app; [|by right; right].
  destruct (Hsent Hr) as [-> | ->]; [by left|by right; left].
Qed.

Lemma session_sent be bes r :
  r ∈ (session be bes).2 →
  r = from_select_order "inventory_view" "*" "item_name"
  ∨ r = rpc "get_latest_sync_timestamp"
  ∨ r = channel_on_postgres_changes "*" "public" "stock_levels".
Proof.
  unfold session.
  assert (∀ acc : useInventory * list request,
    (∀ r, r ∈ acc.2 →
       r = from_select_order "inventory_view" "*" "item_name"
       ∨ r = rpc "get_latest_sync_timestamp"
       ∨ r = channel_on_postgres_changes "*" "public" "stock_levels") →
    ∀ r, r ∈ (foldl (λ acc be', let '(st, sent) := fetchItems be' acc.1 in
                                (st, acc.2 ++ sent)) acc bes).2 →
       r = from_select_order "inventory_view" "*" "item_name"
       ∨ r = rpc "get_latest_sync_timestamp"
       ∨ r = channel_on_postgres_changes "*" "public" "stock_levels") as Hfold.
  { induction bes as [|be' bes IH]; intros acc Hacc; [done|]. simpl.
    apply IH. intros r'.
    pose proof (fetchItems_sent be' acc.1 r') as Hsent.
    destruct (fetchItems be' acc.1) as [st sent]. simpl in *.
    intros [?|Hr']%elem_of_app; [by apply Hacc|].
    destruct (Hsent Hr') as [-> | ->]; [by left|by right; left]. }
  apply Hfold. apply useEffect_sent.
Qed.

(** With the anon key no fetch sets the last sync. *)
Lemma fetchItems_lastSync_anon be st :
  auth_role be = Schema.anon → lastSync (fetchItems be st).1 = lastSync st.
Proof.
  intros Hrole. unfold fetchItems.
  destruct (error (from_inventory_view_select_order_item_name be)); [done|].
  unfold rpc_get_latest_sync_timestamp.
  destruct (rpc_failure be); [done|]. simpl.
  by rewrite Hrole, ViewFacts.get_latest_sync_timestamp_as_anon.
Qed.

Lemma session_lastSync_anon be bes :
  auth_role be = Schema.anon → Forall (λ be, auth_role be = Schema.anon) bes →
  lastSync (session be bes).1 = None.
Proof.
  intros Hbe Hbes. unfold session.
  assert (lastSync (useEffect be).1 = None) as Hfirst.
  { unfold useEffect.
    pose proof (fetchItems_lastSync_anon be useInventory_initial Hbe) as Hlast.
    by destruct (fetchItems be useInventory_initial). }
  revert Hfirst. generalize (useEffect be).
  induction Hbes as [|be' bes Hbe' _ IH]; intros acc Hacc; [done|].
  simpl. apply IH.
  pose proof (fetchItems_lastSync_anon be' acc.1 Hbe') as Hlast.
  destruct (fetchItems be' acc.1). simpl in *. congruence.
Qed.

End ClientFacts.

(** ** The aggregation *)

Module AggregationFacts.
Import Schema Engine.

Local Open Scope Z_scope.

Lemma delta_of_add_movement deltas mv code :
  delta_of (add_movement deltas mv) code
  = delta_of deltas code
    + (if decide (mv_item_code mv = code) then mv_quantity_delta mv else 0).
Proof.
  unfold add_movement, delta_of. case_decide as Hc.
  - subst code. by rewrite lookup_insert_eq.
  - rewrite lookup_insert_ne by done. by rewrite Z.add_0_r.
Qed.

Lemma delta_of_foldl_add_movement mvs deltas code :
  delta_of (foldl add_movement deltas mvs) code
  = delta_of deltas code + movements_delta code mvs.
Proof.
  revert deltas. induction mvs as [|mv mvs IH]; intros deltas; simpl; [lia|].
  rewrite IH, delta_of_add_movement. lia.
Qed.

Lemma delta_of_add_stock_item acc si code :
  delta_of (add_stock_item acc si).2 code = delta_of acc.2 code.
Proof.
  unfold add_stock_item, delta_of. simpl.
  destruct (decide (si_item_code si = code)) as [->|Hne].
  - rewrite lookup_insert_eq. done.
  - by rewrite lookup_insert_ne.
Qed.

Lemma delta_of_foldl_add_stock_item sis acc code :
  delta_of (foldl add_stock_item acc sis).2 code = delta_of acc.2 code.
Proof.
  revert acc. induction sis as [|si sis IH]; intros acc; simpl; [done|].
  by rewrite IH, delta_of_add_stock_item.
Qed.

Lemma delta_of_aggregate_connector acc f code :
  delta_of (agg_deltas (aggregate_connector acc f)) code
  = delta_of (agg_deltas acc) code + source_delta code f.
Proof.
  destruct f as [company err|company sis mvs]; simpl; [lia|].
  pose proof (delta_of_foldl_add_stock_item sis (agg_items acc, agg_deltas acc) code)
    as Hsis.
  destruct (foldl add_stock_item _ sis) as [its ds]. simpl in *.
  by rewrite delta_of_foldl_add_movement, Hsis.
Qed.

Lemma delta_of_foldl_aggregate_connector fs acc code :
  delta_of (agg_deltas (foldl aggregate_connector acc fs)) code
  = delta_of (agg_deltas acc) code + sources_delta code fs.
Proof.
  revert acc. induction fs as [|f fs IH]; intros acc; simpl; [lia|].
  rewrite IH, delta_of_aggregate_connector. lia.
Qed.

Lemma aggregate_Some fs agg :
  aggregate fs = Some agg → agg = foldl aggregate_connector aggregation_empty fs.
Proof. unfold aggregate. case_match; [|done]. by intros [= <-]. Qed.

Lemma delta_of_aggregate fs agg code :
  aggregate fs = Some agg → delta_of (agg_deltas agg) code = sources_delta code fs.
Proof.
  intros ->%aggregate_Some. rewrite delta_of_foldl_aggregate_connector.
  unfold delta_of at 1. simpl. by rewrite lookup_empty.
Qed.

End AggregationFacts.

(** ** A run *)

Module RunFacts.
Import Schema Engine Publication SchemaFacts PublicationFacts AggregationFacts.

(** *** The items the aggregation knows *)

Lemma add_movement_is_Some deltas mv code :
  is_Some (add_movement deltas mv !! code)
  ↔ mv_item_code mv = code ∨ is_Some (deltas !! code).
Proof. unfold add_movement. apply lookup_insert_is_Some'. Qed.

Lemma foldl_add_movement_is_Some mvs deltas code :
  is_Some (foldl add_movement deltas mvs !! code)
  ↔ code ∈ mv_item_code <$> mvs ∨ is_Some (deltas !! code).
Proof.
  revert deltas. induction mvs as [|mv mvs IH]; intros deltas; simpl.
  - split; [by right|]. by intros [?%not_elem_of_nil|?].
  - rewrite IH, add_movement_is_Some, elem_of_cons. intuition congruence.
Qed.

Lemma add_stock_item_is_Some acc si code :
  is_Some ((add_stock_item acc si).2 !! code)
  ↔ si_item_code si = code ∨ is_Some (acc.2 !! code).
Proof. unfold add_stock_item. simpl. apply lookup_insert_is_Some'. Qed.

Lemma foldl_add_stock_item_is_Some sis acc code :
  is_Some ((foldl add_stock_item acc sis).2 !! code)
  ↔ code ∈ si_item_code <$> sis ∨ is_Some (acc.2 !! code).
Proof.
  revert acc. induction sis as [|si sis IH]; intros acc; simpl.
  - split; [by right|]. by intros [?%not_elem_of_nil|?].
  - rewrite IH, add_stock_item_is_Some, elem_of_cons. intuition congruence.
Qed.

Lemma aggregate_connector_is_Some acc f code :
  is_Some (agg_deltas (aggregate_connector acc f) !! code)
  ↔ present_in code f ∨ is_Some (agg_deltas acc !! code).
Proof.
  destruct f as [company err|company sis mvs]; simpl; [tauto|].
  pose proof (foldl_add_stock_item_is_Some sis (agg_items acc, agg_deltas acc) code)
    as Hsis.
  destruct (foldl add_stock_item _ sis) as [its ds]. simpl in *.
  rewrite foldl_add_movement_is_Some, Hsis. tauto.
Qed.

Lemma foldl_aggregate_connector_is_Some fs acc code :
  is_Some (agg_deltas (foldl aggregate_connector acc fs) !! code)
  ↔ (∃ f, f ∈ fs ∧ present_in code f) ∨ is_Some (agg_deltas acc !! code).
Proof.
  revert acc. induction fs as [|f fs IH]; intros acc; simpl.
  - split; [by right|]. intros [(f & ?%not_elem_of_nil & _)|?]; done.
  - rewrite IH, aggregate_connector_is_Some. split.
    + intros [(f' & Hin & Hp)|[Hp|Hacc]].
      * left. exists f'. split; [by apply list_elem_of_further|done].
      * left. exists f. split; [apply list_elem_of_here|done].
      * by right.
    + intros [(f' & [->|Hin]%elem_of_cons & Hp)|Hacc].
      * right. by left.
      * left. by exists f'.
      * right. by right.
Qed.

(** The failures of an aggregation are the sources that failed. *)
Lemma foldl_aggregate_connector_failures fs acc :
  agg_failures (foldl aggregate_connector acc fs) = [] →
  agg_failures acc = [] ∧ Forall (λ f, succeeded f) fs.
Proof.
  revert acc. induction fs as [|f fs IH]; intros acc; simpl; [done|].
  intros [Hacc Hfs]%IH. destruct f as [company err|company sis mvs]; simpl in *.
  - by apply app_eq_nil in Hacc as [_ ?].
  - split; [|by constructor].
    by destruct (foldl add_stock_item _ sis).
Qed.

Lemma committed_all es : length (committed es) = length es → committed es = es.
Proof.
  induction es as [|e es IH]; simpl; [done|]. case_decide; simpl; [|done].
  intros. f_equal. apply IH. lia.
Qed.

Lemma NoDup_omap_eq {A B} (g : A → option B) (l : list A) x y k :
  NoDup (omap g l) → x ∈ l → y ∈ l → g x = Some k → g y = Some k → x = y.
Proof.
  induction l as [|z l IH]; [by intros _ ?%not_elem_of_nil|].
  intros Hnd [->|Hx]%elem_of_cons [->|Hy]%elem_of_cons Hgx Hgy; [done| | |].
  - exfalso. simpl in Hnd. rewrite Hgx in Hnd. apply NoDup_cons in Hnd as [Hz _].
    apply Hz, list_elem_of_omap. by exists y.
  - exfalso. simpl in Hnd. rewrite Hgy in Hnd. apply NoDup_cons in Hnd as [Hz _].
    apply Hz, list_elem_of_omap. by exists x.
  - apply IH; [|done..]. simpl in Hnd.
    destruct (g z); [by apply NoDup_cons in Hnd as [_ ?]|done].
Qed.

Lemma items_write_sync_operation clock v db :
  items (write_sync_operation clock v db) = items db.
Proof.
  unfold write_sync_operation, insert_sync_logs.
  by destruct (sync_logs_proposed _ _ _).
Qed.

Lemma stock_levels_write_sync_operation clock v db :
  stock_levels (write_sync_operation clock v db) = stock_levels db.
Proof.
  unfold write_sync_operation, insert_sync_logs.
  by destruct (sync_logs_proposed _ _ _).
Qed.

(** What a held entry says in terms of rows. *)
Lemma held_rows T meta db code a l :
  constraints db → held T meta db (code, (a, l)) →
  ∃ i sl, i ∈ items db ∧ i_item_code i = code
    ∧ sl ∈ stock_levels db ∧ sl_item_id sl = Some (i_id i)
    ∧ (∀ sl', sl' ∈ stock_levels db → sl_item_id sl' = Some (i_id i) → sl' = sl)
    ∧ sl_current_stock sl = Some (current_stock l)
    ∧ sl_physical_baseline sl = Some (physical_baseline l)
    ∧ sl_tally_delta sl = Some (tally_delta l)
    ∧ sl_last_sync sl = Some (run_timestamp meta)
    ∧ sl_sync_source sl = Some "tally_sync"
    ∧ i_item_name i = ia_item_name a.
Proof.
  intros Hdb [[Hin Hitem] [Hlin Hlevel]]. simpl in *.
  destruct (item_id_of_is_Some _ _ Hin) as [id Hid].
  rewrite (storage_id_Some _ _ _ Hid) in Hlin, Hlevel.
  apply item_id_of_Some in Hid as (i & Hi & Hcode & <-).
  apply list_elem_of_fmap in Hlin as (sl & Hsid & Hsl).
  exists i, sl. pose proof (Hlevel sl Hsl (eq_sym Hsid)) as Hrow.
  split_and!; try done.
  - intros sl' Hsl' Hsid'.
    eapply NoDup_omap_eq; [apply (stock_levels_item_id_key _ Hdb)|done..].
  - by rewrite Hrow.
  - by rewrite Hrow.
  - by rewrite Hrow.
  - by rewrite Hrow.
  - by rewrite Hrow.
  - by destruct (Hitem i Hi Hcode) as (?&_).
Qed.

(** *** Publishing twice *)



Lemma filter_unique_omap {A B} `{EqDecision B} (g : A → option B) (l : list A) x k :
  NoDup (omap g l) → x ∈ l → g x = Some k → filter (λ y, g y = Some k) l = [x].
Proof.
  induction l as [|z l IH]; [by intros _ ?%not_elem_of_nil|].
  intros Hnd [->|Hx]%elem_of_cons Hk.
  - simpl in Hnd. rewrite Hk in Hnd. apply NoDup_cons in Hnd as [Hz Hl].
    rewrite filter_cons, decide_True by done. f_equal.
    apply elem_of_nil_inv. intros y [Hy Hin]%list_elem_of_filter.
    apply Hz, list_elem_of_omap. by exists y.
  - assert (NoDup (omap g l)) as Hl.
    { simpl in Hnd. destruct (g z); [by apply NoDup_cons in Hnd as [_ ?]|done]. }
    rewrite filter_cons, decide_False; [by apply IH|].
    intros Heq. simpl in Hnd. rewrite Heq in Hnd. apply NoDup_cons in Hnd as [Hz _].
    apply Hz, list_elem_of_omap. by exists x.
Qed.

End RunFacts.

(** ** The fixtures *)

Module FixtureFacts.
Import Schema SchemaFacts Fixtures.

Lemma reachable_script now ss db : reachable db → reachable (script now ss db).
Proof.
  revert db. induction ss as [|s ss IH]; intros db Hdb; [done|]. simpl.
  apply IH. destruct (execute now s db) as [db'|] eqn:Hs; [|done].
  by eapply reachable_execute.
Qed.

Lemma reachable_sample_data : reachable sample_data.
Proof. apply reachable_script, reachable_script, reachable_empty. Qed.

Lemma reachable_synced_data : reachable synced_data.
Proof. apply reachable_script, reachable_sample_data. Qed.

Lemma reachable_pruned_data : reachable pruned_data.
Proof. apply reachable_script, reachable_synced_data. Qed.

Example sample_data_view :
  v_item_code <$> inventory_view String.leb sample_data
  = ["FILTER001"; "BRAKE001"; "BRAKE002"; "OIL001"; "SPARK001"].
Proof. vm_compute. reflexivity. Qed.

End FixtureFacts.

(** * The properties of the specification *)

(** ** The durable store *)

Module Store.
Import Schema SchemaFacts ViewFacts Fixtures FixtureFacts.

(** The status of a log record.  Every row of [sync_logs] has a status
    among SUCCESS, FAILED and ERROR: the store takes a row exactly when its
    status is one of the three (and its integers are integers of the store),
    whatever its error message, and no row it holds has another status.  The
    other columns hold what the statement gives, or their default. *)
Theorem sync_logs_status_in_set db :
  reachable db →
  Forall (λ lg, lg_status lg = "SUCCESS" ∨ lg_status lg = "FAILED"
                ∨ lg_status lg = "ERROR") (sync_logs db)
  ∧ (∀ now v,
       is_Some (insert_sync_logs now v db) ↔
       ∃ st, lgv_status v = Given (Some st)
         ∧ st ∈ ["SUCCESS"; "FAILED"; "ERROR"]
         ∧ null_or integer_fits (inserted (Some 0%Z) (lgv_items_processed v))
         ∧ null_or integer_fits (inserted None (lgv_duration_seconds v)))
  ∧ (∀ now v db',
       insert_sync_logs now v db = Some db' →
       ∃ lg, sync_logs db' = sync_logs db ++ [lg]
         ∧ lgv_status v = Given (Some (lg_status lg))
         ∧ lg_sync_timestamp lg = inserted (Some now) (lgv_sync_timestamp v)
         ∧ lg_items_processed lg = inserted (Some 0%Z) (lgv_items_processed v)
         ∧ lg_error_message lg = inserted None (lgv_error_message v)
         ∧ lg_duration_seconds lg = inserted None (lgv_duration_seconds v)).
Proof.
  intros Hdb%reachable_constraints. split_and!.
  - apply (Forall_impl _ _ _ (sync_logs_status_check _ Hdb)).
    intros lg. unfold status_check. rewrite !elem_of_cons, elem_of_nil. tauto.
  - intros now v. unfold insert_sync_logs, sync_logs_proposed. split.
    + intros [db' Hins].
      destruct (lgv_status v) as [|[st|]]; simplify_option_eq. by exists st.
    + intros (st & -> & Hst & Hp & Hd). simpl.
      assert (varchar_fits 20 st).
      { unfold varchar_fits.
        repeat (apply elem_of_cons in Hst as [->|Hst]; [simpl; lia|]).
        by apply elem_of_nil in Hst. }
      rewrite !option_guard_True by done. done.
  - intros now v db' (lg & Hp & ->)%insert_sync_logs_Some.
    apply sync_logs_proposed_Some in Hp as (_ & ? & _ & ? & ? & ? & ?).
    by exists lg.
Qed.

Lemma sync_logs_status_in_set_witness :
  let v := {| lgv_sync_timestamp := Omitted; lgv_items_processed := Given (Some 5%Z);
              lgv_status := Given (Some "FAILED");
              lgv_error_message := Given (Some "ConnectionError: SP Test 2");
              lgv_duration_seconds := Given (Some 12%Z) |} in
  let db := default sample_data (insert_sync_logs 1700000000000000%Z v sample_data) in
  reachable db
  ∧ Forall (λ lg, lg_status lg = "SUCCESS" ∨ lg_status lg = "FAILED"
                  ∨ lg_status lg = "ERROR") (sync_logs db)
  ∧ length (sync_logs db) = 1.
Proof.
  intros v db.
  assert (reachable db) as Hdb.
  { apply (reachable_execute 1700000000000000%Z (INSERT_sync_logs v) sample_data);
      [apply reachable_sample_data|vm_compute; reflexivity]. }
  split; [exact Hdb|]. split; [|vm_compute; reflexivity].
  exact (proj1 (sync_logs_status_in_set db Hdb)).
Defined.

(** C8.  The schema takes a log record without a run timestamp, without a
    number of items and without a duration.  Of the columns of [sync_logs]
    only [status] is declared [NOT NULL]: an explicit [NULL] replaces the
    defaults [NOW()] and 0 of [sync_timestamp] and [items_processed], and a
    [duration_seconds] left out is [NULL], in every store. *)
Theorem sync_log_without_run_data now db :
  let v := {| lgv_sync_timestamp := Given None; lgv_items_processed := Given None;
              lgv_status := Given (Some "SUCCESS"); lgv_error_message := Omitted;
              lgv_duration_seconds := Omitted |} in
  ∃ db' lg, insert_sync_logs now v db = Some db'
    ∧ (reachable db → reachable db')
    ∧ sync_logs db' = sync_logs db ++ [lg]
    ∧ lg_status lg = "SUCCESS"
    ∧ lg_sync_timestamp lg = None
    ∧ lg_items_processed lg = None
    ∧ lg_duration_seconds lg = None
    ∧ lg_error_message lg = None.
Proof.
  intros v.
  destruct (insert_sync_logs now v db) as [db'|] eqn:Hins; [|by vm_compute in Hins].
  exists db'.
  assert (reachable db → reachable db') as Hdb'.
  { intros Hdb. by apply (reachable_execute now (INSERT_sync_logs v) db). }
  apply insert_sync_logs_Some in Hins as (lg & Hp & ->).
  vm_compute in Hp. injection Hp as <-. by eexists.
Qed.

(** *** Items and their stock levels *)

Lemma stock_level_unique db sl sl' id :
  constraints db → sl ∈ stock_levels db → sl' ∈ stock_levels db →
  sl_item_id sl = Some id → sl_item_id sl' = Some id → sl = sl'.
Proof. intros Hdb. apply RunFacts.NoDup_omap_eq, (stock_levels_item_id_key _ Hdb). Qed.

Lemma stock_level_references_item db sl id :
  constraints db → sl ∈ stock_levels db → sl_item_id sl = Some id →
  ∃ i, i ∈ items db ∧ i_id i = id.
Proof.
  intros Hdb Hsl Hid. pose proof (stock_levels_item_id_fkey _ Hdb) as Hfk.
  rewrite Forall_forall in Hfk. specialize (Hfk _ Hsl). rewrite Hid in Hfk.
  apply list_elem_of_fmap in Hfk as (i & -> & Hi). by exists i.
Qed.

Lemma delete_items_cascade id db sl :
  sl ∈ stock_levels (delete_items id db) → sl_item_id sl ≠ Some id.
Proof. by intros [? _]%list_elem_of_filter. Qed.

(** C6.  The schema takes a stock level without an item: [item_id] is not
    declared [NOT NULL], and a [NULL] passes both the foreign key and the
    uniqueness constraint. *)
Theorem stock_level_without_item :
  let v := {| slv_item_id := Omitted; slv_current_stock := Omitted;
              slv_physical_baseline := Omitted; slv_tally_delta := Omitted;
              slv_last_sync := Omitted; slv_sync_source := Omitted |} in
  ∃ db sl, insert_stock_levels 0%Z v empty_database = Some db
    ∧ reachable db ∧ items db = [] ∧ stock_levels db = [sl]
    ∧ sl_item_id sl = None.
Proof.
  intros v.
  destruct (insert_stock_levels 0%Z v empty_database) as [db|] eqn:Hins;
    [|by vm_compute in Hins].
  assert (reachable db) as Hdb.
  { by apply (reachable_execute 0%Z (INSERT_stock_levels v) empty_database);
      [apply reachable_empty|]. }
  vm_compute in Hins. simplify_eq. eexists _, _. split_and!; done.
Qed.

(** *** The view *)

(** C9.  An item without a stock level is still a row of [inventory_view]:
    its stock, baseline and delta read 0, its source 'manual', and its last
    sync is the item's [created_at]; where the primary key of [items]
    holds, this is the only row of the item. *)
Theorem inventory_view_item_without_stock_level collate_le db i :
  i ∈ items db →
  (∀ sl, sl ∈ stock_levels db → sl_item_id sl ≠ Some (i_id i)) →
  let row := {| v_id := i_id i; v_item_code := i_item_code i;
                v_item_name := i_item_name i; v_category := i_category i;
                v_unit := i_unit i; v_current_stock := 0%Z;
                v_physical_baseline := 0%Z; v_tally_delta := 0%Z;
                v_last_sync := i_created_at i; v_sync_source := "manual" |} in
  row ∈ inventory_view collate_le db
  ∧ (NoDup (i_id <$> items db) →
     ∀ r, r ∈ inventory_view collate_le db → v_id r = i_id i → r = row).
Proof.
  intros Hi Hnone row. split.
  - apply elem_of_inventory_view. by exists i, None.
  - intros Hpk r (i' & osl & Hi' & Hosl & ->)%elem_of_inventory_view Hid.
    simpl in Hid.
    assert (i' = i) as -> by by eapply PublicationFacts.NoDup_fmap_eq.
    destruct osl as [sl|]; [|done]. destruct Hosl as [Hsl Hsid].
    by apply Hnone in Hsl.
Qed.

Lemma inventory_view_item_without_stock_level_witness :
  let i := {| i_id := 2; i_item_code := "OIL001"; i_item_name := "Engine Oil 5W30";
              i_category := Some "Lubricants"; i_unit := Some "Liter";
              i_created_at := Some 1700000000000000%Z;
              i_updated_at := Some 1700000000000000%Z |} in
  i ∈ items items_only
  ∧ (∀ sl, sl ∈ stock_levels items_only → sl_item_id sl ≠ Some (i_id i))
  ∧ {| v_id := 2; v_item_code := "OIL001"; v_item_name := "Engine Oil 5W30";
       v_category := Some "Lubricants"; v_unit := Some "Liter";
       v_current_stock := 0%Z; v_physical_baseline := 0%Z; v_tally_delta := 0%Z;
       v_last_sync := Some 1700000000000000%Z; v_sync_source := "manual" |}
     ∈ inventory_view String.leb items_only.
Proof.
  intros i.
  assert (i ∈ items items_only) as Hi.
  { vm_compute. do 2 apply list_elem_of_further. apply list_elem_of_here. }
  assert (∀ sl, sl ∈ stock_levels items_only → sl_item_id sl ≠ Some (i_id i)) as Hnone.
  { intros sl Hsl. vm_compute in Hsl. by apply not_elem_of_nil in Hsl. }
  split; [exact Hi|]. split; [exact Hnone|].
  exact (proj1 (inventory_view_item_without_stock_level String.leb items_only i Hi Hnone)).
Defined.

End Store.

(** ** The read side *)

Module Reader.
Import Client ClientFacts Fixtures FixtureFacts.

(** *** What the hook asks the store *)

(** C3, as stated, fails: mounting the hook on the sample data also calls
    [get_latest_sync_timestamp] and subscribes to the changes of
    [stock_levels]; and two stores that differ in the [id] of a stock level
    have the same view. *)
Lemma read_side_queries_more_than_the_view :
  (useEffect sample_backend).2
  = [from_select_order "inventory_view" "*" "item_name";
     rpc "get_latest_sync_timestamp";
     channel_on_postgres_changes "*" "public" "stock_levels"]
  ∧ ¬ (∀ r, r ∈ (useEffect sample_backend).2 →
         ∃ columns column, r = from_select_order "inventory_view" columns column)
  ∧ ∃ db db', Schema.stock_levels db ≠ Schema.stock_levels db'
      ∧ Schema.inventory_view String.leb db = Schema.inventory_view String.leb db'.
Proof.
  assert ((useEffect sample_backend).2
          = [from_select_order "inventory_view" "*" "item_name";
             rpc "get_latest_sync_timestamp";
             channel_on_postgres_changes "*" "public" "stock_levels"]) as Hsent
    by (vm_compute; reflexivity).
  split; [exact Hsent|]. split.
  { intros Hall. destruct (Hall (rpc "get_latest_sync_timestamp")) as (? & ? & [=]).
    rewrite Hsent. apply list_elem_of_further, list_elem_of_here. }
  set (i := {| Schema.i_id := 0; Schema.i_item_code := "OIL001";
               Schema.i_item_name := "Engine Oil 5W30"; Schema.i_category := None;
               Schema.i_unit := None; Schema.i_created_at := None;
               Schema.i_updated_at := None |}).
  set (sl := λ id, {| Schema.sl_id := id; Schema.sl_item_id := Some 0;
                      Schema.sl_current_stock := Some 42000%Z;
                      Schema.sl_physical_baseline := Some 42000%Z;
                      Schema.sl_tally_delta := Some 0%Z;
                      Schema.sl_last_sync := None;
                      Schema.sl_sync_source := Some "manual" |}).
  exists {| Schema.items := [i]; Schema.stock_levels := [sl 1];
            Schema.sync_logs := []; Schema.uuid_seed := 3 |},
         {| Schema.items := [i]; Schema.stock_levels := [sl 2];
            Schema.sync_logs := []; Schema.uuid_seed := 3 |}.
  split; [by intros [=]|]. vm_compute. reflexivity.
Qed.

(** C3 (amended).  All the hook ever sends is the [select] of every column
    of [inventory_view] ordered by [item_name], the call of
    [get_latest_sync_timestamp] and the subscription to the changes of
    [stock_levels].  The items it holds after a fetch are the rows of the
    view, in the order of [item_name]; a row of the view is an item with the
    quantities, last sync and source of its stock level, or with the defaults
    when it has none. *)
Theorem read_side_surface be bes :
  (∀ a b, collate_le be a b ∨ collate_le be b a) →
  select_failure be = None →
  (∀ r, r ∈ (session be bes).2 →
     r = from_select_order "inventory_view" "*" "item_name"
     ∨ r = rpc "get_latest_sync_timestamp"
     ∨ r = channel_on_postgres_changes "*" "public" "stock_levels")
  ∧ Sorted (λ a b, collate_le be (item_name a) (item_name b))
           (items (useEffect be).1)
  ∧ Sorted (λ a b, collate_le be (Schema.v_item_name a) (Schema.v_item_name b))
           (Schema.inventory_view (collate_le be) (database be))
  ∧ (∀ it, it ∈ items (useEffect be).1 ↔
       ∃ r, r ∈ Schema.inventory_view (collate_le be) (database be)
         ∧ it = InventoryItem_of_row r)
  ∧ (∀ r, r ∈ Schema.inventory_view (collate_le be) (database be) ↔
       ∃ i sl, i ∈ Schema.items (database be)
         ∧ match sl with
           | Some sl => sl ∈ Schema.stock_levels (database be)
                        ∧ Schema.sl_item_id sl = Some (Schema.i_id i)
           | None => ∀ sl, sl ∈ Schema.stock_levels (database be) →
                           Schema.sl_item_id sl ≠ Some (Schema.i_id i)
           end
         ∧ r = Schema.inventory_view_select (i, sl)).
Proof.
  intros Htotal Hselect.
  assert (items (useEffect be).1
          = InventoryItem_of_row <$>
              Schema.ORDER_BY (collate_le be) Schema.v_item_name
                (Schema.inventory_view (collate_le be) (database be))) as Hitems.
  { unfold useEffect.
    pose proof (fetchItems_items be useInventory_initial Hselect) as Hfetch.
    by destruct (fetchItems be useInventory_initial). }
  split_and!.
  - apply session_sent.
  - rewrite Hitems. eapply Sorted_fmap; [|by apply ViewFacts.Sorted_ORDER_BY].
    done.
  - by apply ViewFacts.Sorted_ORDER_BY.
  - intros it. rewrite Hitems, list_elem_of_fmap. split.
    + intros (r & -> & Hr%ViewFacts.elem_of_ORDER_BY). by exists r.
    + intros (r & Hr & ->). exists r. split; [done|].
      by apply ViewFacts.elem_of_ORDER_BY.
  - apply ViewFacts.elem_of_inventory_view.
Qed.

Lemma leb_total a b : String.leb a b ∨ String.leb b a.
Proof. destruct (String.leb_total a b) as [->| ->]; [by left|by right]. Qed.

Lemma read_side_surface_witness :
  (∀ a b, collate_le sample_backend a b ∨ collate_le sample_backend b a)
  ∧ select_failure sample_backend = None
  ∧ item_code <$> items (useEffect sample_backend).1
    = ["FILTER001"; "BRAKE001"; "BRAKE002"; "OIL001"; "SPARK001"]
  ∧ Sorted (λ a b, String.leb (item_name a) (item_name b))
           (items (useEffect sample_backend).1).
Proof.
  split; [exact leb_total|]. split; [reflexivity|]. split; [vm_compute; reflexivity|].
  exact (proj1 (proj2 (read_side_surface sample_backend [] leb_total eq_refl))).
Defined.

(** *** The last sync *)

(** C10.  The app never shows the latest sync.  The synced store holds a
    stock level with the source 'tally_sync', and to a role that reads
    [stock_levels] the function [get_latest_sync_timestamp] returns its
    [last_sync].  The app calls the function with the anon key, a role for
    which no policy of [stock_levels] admits a row: the function returns
    NULL, the hook keeps its [null] and the screen reads 'Never', on this
    store as on every other and after every fetch. *)
Theorem latest_sync_hidden_from_the_app :
  auth_role synced_backend = Schema.anon
  ∧ (∃ sl, sl ∈ Schema.stock_levels synced_data
       ∧ Schema.sl_sync_source sl = Some "tally_sync"
       ∧ Schema.sl_last_sync sl = Some 1700000600000000%Z)
  ∧ Schema.get_latest_sync_timestamp synced_data = Some 1700000600000000%Z
  ∧ Schema.get_latest_sync_timestamp_as Schema.authenticated synced_data
    = Some 1700000600000000%Z
  ∧ rpc_get_latest_sync_timestamp synced_backend = {| data := None; error := None |}
  ∧ lastSync (useEffect synced_backend).1 = None
  ∧ formatLastSync 1700000900000%Z (lastSync (useEffect synced_backend).1) = "Never"
  ∧ ∀ be bes now,
      auth_role be = Schema.anon →
      Forall (λ be, auth_role be = Schema.anon) bes →
      lastSync (session be bes).1 = None
      ∧ formatLastSync now (lastSync (session be bes).1) = "Never".
Proof.
  split; [reflexivity|]. split.
  { eexists. split.
    - vm_compute. do 2 apply list_elem_of_further. apply list_elem_of_here.
    - split; reflexivity. }
  do 5 (split; [vm_compute; reflexivity|]).
  intros be bes now Hbe Hbes.
  by rewrite (session_lastSync_anon be bes Hbe Hbes).
Qed.

(** *** Quantities *)


Lemma decimal_fits_view db r collate :
  Schema.constraints db → r ∈ Schema.inventory_view collate db →
  decimal_fits (Schema.v_current_stock r)
  ∧ decimal_fits (Schema.v_physical_baseline r)
  ∧ decimal_fits (Schema.v_tally_delta r).
Proof.
  intros Hdb (i & osl & Hi & Hosl & ->)%ViewFacts.elem_of_inventory_view.
  assert (decimal_fits 0%Z) as Hzero by (unfold decimal_fits; simpl; lia).
  destruct osl as [sl|]; simpl; [|done].
  destruct Hosl as [Hsl _].
  pose proof (Schema.stock_levels_decimal _ Hdb) as Hdec.
  rewrite Forall_forall in Hdec. destruct (Hdec _ Hsl) as (Hc & Hb & Hd).
  destruct (Schema.sl_current_stock sl), (Schema.sl_physical_baseline sl),
    (Schema.sl_tally_delta sl); simpl in *; done.
Qed.



End Reader.

(** ** The sync engine *)

Module Sync.
Import Schema Engine Publication SchemaFacts PublicationFacts AggregationFacts RunFacts Fixtures.

Local Open Scope Z_scope.

(** *** The aggregated delta *)

(** C2.  The aggregated delta of an item is the sum, over the sources, of
    the item's quantity deltas, a source that failed or does not have the item
    counting for zero; two sources with +25 and +20 for BRAKE001 give +45. *)
Theorem aggregated_delta fs agg code :
  aggregate fs = Some agg →
  delta_of (agg_deltas agg) code = sources_delta code fs
  ∧ (∀ a b, fs = [a; b] → source_delta "BRAKE001" a = 25000 →
       source_delta "BRAKE001" b = 20000 →
       delta_of (agg_deltas agg) "BRAKE001" = 45000).
Proof.
  intros Hagg. split; [by apply delta_of_aggregate|].
  intros a b -> Ha Hb. rewrite (delta_of_aggregate _ _ _ Hagg). simpl.
  rewrite Ha, Hb. done.
Qed.

Lemma aggregated_delta_witness :
  let fs := [Fetched "Company A" []
               [{| mv_item_code := "BRAKE001"; mv_quantity_delta := 25000 |}];
             Fetched "Company B" []
               [{| mv_item_code := "BRAKE001"; mv_quantity_delta := 20000 |};
                {| mv_item_code := "OIL001"; mv_quantity_delta := -1500 |}]] in
  ∃ agg, aggregate fs = Some agg
    ∧ delta_of (agg_deltas agg) "BRAKE001" = 45000
    ∧ delta_of (agg_deltas agg) "OIL001" = -1500
    ∧ delta_of (agg_deltas agg) "FILTER002" = 0.
Proof.
  intros fs. exists (foldl aggregate_connector aggregation_empty fs).
  assert (aggregate fs = Some (foldl aggregate_connector aggregation_empty fs)) as Hagg
    by reflexivity.
  split; [exact Hagg|].
  split_and!.
  - by apply (proj2 (aggregated_delta fs _ "BRAKE001" Hagg) _ _ eq_refl).
  - by rewrite (proj1 (aggregated_delta fs _ "OIL001" Hagg)).
  - by rewrite (proj1 (aggregated_delta fs _ "FILTER002" Hagg)).
Defined.

(** *** The clean slate *)

(** C1.  When a run ends in SUCCESS, every item of the baseline or of a
    source has its one stock level in the store, and that row satisfies
    [current_stock = physical_baseline + tally_delta] exactly, the baseline
    being the count of the baseline entry (0 without one) and the delta the
    sum over the sources. *)
Theorem clean_slate_invariant clock meta baseline fetches db code :
  constraints db →
  out_status (run clock meta baseline fetches db) = SUCCESS →
  code ∈ dom baseline ∨ (∃ f, f ∈ fetches ∧ present_in code f) →
  let db' := out_database (run clock meta baseline fetches db) in
  ∃ i sl c b d,
    i ∈ items db' ∧ i_item_code i = code
    ∧ sl ∈ stock_levels db' ∧ sl_item_id sl = Some (i_id i)
    ∧ (∀ sl', sl' ∈ stock_levels db' → sl_item_id sl' = Some (i_id i) → sl' = sl)
    ∧ sl_current_stock sl = Some c
    ∧ sl_physical_baseline sl = Some b
    ∧ sl_tally_delta sl = Some d
    ∧ c = (b + d)%Z
    ∧ b = default 0%Z (bl_physical_count <$> baseline !! code)
    ∧ d = sources_delta code fetches
    ∧ ∀ collate_le, ∃ r,
        r ∈ inventory_view collate_le db' ∧ v_item_code r = code
        ∧ v_current_stock r = c ∧ v_physical_baseline r = b ∧ v_tally_delta r = d.
Proof.
  intros Hdb Hstatus Hpresent. unfold run in *.
  destruct (aggregate fetches) as [agg|] eqn:Hagg; [|done]. simpl in *.
  set (levels := compute baseline (agg_deltas agg)) in *.
  set (its := map_imap (λ code _, Some (item_of (agg_items agg) baseline code)) levels) in *.
  unfold publish in *.
  set (es := map_to_list (map_zip its levels)) in *.
  rewrite publish_entries_eq in Hstatus |- *. simpl in *.
  destruct (bool_decide (length (committed es) ≠ length es)) eqn:Herr; [done|].
  apply bool_decide_eq_false in Herr. apply dec_stable in Herr.
  apply committed_all in Herr. rewrite Herr in *. clear Hstatus.
  rewrite items_write_sync_operation, stock_levels_write_sync_operation.
  (* the level the calculator gives the code *)
  assert (is_Some (baseline !! code) ∨ is_Some (agg_deltas agg !! code)) as Hknown.
  { destruct Hpresent as [Hb%elem_of_dom|Hsrc]; [by left|right].
    rewrite (aggregate_Some _ _ Hagg).
    apply foldl_aggregate_connector_is_Some. by left. }
  set (l := {| current_stock :=
                 default 0 (bl_physical_count <$> baseline !! code)
                 + delta_of (agg_deltas agg) code;
               physical_baseline := default 0 (bl_physical_count <$> baseline !! code);
               tally_delta := delta_of (agg_deltas agg) code |}%Z).
  assert (levels !! code = Some l) as Hlevel.
  { unfold levels, compute. rewrite lookup_merge. unfold l, delta_of.
    destruct (baseline !! code), (agg_deltas agg !! code); simpl; try done.
    by destruct Hknown as [[]|[]]. }
  assert ((code, (item_of (agg_items agg) baseline code, l)) ∈ es) as Hin.
  { apply elem_of_map_to_list, map_lookup_zip_Some. simpl. split; [|done].
    unfold its. by rewrite map_lookup_imap, Hlevel. }
  assert (Forall publishable es) as Hpub.
  { rewrite <-Herr. apply committed_publishable. }
  pose proof (held_foldl_step clock meta es db _ Hdb
                (NoDup_fst_map_to_list _) Hpub Hin) as Hheld.
  apply held_rows in Hheld
    as (i & sl & Hi & Hcode & Hsl & Hsid & Huniq & Hc & Hb & Hd & _);
    [|by apply constraints_foldl_step].
  exists i, sl, (current_stock l), (physical_baseline l), (tally_delta l).
  split_and!; try done.
  - simpl. by rewrite (delta_of_aggregate _ _ code Hagg).
  - intros collate_le. exists (inventory_view_select (i, Some sl)). split.
    + apply ViewFacts.elem_of_inventory_view. exists i, (Some sl).
      rewrite items_write_sync_operation, stock_levels_write_sync_operation. done.
    + simpl. by rewrite Hc, Hb, Hd.
Qed.

Lemma clean_slate_invariant_witness :
  constraints empty_database
  ∧ out_status guide_run = SUCCESS
  ∧ "BRAKE001" ∈ dom guide_baseline
  ∧ ∃ i sl c b d,
      i ∈ items (out_database guide_run) ∧ i_item_code i = "BRAKE001"
      ∧ sl ∈ stock_levels (out_database guide_run) ∧ sl_item_id sl = Some (i_id i)
      ∧ (∀ sl', sl' ∈ stock_levels (out_database guide_run) →
           sl_item_id sl' = Some (i_id i) → sl' = sl)
      ∧ sl_current_stock sl = Some c
      ∧ sl_physical_baseline sl = Some b
      ∧ sl_tally_delta sl = Some d
      ∧ c = b + d
      ∧ b = default 0 (bl_physical_count <$> guide_baseline !! "BRAKE001")
      ∧ d = sources_delta "BRAKE001" guide_sources
      ∧ ∀ collate_le, ∃ r,
          r ∈ inventory_view collate_le (out_database guide_run)
          ∧ v_item_code r = "BRAKE001"
          ∧ v_current_stock r = c ∧ v_physical_baseline r = b ∧ v_tally_delta r = d.
Proof.
  assert (out_status guide_run = SUCCESS) as Hstatus by (vm_compute; reflexivity).
  assert ("BRAKE001" ∈ dom guide_baseline) as Hdom.
  { apply elem_of_dom. vm_compute. eauto. }
  split; [exact constraints_empty|]. split; [exact Hstatus|]. split; [exact Hdom|].
  exact (clean_slate_invariant 1706745601000000 guide_meta guide_baseline
           guide_sources empty_database "BRAKE001"
           constraints_empty Hstatus (or_introl Hdom)).
Defined.

(** The run of the guide's example on the empty store: FILTER002 keeps its
    baseline of 30, BRAKE001 goes from 50 to 47. *)
Example guide_run_published :
  (λ sl, (sl_current_stock sl, sl_physical_baseline sl, sl_tally_delta sl))
    <$> stock_levels (out_database guide_run)
  = [(Some 30000, Some 30000, Some 0); (Some 47000, Some 50000, Some (-3000))].
Proof. vm_compute. reflexivity. Qed.

(** *** Publishing twice *)




End Sync.

(** * More of the code *)

(** ** The store *)

Module StoreFacts.
Import Schema SchemaFacts ViewFacts.

Lemma filter_all {A} (P : A → Prop) `{∀ a, Decision (P a)} (l : list A) :
  Forall P l → filter P l = l.
Proof.
  induction 1 as [|x l Hx _ IH]; [done|]. by rewrite filter_cons_True, IH.
Qed.

(** The stock levels of an item: none or one, under [UNIQUE(item_id)]. *)
Lemma filter_item_id_unique sls id :
  NoDup (omap sl_item_id sls) →
  filter (λ sl, sl_item_id sl = Some id) sls = []
  ∨ ∃ sl, filter (λ sl, sl_item_id sl = Some id) sls = [sl].
Proof.
  intros Hnd.
  destruct (filter (λ sl, sl_item_id sl = Some id) sls) as [|sl rest] eqn:Hf;
    [by left|right].
  assert (sl ∈ filter (λ sl, sl_item_id sl = Some id) sls) as Hsl
    by (rewrite Hf; apply list_elem_of_here).
  apply list_elem_of_filter in Hsl as [Hid Hsl].
  exists sl. rewrite <-Hf. by apply RunFacts.filter_unique_omap.
Qed.

Lemma left_join_stock_levels_one sls i :
  NoDup (omap sl_item_id sls) →
  ∃ osl, left_join_stock_levels sls i = [(i, osl)].
Proof.
  intros Hnd. unfold left_join_stock_levels.
  destruct (filter_item_id_unique sls (i_id i) Hnd) as [->|[sl ->]].
  - by exists None.
  - by exists (Some sl).
Qed.

Lemma v_id_left_join sls is_ :
  NoDup (omap sl_item_id sls) →
  v_id <$> (inventory_view_select <$> (is_ ≫= left_join_stock_levels sls))
  = i_id <$> is_.
Proof.
  intros Hnd. induction is_ as [|i is_ IH]; [done|].
  rewrite bind_cons, !fmap_app, IH.
  destruct (left_join_stock_levels_one sls i Hnd) as [osl ->]. done.
Qed.

(** No stock level names an id that has not been generated yet. *)
Lemma fresh_id_no_stock_level db sl id :
  constraints db → sl ∈ stock_levels db → uuid_seed db ≤ id → sl_item_id sl ≠ Some id.
Proof.
  intros Hdb Hsl Hge Hid.
  pose proof (stock_levels_item_id_fkey _ Hdb) as Hfk.
  rewrite Forall_forall in Hfk. specialize (Hfk _ Hsl). rewrite Hid in Hfk.
  apply list_elem_of_fmap in Hfk as (i & -> & Hi).
  destruct (uuid_seed_fresh _ Hdb) as (Hfresh & _).
  rewrite Forall_forall in Hfresh. specialize (Hfresh _ Hi). lia.
Qed.

Lemma absent_id_no_stock_level db sl id :
  constraints db → sl ∈ stock_levels db → id ∉ i_id <$> items db →
  sl_item_id sl ≠ Some id.
Proof.
  intros Hdb Hsl Hid Heq.
  pose proof (stock_levels_item_id_fkey _ Hdb) as Hfk.
  rewrite Forall_forall in Hfk. specialize (Hfk _ Hsl). by rewrite Heq in Hfk.
Qed.

(** [VARCHAR(n)] counts characters, not bytes: a code of sixty times the
    two bytes of an e with an acute accent is taken; and 'Nos' with fifty
    spaces behind is a text PostgreSQL cuts to the fifty characters of
    [unit]. *)
Example varchar_characters :
  let code := String.concat "" (replicate 60 "é") in
  String.length code = 120 ∧ char_length code = 60
  ∧ is_Some (insert_items 0%Z
               {| iv_item_code := Given (Some code);
                  iv_item_name := Given (Some "Écrou"); iv_category := Omitted;
                  iv_unit := Omitted; iv_created_at := Omitted;
                  iv_updated_at := Omitted |} empty_database)
  ∧ rtrim ("Nos" +:+ String.concat "" (replicate 50 " ")) = "Nos"
  ∧ varchar_cut 50 ("Nos" +:+ String.concat "" (replicate 50 " "))
  ∧ ¬ varchar_cut 50 "Nos    ".
Proof.
  split_and!; try (vm_compute; reflexivity).
  - eexists. vm_compute. reflexivity.
  - apply (bool_decide_eq_true_1 (varchar_cut 50 _)). vm_compute. reflexivity.
  - apply (bool_decide_eq_false_1 (varchar_cut 50 _)). vm_compute. reflexivity.
Qed.

Lemma MAX_snoc l x :
  MAX (l ++ [x]) = MAX [MAX l; x].
Proof.
  induction l as [|y l IH]; simpl.
  - by destruct x.
  - rewrite IH. simpl. destruct y as [a|], (MAX l) as [b|], x as [c|]; simpl;
      try done; f_equal; lia.
Qed.

End StoreFacts.

Module StoreProperties.
Import Schema SchemaFacts ViewFacts StoreFacts.

(** Whatever statements have run, the keys of the schema hold: an item is
    determined by its id and by its code, a stock level by the item it names,
    and that item exists. *)
Theorem store_keys db :
  reachable db →
  (∀ i i', i ∈ items db → i' ∈ items db →
     i_id i = i_id i' ∨ i_item_code i = i_item_code i' → i = i')
  ∧ (∀ sl sl' id, sl ∈ stock_levels db → sl' ∈ stock_levels db →
       sl_item_id sl = Some id → sl_item_id sl' = Some id → sl = sl')
  ∧ (∀ sl id, sl ∈ stock_levels db → sl_item_id sl = Some id →
       ∃ i, i ∈ items db ∧ i_id i = id).
Proof.
  intros Hdb%reachable_constraints. split_and!.
  - intros i i' Hi Hi' [Hid|Hcode].
    + by apply (PublicationFacts.NoDup_fmap_eq i_id (items db));
        [apply (items_pkey _ Hdb)|..].
    + by apply (PublicationFacts.NoDup_fmap_eq i_item_code (items db));
        [apply (items_item_code_key _ Hdb)|..].
  - intros sl sl' id. apply RunFacts.NoDup_omap_eq, (stock_levels_item_id_key _ Hdb).
  - intros sl id Hsl Hid. pose proof (stock_levels_item_id_fkey _ Hdb) as Hfk.
    rewrite Forall_forall in Hfk. specialize (Hfk _ Hsl). rewrite Hid in Hfk.
    apply list_elem_of_fmap in Hfk as (i & -> & Hi). by exists i.
Qed.

Lemma store_keys_witness :
  reachable Fixtures.sample_data
  ∧ ∀ sl sl' id, sl ∈ stock_levels Fixtures.sample_data →
      sl' ∈ stock_levels Fixtures.sample_data →
      sl_item_id sl = Some id → sl_item_id sl' = Some id → sl = sl'.
Proof.
  split; [exact FixtureFacts.reachable_sample_data|].
  exact (proj1 (proj2 (store_keys _ FixtureFacts.reachable_sample_data))).
Defined.

(** The view has one row for each item, whatever the stock levels: the ids
    of its rows are the ids of the items, each once. *)
Theorem inventory_view_one_row_per_item collate_le db :
  reachable db →
  v_id <$> inventory_view collate_le db ≡ₚ i_id <$> items db
  ∧ NoDup (v_id <$> inventory_view collate_le db)
  ∧ length (inventory_view collate_le db) = length (items db).
Proof.
  intros Hdb%reachable_constraints.
  assert (v_id <$> inventory_view collate_le db ≡ₚ i_id <$> items db) as Hperm.
  { unfold inventory_view, ORDER_BY. rewrite merge_sort_Permutation.
    by rewrite v_id_left_join by apply (stock_levels_item_id_key _ Hdb). }
  split_and!; [done| |].
  - rewrite Hperm. apply (items_pkey _ Hdb).
  - apply Permutation_length in Hperm. by rewrite !length_fmap in Hperm.
Qed.

Lemma inventory_view_one_row_per_item_witness :
  reachable Fixtures.sample_data
  ∧ length (inventory_view String.leb Fixtures.sample_data) = 5.
Proof.
  split; [exact FixtureFacts.reachable_sample_data|].
  exact (proj2 (proj2 (inventory_view_one_row_per_item String.leb _
                         FixtureFacts.reachable_sample_data))).
Defined.

(** [INSERT INTO items], for values none of whose texts PostgreSQL would
    cut to its column (a longer text with nothing but spaces in excess): the
    statement is taken exactly when the code and the name are given and not
    [NULL], no text has more characters than its column and the code is not
    taken; the item then shows in the view, next to the rows that were there,
    with the defaults for what was left out, no stock, and its creation time
    as last sync. *)
Theorem insert_items_shown collate_le now v db :
  reachable db → ¬ items_values_cut v →
  (is_Some (insert_items now v db) ↔
     ∃ code name,
       iv_item_code v = Given (Some code) ∧ iv_item_name v = Given (Some name)
       ∧ varchar_fits 100 code ∧ varchar_fits 255 name
       ∧ null_or (varchar_fits 100) (inserted (Some "General") (iv_category v))
       ∧ null_or (varchar_fits 50) (inserted (Some "Nos") (iv_unit v))
       ∧ code ∉ i_item_code <$> items db)
  ∧ (∀ db', insert_items now v db = Some db' →
       ∃ code name,
         iv_item_code v = Given (Some code) ∧ iv_item_name v = Given (Some name)
         ∧ ∀ r, r ∈ inventory_view collate_le db' ↔
             r ∈ inventory_view collate_le db
             ∨ r = {| v_id := uuid_seed db; v_item_code := code; v_item_name := name;
                      v_category := inserted (Some "General") (iv_category v);
                      v_unit := inserted (Some "Nos") (iv_unit v);
                      v_current_stock := 0%Z; v_physical_baseline := 0%Z;
                      v_tally_delta := 0%Z;
                      v_last_sync := inserted (Some now) (iv_created_at v);
                      v_sync_source := "manual" |}).
Proof.
  intros Hdb%reachable_constraints _. split.
  - unfold insert_items, items_proposed. split.
    + intros [db' Hins].
      destruct (iv_item_code v) as [|[code|]], (iv_item_name v) as [|[name|]];
        simplify_option_eq. by exists code, name.
    + intros (code & name & -> & -> & ? & ? & ? & ? & ?). simpl.
      rewrite !option_guard_True by done. simpl.
      rewrite option_guard_True by done. done.
  - intros db' (row & Hrow & Hfree & ->)%insert_items_Some.
    apply items_proposed_Some in Hrow
      as (Hid & Hcode & Hname & Hcat & Hunit & Hcreated & _).
    exists (i_item_code row), (i_item_name row). split_and!; [done..|].
    intros r. rewrite !elem_of_inventory_view. simpl. split.
    + intros (i & osl & [Hi|Hi%list_elem_of_singleton]%elem_of_app & Hosl & ->).
      * left. by exists i, osl.
      * right. subst i. destruct osl as [sl|].
        { destruct Hosl as [Hsl Hsid].
          by apply (fresh_id_no_stock_level db sl (i_id row)) in Hsl; [|done|lia]. }
        simpl. by rewrite Hid, Hcat, Hunit, Hcreated.
    + intros [(i & osl & Hi & Hosl & ->)| ->].
      * exists i, osl. split; [|done]. apply elem_of_app. by left.
      * exists row, None. split_and!.
        { apply elem_of_app. right. by apply list_elem_of_singleton. }
        { intros sl Hsl. apply (fresh_id_no_stock_level db); [done..|lia]. }
        simpl. by rewrite Hid, Hcat, Hunit, Hcreated.
Qed.

Lemma insert_items_shown_witness :
  let v := {| iv_item_code := Given (Some "WIPER001");
              iv_item_name := Given (Some "Essuie-glace arrière");
              iv_category := Omitted; iv_unit := Given None;
              iv_created_at := Omitted; iv_updated_at := Omitted |} in
  reachable Fixtures.sample_data
  ∧ ¬ items_values_cut v
  ∧ is_Some (insert_items 1700000100000000%Z v Fixtures.sample_data).
Proof.
  intros v.
  assert (¬ items_values_cut v) as Hcut
    by (apply (bool_decide_eq_false_1 (items_values_cut v)); vm_compute; reflexivity).
  split; [exact FixtureFacts.reachable_sample_data|]. split; [exact Hcut|].
  apply (proj1 (insert_items_shown String.leb _ _ _
                  FixtureFacts.reachable_sample_data Hcut)).
  exists "WIPER001", "Essuie-glace arrière". split_and!; try done.
  - unfold varchar_fits. simpl. lia.
  - unfold varchar_fits. simpl. lia.
  - unfold varchar_fits. simpl. lia.
  - vm_compute. intros H. repeat (apply elem_of_cons in H as [[=]|H]).
    by apply elem_of_nil in H.
Defined.

(** [DELETE FROM items] takes the item's row out of the view and its stock
    level out of [stock_levels] ([ON DELETE CASCADE]), and nothing else;
    deleting an id that no item has changes nothing. *)
Theorem delete_items_shown collate_le id db :
  reachable db →
  (∀ r, r ∈ inventory_view collate_le (delete_items id db) ↔
        r ∈ inventory_view collate_le db ∧ v_id r ≠ id)
  ∧ (∀ sl, sl ∈ stock_levels (delete_items id db) ↔
           sl ∈ stock_levels db ∧ sl_item_id sl ≠ Some id)
  ∧ (id ∉ i_id <$> items db → delete_items id db = db).
Proof.
  intros Hdb%reachable_constraints. split_and!.
  - intros r. rewrite !elem_of_inventory_view. simpl. split.
    + intros (i & osl & [Hid Hi]%list_elem_of_filter & Hosl & ->). split; [|done].
      exists i, osl. split_and!; [done| |done].
      destruct osl as [sl|].
      * destruct Hosl as [[_ Hsl]%list_elem_of_filter Hsid]. done.
      * intros sl Hsl Hsid. apply (Hosl sl); [|done].
        apply list_elem_of_filter. split; [|done]. rewrite Hsid. congruence.
    + intros [(i & osl & Hi & Hosl & ->) Hid]. simpl in Hid.
      exists i, osl. split_and!; [by apply list_elem_of_filter| |done].
      destruct osl as [sl|].
      * destruct Hosl as [Hsl Hsid]. split; [|done].
        apply list_elem_of_filter. split; [|done]. rewrite Hsid. congruence.
      * intros sl [_ Hsl]%list_elem_of_filter. by apply Hosl.
  - intros sl. simpl. rewrite list_elem_of_filter. tauto.
  - intros Hid. destruct db as [is_ sls lgs seed]. unfold delete_items. simpl in *.
    f_equal.
    + apply filter_all, Forall_forall. intros i Hi Heq.
      apply Hid, list_elem_of_fmap. by exists i.
    + apply filter_all, Forall_forall. intros sl Hsl.
      by apply (absent_id_no_stock_level _ sl id Hdb).
Qed.

Lemma delete_items_shown_witness :
  reachable Fixtures.synced_data
  ∧ v_item_code <$> inventory_view String.leb (delete_items 2 Fixtures.synced_data)
    = ["FILTER001"; "BRAKE001"; "BRAKE002"; "SPARK001"]
  ∧ delete_items 7 Fixtures.synced_data = Fixtures.synced_data.
Proof.
  split; [exact FixtureFacts.reachable_synced_data|].
  split; [vm_compute; reflexivity|].
  apply (proj2 (proj2 (delete_items_shown String.leb 7 _
                         FixtureFacts.reachable_synced_data))).
  vm_compute. intros H. repeat (apply elem_of_cons in H as [[=]|H]).
  by apply elem_of_nil in H.
Defined.

(** An upsert on a code that is taken updates the item in place: the trigger
    stamps [updated_at] with the time of the statement, whatever the statement
    gives for it; the id and the code stay, so that the stock level remains
    the item's; no other item and no stock level changes. *)
Theorem upsert_items_in_place now v db db' code :
  iv_item_code v = Given (Some code) →
  code ∈ i_item_code <$> items db →
  upsert_items now v db = Some db' →
  i_id <$> items db' = i_id <$> items db
  ∧ i_item_code <$> items db' = i_item_code <$> items db
  ∧ stock_levels db' = stock_levels db
  ∧ (∀ new, new ∈ items db' → i_item_code new = code →
       i_updated_at new = Some now
       ∧ ∃ old, old ∈ items db ∧ i_item_code old = code ∧ i_id new = i_id old
           ∧ i_created_at new = updated (i_created_at old) (iv_created_at v)
           ∧ i_category new = updated (i_category old) (iv_category v)
           ∧ i_unit new = updated (i_unit old) (iv_unit v))
  ∧ (∀ i, i_item_code i ≠ code → i ∈ items db' ↔ i ∈ items db).
Proof.
  intros Hcode Hin (row & Hrow & Hcase)%upsert_items_Some.
  apply items_proposed_Some in Hrow as (_ & Hrowcode & _).
  rewrite Hcode in Hrowcode. injection Hrowcode as Heq. rewrite <-Heq in Hcase.
  rewrite decide_True in Hcase by done. subst db'. simpl.
  split_and!; [| |done| |].
  - rewrite <-list_fmap_compose. apply list_fmap_ext. intros _ old _. simpl.
    by case_decide.
  - rewrite <-list_fmap_compose. apply list_fmap_ext. intros _ old _. simpl.
    by case_decide.
  - intros new (old & -> & Hold)%list_elem_of_fmap Hnew.
    case_decide as Hc; simpl in *; [|done]. split; [done|].
    exists old. by split_and!.
  - intros i Hi. rewrite list_elem_of_fmap. split.
    + intros (old & -> & Hold). case_decide as Hc; [|done].
      simpl in Hi. by rewrite Hc in Hi.
    + intros Hold. exists i. split; [|done]. by rewrite decide_False.
Qed.

Lemma upsert_items_in_place_witness :
  let v := {| iv_item_code := Given (Some "OIL001");
              iv_item_name := Given (Some "Engine Oil 5W40");
              iv_category := Omitted; iv_unit := Omitted; iv_created_at := Omitted;
              iv_updated_at := Given (Some 0%Z) |} in
  ∃ db', upsert_items 1700000100000000%Z v Fixtures.sample_data = Some db'
    ∧ stock_levels db' = stock_levels Fixtures.sample_data
    ∧ (λ i, (i_item_name i, i_created_at i, i_updated_at i))
        <$> filter (λ i, i_item_code i = "OIL001") (items db')
      = [("Engine Oil 5W40", Some 1700000000000000%Z, Some 1700000100000000%Z)].
Proof.
  intros v.
  destruct (upsert_items 1700000100000000%Z v Fixtures.sample_data) as [db'|] eqn:Hup;
    [|by vm_compute in Hup].
  exists db'. split; [done|].
  assert ("OIL001" ∈ i_item_code <$> items Fixtures.sample_data) as Hin.
  { vm_compute. do 2 apply list_elem_of_further. apply list_elem_of_here. }
  split.
  - exact (proj1 (proj2 (proj2
      (upsert_items_in_place _ v _ db' "OIL001" eq_refl Hin Hup)))).
  - vm_compute in Hup. injection Hup as <-. vm_compute. reflexivity.
Defined.

(** A stock level without an item is stored but never shown: the view is
    what it was before the row came in.  It counts for the latest sync all
    the same, when its source is 'tally_sync'. *)
Theorem orphan_stock_level_not_shown collate_le now v db db' :
  insert_stock_levels now v db = Some db' →
  inserted None (slv_item_id v) = None →
  inventory_view collate_le db' = inventory_view collate_le db
  ∧ length (stock_levels db') = S (length (stock_levels db))
  ∧ get_latest_sync_timestamp db'
    = if decide (inserted (Some "manual") (slv_sync_source v) = Some "tally_sync")
      then MAX [get_latest_sync_timestamp db; inserted (Some now) (slv_last_sync v)]
      else get_latest_sync_timestamp db.
Proof.
  intros (row & Hrow & _ & _ & ->)%insert_stock_levels_Some Hnull.
  apply stock_levels_proposed_Some in Hrow
    as (_ & Hid & _ & _ & _ & Hlast & Hsource & _).
  rewrite Hnull in Hid. split_and!.
  - unfold inventory_view. simpl. do 2 f_equal.
    apply list_bind_ext; [|done]. intros i.
    unfold left_join_stock_levels. rewrite filter_app.
    rewrite (filter_cons_False _ row) by (rewrite Hid; done).
    by rewrite filter_nil, app_nil_r.
  - simpl. rewrite length_app. simpl. lia.
  - unfold get_latest_sync_timestamp. simpl. rewrite filter_app, <-Hsource, <-Hlast.
    case_decide as Hs.
    + rewrite (filter_cons_True _ row) by done.
      rewrite filter_nil, fmap_app.
      change (sl_last_sync <$> [row]) with [sl_last_sync row]. by rewrite MAX_snoc.
    + rewrite (filter_cons_False _ row) by done.
      by rewrite filter_nil, app_nil_r.
Qed.

Lemma orphan_stock_level_not_shown_witness :
  let v := {| slv_item_id := Omitted; slv_current_stock := Given (Some 7000%Z);
              slv_physical_baseline := Omitted; slv_tally_delta := Omitted;
              slv_last_sync := Omitted; slv_sync_source := Given (Some "tally_sync") |} in
  ∃ db', insert_stock_levels 1700000100000000%Z v Fixtures.sample_data = Some db'
    ∧ inventory_view String.leb db' = inventory_view String.leb Fixtures.sample_data
    ∧ get_latest_sync_timestamp Fixtures.sample_data = None
    ∧ get_latest_sync_timestamp db' = Some 1700000100000000%Z.
Proof.
  intros v.
  destruct (insert_stock_levels 1700000100000000%Z v Fixtures.sample_data) as [db'|] eqn:Hins;
    [|by vm_compute in Hins].
  exists db'. split; [done|].
  split; [exact (proj1 (orphan_stock_level_not_shown String.leb _ _ _ _ Hins eq_refl))|].
  split; [vm_compute; reflexivity|].
  vm_compute in Hins. injection Hins as <-. vm_compute. reflexivity.
Defined.

End StoreProperties.

(** ** The sample data *)

Module SampleDataFacts.
Import Schema SchemaFacts ViewFacts StoreFacts SampleData.

Lemma foldl_bind_None {A B} (f : B → A → option A) (l : list B) :
  foldl (λ a b, a ≫= f b) None l = None.
Proof. by induction l. Qed.

Lemma insert_items_rows_cons now v vs db :
  insert_items_rows now (v :: vs) db
  = insert_items now v db ≫= insert_items_rows now vs.
Proof.
  unfold insert_items_rows. simpl.
  destruct (insert_items now v db); [done|apply foldl_bind_None].
Qed.

Lemma insert_stock_levels_rows_cons now v vs db :
  insert_stock_levels_rows now (v :: vs) db
  = insert_stock_levels now v db ≫= insert_stock_levels_rows now vs.
Proof.
  unfold insert_stock_levels_rows. simpl.
  destruct (insert_stock_levels now v db); [done|apply foldl_bind_None].
Qed.

Lemma reachable_insert_items_rows now vs db db' :
  reachable db → insert_items_rows now vs db = Some db' → reachable db'.
Proof.
  unfold insert_items_rows. revert db. induction vs as [|v vs IH]; intros db Hdb; simpl.
  - by intros [= <-].
  - destruct (insert_items now v db) as [db1|] eqn:Hins.
    + apply IH. by apply (reachable_execute now (INSERT_items v) db).
    + by rewrite foldl_bind_None.
Qed.

Lemma reachable_insert_stock_levels_rows now vs db db' :
  reachable db → insert_stock_levels_rows now vs db = Some db' → reachable db'.
Proof.
  unfold insert_stock_levels_rows. revert db.
  induction vs as [|v vs IH]; intros db Hdb; simpl.
  - by intros [= <-].
  - destruct (insert_stock_levels now v db) as [db1|] eqn:Hins.
    + apply IH. by apply (reachable_execute now (INSERT_stock_levels v) db).
    + by rewrite foldl_bind_None.
Qed.

Lemma insert_items_sample now v db :
  v ∈ sample_items_values →
  insert_items now v db
  = if decide (i_item_code (sample_item_row now (uuid_seed db) v)
               ∈ i_item_code <$> items db)
    then None
    else Some {| items := items db ++ [sample_item_row now (uuid_seed db) v];
                 stock_levels := stock_levels db; sync_logs := sync_logs db;
                 uuid_seed := S (uuid_seed db) |}.
Proof.
  intros Hv. unfold sample_items_values in Hv.
  repeat (apply elem_of_cons in Hv as [->|Hv]); [..|by apply elem_of_nil in Hv];
    unfold insert_items, items_proposed, sample_item_row; simpl;
    (case_decide; [by rewrite option_guard_False by tauto|by rewrite option_guard_True]).
Qed.

Lemma sample_items_code now v :
  v ∈ sample_items_values →
  inserted None (iv_item_code v) = Some (i_item_code (sample_item_row now 0 v)).
Proof.
  intros Hv. unfold sample_items_values in Hv.
  repeat (apply elem_of_cons in Hv as [->|Hv]); [..|by apply elem_of_nil in Hv]; done.
Qed.

Lemma insert_items_rows_sample now vs db :
  vs ⊆ sample_items_values →
  match insert_items_rows now vs db with
  | Some db' =>
      NoDup (omap (λ v, inserted None (iv_item_code v)) vs)
      ∧ (∀ v, v ∈ vs → i_item_code (sample_item_row now 0 v) ∉ i_item_code <$> items db)
      ∧ items db' = items db ++ imap (λ k, sample_item_row now (uuid_seed db + k)) vs
      ∧ stock_levels db' = stock_levels db
      ∧ uuid_seed db' = uuid_seed db + length vs
  | None =>
      ¬ (NoDup (omap (λ v, inserted None (iv_item_code v)) vs)
         ∧ ∀ v, v ∈ vs → i_item_code (sample_item_row now 0 v) ∉ i_item_code <$> items db)
  end.
Proof.
  revert db. induction vs as [|v vs IH]; intros db Hvs.
  - simpl. split_and!; [constructor| |by rewrite app_nil_r|done|lia].
    intros v Hv. by apply elem_of_nil in Hv.
  - assert (v ∈ sample_items_values) as Hv by (apply Hvs, list_elem_of_here).
    assert (vs ⊆ sample_items_values) as Hvs'
      by (intros x Hx; by apply Hvs, list_elem_of_further).
    rewrite insert_items_rows_cons. cbn [omap list_omap].
    rewrite (sample_items_code now v Hv).
    rewrite (insert_items_sample now v db Hv).
    change (i_item_code (sample_item_row now (uuid_seed db) v))
      with (i_item_code (sample_item_row now 0 v)).
    destruct (decide (i_item_code (sample_item_row now 0 v) ∈ i_item_code <$> items db))
      as [Hin|Hout].
    { simpl. intros [_ Hfree].
      by apply (Hfree v); [apply list_elem_of_here|]. }
    cbn [mbind option_bind].
    set (db1 := {| items := items db ++ [sample_item_row now (uuid_seed db) v];
                   stock_levels := stock_levels db; sync_logs := sync_logs db;
                   uuid_seed := S (uuid_seed db) |}).
    specialize (IH db1 Hvs').
    assert (Some (i_item_code (sample_item_row now 0 v))
              ∈ (λ v, inserted None (iv_item_code v)) <$> vs ↔
            ∃ v', v' ∈ vs ∧ i_item_code (sample_item_row now 0 v')
                            = i_item_code (sample_item_row now 0 v)) as Hdup.
    { rewrite list_elem_of_fmap. split.
      - intros (v' & Hc & Hv'). exists v'. split; [done|].
        rewrite (sample_items_code now v') in Hc by by apply Hvs'. by injection Hc.
      - intros (v' & Hv' & Hc). exists v'. split; [|done].
        rewrite (sample_items_code now v') by by apply Hvs'. by rewrite Hc. }
    destruct (insert_items_rows now vs db1) as [db'|]; unfold db1 in IH; simpl in IH.
    + destruct IH as (Hnd & Hfree & Hitems & Hsls & Hseed). split_and!.
      * constructor; [|done]. rewrite elem_of_omap_Some, Hdup.
        intros (v' & Hv' & Hc). apply (Hfree v' Hv').
        rewrite fmap_app. apply elem_of_app. right.
        simpl. by apply list_elem_of_singleton.
      * intros v' [->|Hv']%elem_of_cons; [done|].
        intros Hin. apply (Hfree v' Hv'). rewrite fmap_app. apply elem_of_app. by left.
      * rewrite Hitems, <-app_assoc. f_equal. simpl. f_equal.
        { by rewrite Nat.add_0_r. }
        apply imap_ext. intros k x _. simpl. f_equal. lia.
      * done.
      * simpl. lia.
    + intros [Hnd Hfree]. apply IH. apply NoDup_cons in Hnd as [Hnotin Hnd].
      split; [done|]. intros v' Hv'. rewrite fmap_app, elem_of_app. simpl.
      intros [Hin|Hin%list_elem_of_singleton].
      * by apply (Hfree v'); [apply list_elem_of_further|].
      * apply Hnotin. rewrite elem_of_omap_Some, Hdup. by exists v'.
Qed.

Lemma sample_count_fits code : null_or decimal_fits (sample_count code).
Proof.
  unfold sample_count. repeat case_decide; simpl; try done;
    unfold decimal_fits; simpl; lia.
Qed.

Lemma insert_stock_levels_sample now i db :
  i ∈ items db →
  insert_stock_levels now (sample_stock_level_values i) db
  = if decide (Some (i_id i) ∈ sl_item_id <$> stock_levels db) then None
    else Some {| items := items db;
                 stock_levels :=
                   stock_levels db ++ [sample_stock_level_row now (uuid_seed db) i];
                 sync_logs := sync_logs db; uuid_seed := S (uuid_seed db) |}.
Proof.
  intros Hi. unfold insert_stock_levels, stock_levels_proposed. simpl.
  pose proof (sample_count_fits (i_item_code i)) as Hfits.
  rewrite !option_guard_True by (done || (unfold decimal_fits; simpl; lia)
                                 || (unfold varchar_fits; simpl; lia)).
  simpl. rewrite option_guard_True
    by (unfold references_items; simpl; apply list_elem_of_fmap; by exists i).
  simpl. unfold item_id_free. simpl. case_decide.
  - by rewrite option_guard_False by tauto.
  - by rewrite option_guard_True.
Qed.

Lemma insert_stock_levels_rows_sample now is_ db :
  NoDup (i_id <$> is_) → is_ ⊆ items db →
  match insert_stock_levels_rows now (sample_stock_level_values <$> is_) db with
  | Some db' =>
      Forall (λ i, Some (i_id i) ∉ sl_item_id <$> stock_levels db) is_
      ∧ items db' = items db
      ∧ stock_levels db'
        = stock_levels db
          ++ imap (λ k, sample_stock_level_row now (uuid_seed db + k)) is_
  | None => ¬ Forall (λ i, Some (i_id i) ∉ sl_item_id <$> stock_levels db) is_
  end.
Proof.
  revert db. induction is_ as [|i is_ IH]; intros db Hnd Hsub.
  - simpl. split_and!; [done..|by rewrite app_nil_r].
  - rewrite fmap_cons in Hnd. apply NoDup_cons in Hnd as [Hi Hnd].
    rewrite fmap_cons, insert_stock_levels_rows_cons.
    rewrite insert_stock_levels_sample by apply Hsub, list_elem_of_here.
    case_decide as Hin.
    { simpl. by intros [? _]%Forall_cons. }
    cbn [mbind option_bind].
    set (db1 := {| items := items db;
                   stock_levels :=
                     stock_levels db ++ [sample_stock_level_row now (uuid_seed db) i];
                   sync_logs := sync_logs db; uuid_seed := S (uuid_seed db) |}).
    assert (is_ ⊆ items db1) as Hsub1.
    { intros x Hx. by apply Hsub, list_elem_of_further. }
    specialize (IH db1 Hnd Hsub1).
    assert (∀ i', i' ∈ is_ →
              Some (i_id i') ∈ sl_item_id <$> stock_levels db1
              ↔ Some (i_id i') ∈ sl_item_id <$> stock_levels db) as Hsame.
    { intros i' Hi'. unfold db1. simpl. rewrite fmap_app, elem_of_app. simpl.
      rewrite list_elem_of_singleton. split; [|tauto].
      intros [?|[= Heq]]; [done|]. destruct Hi. apply list_elem_of_fmap.
      by exists i'. }
    destruct (insert_stock_levels_rows now (sample_stock_level_values <$> is_) db1) as [db'|].
    + destruct IH as (Hall & Hitems & Hsls). split_and!; [|done|].
      * constructor; [done|]. rewrite Forall_forall in Hall |- *.
        intros i' Hi'. rewrite <-(Hsame i' Hi'). by apply Hall.
      * rewrite Hsls. unfold db1. simpl. rewrite <-app_assoc. f_equal. simpl. f_equal.
        { by rewrite Nat.add_0_r. }
        apply imap_ext. intros k x _. simpl. f_equal. lia.
    + intros [_ Hall]%Forall_cons. apply IH.
      rewrite Forall_forall in Hall |- *.
      intros i' Hi'. rewrite (Hsame i' Hi'). by apply Hall.
Qed.

(** The statement of the sample data on a store: taken when no item has a
    stock level, and then one row more for each item. *)
Lemma insert_sample_stock_levels_rows now db :
  constraints db →
  match insert_sample_stock_levels now db with
  | Some db' =>
      (∀ i sl, i ∈ items db → sl ∈ stock_levels db → sl_item_id sl ≠ Some (i_id i))
      ∧ items db' = items db
      ∧ stock_levels db'
        = stock_levels db
          ++ imap (λ k, sample_stock_level_row now (uuid_seed db + k)) (items db)
  | None =>
      ¬ ∀ i sl, i ∈ items db → sl ∈ stock_levels db → sl_item_id sl ≠ Some (i_id i)
  end.
Proof.
  intros Hdb.
  assert (Forall (λ i, Some (i_id i) ∉ sl_item_id <$> stock_levels db) (items db)
          ↔ ∀ i sl, i ∈ items db → sl ∈ stock_levels db →
                    sl_item_id sl ≠ Some (i_id i)) as Hnone.
  { rewrite Forall_forall. split.
    - intros Hall i sl Hi Hsl Hid. apply (Hall i Hi), list_elem_of_fmap. by exists sl.
    - intros Hall i Hi (sl & Hid & Hsl)%list_elem_of_fmap. by apply (Hall i sl). }
  pose proof (insert_stock_levels_rows_sample now (items db) db
                (items_pkey _ Hdb) (λ _ H, H)) as Hrows.
  unfold insert_sample_stock_levels.
  destruct (insert_stock_levels_rows now (sample_stock_level_values <$> items db) db).
  - by rewrite <-Hnone.
  - by rewrite <-Hnone.
Qed.

(** The codes of the sample items. *)
Lemma sample_items_codes now :
  (λ v, i_item_code (sample_item_row now 0 v)) <$> sample_items_values
  = ["BRAKE001"; "BRAKE002"; "OIL001"; "FILTER001"; "SPARK001"].
Proof. reflexivity. Qed.

End SampleDataFacts.

Module SampleDataProperties.
Import Schema SchemaFacts ViewFacts StoreFacts SampleData SampleDataFacts.

(** [INSERT INTO stock_levels ... SELECT ... FROM items i] is taken exactly
    when no item has a stock level yet.  Every item then has one, entered by
    hand at the time of the statement, with the count of the sample for the
    five sample codes and [NULL]s, shown as 0, for any other item; and the
    statement cannot be run a second time. *)
Theorem insert_sample_stock_levels_once now db :
  reachable db →
  (is_Some (insert_sample_stock_levels now db) ↔
     ∀ i sl, i ∈ items db → sl ∈ stock_levels db → sl_item_id sl ≠ Some (i_id i))
  ∧ (∀ db', insert_sample_stock_levels now db = Some db' →
       items db' = items db
       ∧ (∀ collate_le r, r ∈ inventory_view collate_le db' →
            v_current_stock r = default 0%Z (sample_count (v_item_code r))
            ∧ v_physical_baseline r = v_current_stock r
            ∧ v_tally_delta r = 0%Z
            ∧ v_last_sync r = Some now
            ∧ v_sync_source r = "manual")
       ∧ (items db ≠ [] → ∀ now', insert_sample_stock_levels now' db' = None)).
Proof.
  intros Hreach. pose proof (reachable_constraints _ Hreach) as Hdb.
  pose proof (insert_sample_stock_levels_rows now db Hdb) as Hrows.
  split.
  - destruct (insert_sample_stock_levels now db) as [db'|].
    + split; [by intros _; apply Hrows|by eauto].
    + split; [by intros []|done].
  - intros db' Hins. rewrite Hins in Hrows.
    destruct Hrows as (Hall & Hitems & Hsls).
    assert (∀ i, i ∈ items db → ∃ id,
              sample_stock_level_row now id i ∈ stock_levels db') as Hhas.
    { intros i [k Hk]%list_elem_of_lookup. exists (uuid_seed db + k).
      rewrite Hsls. apply elem_of_app. right.
      by apply (elem_of_lookup_imap_2
                  (λ k, sample_stock_level_row now (uuid_seed db + k))). }
    split_and!; [done| |].
    + intros collate_le r (i & osl & Hi & Hosl & ->)%elem_of_inventory_view.
      rewrite Hitems in Hi. destruct osl as [sl|].
      * destruct Hosl as [Hsl Hsid]. rewrite Hsls in Hsl.
        apply elem_of_app in Hsl as [Hsl|Hsl]; [by destruct (Hall i sl Hi Hsl)|].
        apply elem_of_lookup_imap_1 in Hsl as (k & i' & -> & Hk).
        simpl in Hsid. injection Hsid as Hsid.
        assert (i' = i) as ->.
        { apply (PublicationFacts.NoDup_fmap_eq i_id (items db));
            [apply (items_pkey _ Hdb)|by eapply list_elem_of_lookup_2|done..]. }
        simpl. by destruct (sample_count (i_item_code i)).
      * destruct (Hhas i Hi) as [id Hrow]. by destruct (Hosl _ Hrow).
    + intros Hne now'.
      assert (reachable db') as Hreach'
        by by eapply reachable_insert_stock_levels_rows.
      pose proof (insert_sample_stock_levels_rows now' db'
                    (reachable_constraints _ Hreach')) as Hrows'.
      destruct (insert_sample_stock_levels now' db') as [db''|]; [|done].
      destruct Hrows' as (Hall' & _).
      destruct (items db) as [|i is_] eqn:His; [done|].
      destruct (Hhas i) as [id Hrow]; [apply list_elem_of_here|].
      apply (Hall' i _) in Hrow; [done|rewrite Hitems; apply list_elem_of_here].
Qed.

Lemma insert_sample_stock_levels_once_witness :
  reachable Fixtures.items_only
  ∧ is_Some (insert_sample_stock_levels 1700000000000000%Z Fixtures.items_only).
Proof.
  assert (reachable Fixtures.items_only) as Hdb.
  { apply FixtureFacts.reachable_script. constructor. }
  split; [exact Hdb|].
  apply (proj1 (insert_sample_stock_levels_once _ _ Hdb)).
  intros i sl _ Hsl. vm_compute in Hsl. by apply elem_of_nil in Hsl.
Defined.

(** The sample data of the schema goes into a store exactly when none of
    its five codes is taken and no item of the store has a stock level; once
    it is in, it cannot be loaded again. *)
Theorem sample_data_once now db :
  reachable db →
  (is_Some (load_sample_data now db) ↔
     (∀ code, code ∈ ["BRAKE001"; "BRAKE002"; "OIL001"; "FILTER001"; "SPARK001"] →
              code ∉ i_item_code <$> items db)
     ∧ (∀ i sl, i ∈ items db → sl ∈ stock_levels db → sl_item_id sl ≠ Some (i_id i)))
  ∧ (∀ db' now', load_sample_data now db = Some db' → load_sample_data now' db' = None).
Proof.
  intros Hreach. pose proof (reachable_constraints _ Hreach) as Hdb.
  assert ((∀ code, code ∈ ["BRAKE001"; "BRAKE002"; "OIL001"; "FILTER001"; "SPARK001"] →
                   code ∉ i_item_code <$> items db)
          ↔ ∀ v, v ∈ sample_items_values →
                 i_item_code (sample_item_row now 0 v) ∉ i_item_code <$> items db)
    as Hcodes.
  { rewrite <-(sample_items_codes now). split.
    - intros Hfree v Hv. apply Hfree, list_elem_of_fmap. by exists v.
    - intros Hfree code (v & -> & Hv)%list_elem_of_fmap. by apply Hfree. }
  pose proof (insert_items_rows_sample now sample_items_values db (λ _ H, H)) as Hrows.
  unfold load_sample_data. split.
  - rewrite Hcodes. destruct (insert_items_rows now sample_items_values db) as [db1|] eqn:Hins.
    + destruct Hrows as (_ & Hfree & Hitems & Hsls & _). simpl.
      assert (reachable db1) as Hreach1 by by eapply reachable_insert_items_rows.
      pose proof (insert_sample_stock_levels_rows now db1
                    (reachable_constraints _ Hreach1)) as Hlevels.
      rewrite Hitems, Hsls in Hlevels. split.
      * intros Hsome. destruct (insert_sample_stock_levels now db1); [|by destruct Hsome].
        destruct Hlevels as (Hnone & _). split; [done|].
        intros i sl Hi. apply Hnone, elem_of_app. by left.
      * intros [_ Hnone].
        destruct (insert_sample_stock_levels now db1); [done|]. destruct Hlevels.
        intros i sl [Hi|Hi]%elem_of_app Hsl; [by apply Hnone|].
        apply elem_of_lookup_imap_1 in Hi as (k & v & -> & _). simpl.
        apply (fresh_id_no_stock_level db); [done..|lia].
    + simpl. split; [by intros []|]. intros [Hfree _]. destruct Hrows. split; [|done].
      vm_compute. repeat (constructor; [by rewrite ?elem_of_cons, elem_of_nil;
                                         intros H; decompose [or] H|]).
      constructor.
  - intros db' now'.
    destruct (insert_items_rows now sample_items_values db) as [db1|] eqn:Hins; [simpl|done].
    intros Hsl.
    assert (reachable db1) as Hreach1 by by eapply reachable_insert_items_rows.
    pose proof (insert_sample_stock_levels_rows now db1
                  (reachable_constraints _ Hreach1)) as Hlevels.
    rewrite Hsl in Hlevels. destruct Hlevels as (_ & Hitems' & _).
    destruct Hrows as (_ & _ & Hitems & _).
    pose proof (insert_items_rows_sample now' sample_items_values db' (λ _ H, H)) as Hrows'.
    destruct (insert_items_rows now' sample_items_values db') as [db2|]; [|done].
    destruct Hrows' as (_ & Hfree' & _).
    destruct (Hfree' (sample_item_values "BRAKE001" "Brake Pads Front" "Brakes" "Set")).
    { apply list_elem_of_here. }
    rewrite Hitems', Hitems, fmap_app. apply elem_of_app. right.
    simpl. apply list_elem_of_here.
Qed.

Lemma sample_data_once_witness :
  reachable empty_database
  ∧ load_sample_data 1700000000000000%Z empty_database = Some Fixtures.sample_data
  ∧ load_sample_data 1700000000000001%Z Fixtures.sample_data = None.
Proof.
  split; [constructor|]. split; [vm_compute; reflexivity|].
  apply (proj2 (sample_data_once 1700000000000000%Z empty_database reachable_empty)).
  vm_compute. reflexivity.
Defined.

End SampleDataProperties.

(** ** The hook *)

Module HookFacts.
Import Client ClientFacts.

Lemma session_snoc be bes be' :
  session be (bes ++ [be'])
  = ((fetchItems be' (session be bes).1).1,
     (session be bes).2 ++ (fetchItems be' (session be bes).1).2).
Proof.
  unfold session. rewrite foldl_snoc.
  by destruct (fetchItems be' _).
Qed.


Lemma fetchItems_failed be st e :
  select_failure be = Some e →
  fetchItems be st
  = ({| items := items st; loading := false;
        error_ := Some (if instanceof_Error e then message e
                        else "Failed to fetch inventory");
        lastSync := lastSync st |},
     [from_select_order "inventory_view" "*" "item_name"]).
Proof.
  intros He. unfold fetchItems, from_inventory_view_select_order_item_name.
  by rewrite He.
Qed.

Lemma fetchItems_succeeded be st :
  select_failure be = None →
  fetchItems be st
  = ({| items := default [] (data (from_inventory_view_select_order_item_name be));
        loading := false; error_ := None;
        lastSync :=
          match error (rpc_get_latest_sync_timestamp be),
                data (rpc_get_latest_sync_timestamp be) with
          | None, Some syncData => Some (new_Date syncData)
          | _, _ => lastSync st
          end |},
     [from_select_order "inventory_view" "*" "item_name";
      rpc "get_latest_sync_timestamp"]).
Proof.
  intros He. unfold fetchItems, from_inventory_view_select_order_item_name.
  by rewrite He.
Qed.

End HookFacts.

Module HookProperties.
Import Client ClientFacts HookFacts Session.



(** The hook subscribes once, queries the view once for each fetch, and
    asks for the latest sync after each query of the view that succeeded,
    and only then. *)
Theorem session_requests be bes :
  (session be bes).2
  ≡ₚ channel_on_postgres_changes "*" "public" "stock_levels"
     :: ((be :: bes) ≫= λ be,
           from_select_order "inventory_view" "*" "item_name"
           :: if select_failure be is None then [rpc "get_latest_sync_timestamp"]
              else []).
Proof.
  set (sent := λ be : backend,
         from_select_order "inventory_view" "*" "item_name"
         :: if select_failure be is None then [rpc "get_latest_sync_timestamp"]
            else []).
  assert (∀ be st, (fetchItems be st).2 = sent be) as Hsent.
  { intros be0 st. unfold sent. destruct (select_failure be0) as [e|] eqn:He.
    - by rewrite (fetchItems_failed _ _ e He).
    - by rewrite (fetchItems_succeeded _ _ He). }
  assert ((session be bes).2
          = sent be ++ [channel_on_postgres_changes "*" "public" "stock_levels"]
            ++ (bes ≫= sent)) as ->.
  { induction bes as [|be' bes IH] using rev_ind.
    - unfold session, useEffect. simpl.
      pose proof (Hsent be useInventory_initial) as Hfirst.
      destruct (fetchItems be useInventory_initial). simpl in *. by rewrite Hfirst.
    - rewrite session_snoc. cbn [snd]. rewrite IH, Hsent, bind_app.
      cbn [mbind list_bind]. by rewrite app_nil_r, <-!app_assoc. }
  rewrite bind_cons. fold (sent be).
  rewrite app_assoc, <-(Permutation_cons_append (sent be)). done.
Qed.

(** The items a fetch leaves in the hook are one for each item of the
    store: no two of them have the same id, the key of their cards. *)
Theorem fetched_items_distinct be st :
  Schema.reachable (database be) → select_failure be = None →
  id <$> items (fetchItems be st).1 ≡ₚ Schema.i_id <$> Schema.items (database be)
  ∧ NoDup (id <$> items (fetchItems be st).1).
Proof.
  intros Hdb Hselect. rewrite (fetchItems_items be st Hselect).
  pose proof (SchemaFacts.reachable_constraints _ Hdb) as Hcs.
  assert (id <$> (InventoryItem_of_row <$>
            Schema.ORDER_BY (collate_le be) Schema.v_item_name
              (Schema.inventory_view (collate_le be) (database be)))
          ≡ₚ Schema.i_id <$> Schema.items (database be)) as Hperm.
  { rewrite <-list_fmap_compose. unfold Schema.inventory_view, Schema.ORDER_BY.
    rewrite !merge_sort_Permutation.
    change (id ∘ InventoryItem_of_row) with Schema.v_id.
    by rewrite StoreFacts.v_id_left_join
      by apply (Schema.stock_levels_item_id_key _ Hcs). }
  split; [done|]. rewrite Hperm. apply (Schema.items_pkey _ Hcs).
Qed.

Lemma fetched_items_distinct_witness :
  Schema.reachable (database Fixtures.sample_backend)
  ∧ select_failure Fixtures.sample_backend = None
  ∧ NoDup (id <$> items (fetchItems Fixtures.sample_backend useInventory_initial).1).
Proof.
  split; [exact FixtureFacts.reachable_sample_data|]. split; [reflexivity|].
  exact (proj2 (fetched_items_distinct Fixtures.sample_backend useInventory_initial
                  FixtureFacts.reachable_sample_data eq_refl)).
Defined.

End HookProperties.

(** ** The hook while fetches overlap *)

Module FetchesFacts.
Import Client ClientFacts HookFacts Fetches.

Lemma run_snoc es e : run (es ++ [e]) = handle (run es) e.
Proof. unfold run. by rewrite foldl_snoc. Qed.

Lemma possible_app h es1 es2 :
  possible h (es1 ++ es2) ↔ possible h es1 ∧ possible (foldl handle h es1) es2.
Proof.
  revert h. induction es1 as [|e es1 IH]; intros h; simpl; [tauto|].
  rewrite IH. tauto.
Qed.

Lemma since_nil P Q : ¬ since P Q [].
Proof. intros (es1 & e & es2 & Heq & _). by destruct es1. Qed.

Lemma since_snoc P Q es e :
  since P Q (es ++ [e]) ↔ P e ∨ (¬ Q e ∧ since P Q es).
Proof.
  split.
  - intros (es1 & e' & es2 & Heq & HP & HQ).
    destruct es2 as [|e2 es2 _] using rev_ind.
    + apply (app_inj_tail es es1 e e') in Heq as [_ ->]. by left.
    + rewrite app_comm_cons, app_assoc in Heq.
      apply app_inj_tail in Heq as [-> ->].
      apply Forall_app in HQ as [HQ He2%Forall_inv].
      right. split; [done|]. by exists es1, e', es2.
  - intros [HP|[HQ (es1 & e' & es2 & -> & HP & HQs)]].
    + exists es, e, []. by split_and!.
    + exists es1, e', (es2 ++ [e]). split_and!; [|done|].
      * by rewrite <-app_assoc.
      * apply Forall_app. split; [done|]. by apply Forall_singleton.
Qed.

(** What an event that happens writes to the cell [error]. *)
Lemma error_handle h e text :
  effective h e →
  error_ (cells (handle h e)) = Some text ↔
  fails_with text e ∨ (¬ (begins e ∨ fails e) ∧ error_ (cells h) = Some text).
Proof.
  intros He. destruct e as [|k be|k be]; simpl.
  - unfold begins. split; [done|]. intros [[]|[Hno _]]. destruct Hno. by left.
  - rewrite decide_True by done.
    unfold after_select, from_inventory_view_select_order_item_name.
    destruct (select_failure be) as [err|]; simpl.
    + split; [by left|]. intros [?|[Hno _]]; [done|]. destruct Hno. by right.
    + split.
      * intros Herr. right. split; [|done]. by intros [[=]|[]].
      * by intros [[=]|[_ ?]].
  - rewrite decide_True by done. simpl. split.
    + intros Herr. right. split; [|done]. by intros [[=]|[]].
    + by intros [[]|[_ ?]].
Qed.

(** What an event that happens writes to the cell [loading]. *)
Lemma loading_handle h e :
  effective h e →
  loading (cells (handle h e)) = false ↔
  returns e ∨ (¬ begins e ∧ loading (cells h) = false).
Proof.
  intros He. destruct e as [|k be|k be]; simpl.
  - unfold begins. split; [done|]. by intros [[]|[Hno _]].
  - rewrite decide_True by done.
    unfold after_select, from_inventory_view_select_order_item_name.
    destruct (select_failure be) as [err|]; simpl.
    + split; [by left|done].
    + split.
      * intros Hl. right. by split.
      * by intros [[]|[_ ?]].
  - rewrite decide_True by done. simpl. split; [by left|done].
Qed.

Lemma error_kept h e :
  effective h e → ¬ begins e → ¬ fails e →
  error_ (cells (handle h e)) = error_ (cells h).
Proof.
  intros He Hb Hf. destruct e as [|k be|k be]; simpl in *.
  - by destruct Hb.
  - rewrite decide_True by done.
    unfold after_select, from_inventory_view_select_order_item_name.
    destruct (select_failure be); [by destruct Hf|done].
  - by rewrite decide_True by done.
Qed.

Lemma error_since es text :
  possible mounted es →
  error_ (cells (run es)) = Some text ↔
  since (fails_with text) (λ e, begins e ∨ fails e) es.
Proof.
  induction es as [|e es IH] using rev_ind; intros Hes.
  - split; [done|]. by intros ?%since_nil.
  - apply possible_app in Hes as [Hes [He _]].
    rewrite run_snoc, since_snoc, error_handle, IH by done. done.
Qed.

Lemma loading_since es :
  possible mounted es →
  loading (cells (run es)) = false ↔ since returns begins es.
Proof.
  induction es as [|e es IH] using rev_ind; intros Hes.
  - split; [done|]. by intros ?%since_nil.
  - apply possible_app in Hes as [Hes [He _]].
    rewrite run_snoc, since_snoc, loading_handle, IH by done. done.
Qed.

(** A query that has failed, with no call begun since, has returned. *)
Lemma since_fails_returns text es :
  since (fails_with text) (λ e, begins e ∨ fails e) es → since returns begins es.
Proof.
  intros (es1 & e & es2 & -> & He & Hes2). exists es1, e, es2. split_and!; [done| |].
  - destruct e as [|k be|k be]; simpl in *; try done.
    by destruct (select_failure be).
  - eapply Forall_impl; [done|]. simpl. tauto.
Qed.

(** A call made alone, from a hook whose calls have returned, does what
    [fetchItems] does in one step; [extra] is what the caller sends while
    the call is at its first [await]. *)
Lemma alone_fetchItems h extra be :
  Forall (λ s, s = returned) (calls h) →
  let hb := {| cells := cells (begin h); calls := calls (begin h);
               sent := sent (begin h) ++ extra |} in
  let h' := foldl handle hb (alone (length (calls h)) be) in
  possible hb (alone (length (calls h)) be)
  ∧ cells h' = (fetchItems be (cells h)).1
  ∧ sent h' ≡ₚ sent h ++ (fetchItems be (cells h)).2 ++ extra
  ∧ Forall (λ s, s = returned) (calls h')
  ∧ length (calls h') = S (length (calls h)).
Proof.
  intros Hcalls. unfold alone. simpl.
  assert ((calls h ++ [awaits_select]) !! length (calls h) = Some awaits_select)
    as Hlookup by by rewrite lookup_app_r, Nat.sub_diag.
  assert (∀ s s', <[length (calls h) := s']> (calls h ++ [s]) = calls h ++ [s'])
    as Hinsert.
  { intros s s'. by rewrite insert_app_r_alt, Nat.sub_diag by lia. }
  assert (∀ s, Forall (λ s, s = returned) (calls h ++ [s]) ↔ s = returned) as Hall.
  { intros s. rewrite Forall_app, Forall_singleton. tauto. }
  assert (∀ s, length (calls h ++ [s]) = S (length (calls h))) as Hlen.
  { intros s. rewrite length_app. simpl. lia. }
  destruct (select_failure be) as [err|] eqn:Hsel; simpl.
  - rewrite decide_True by done.
    unfold after_select, from_inventory_view_select_order_item_name. rewrite Hsel.
    simpl. rewrite (fetchItems_failed _ _ err Hsel), Hinsert, Hall, Hlen. simpl.
    split_and!; try done. by rewrite <-app_assoc.
  - rewrite decide_True by done.
    unfold after_select, from_inventory_view_select_order_item_name.
    rewrite Hsel. simpl. rewrite Hinsert.
    assert ((calls h ++ [awaits_rpc]) !! length (calls h) = Some awaits_rpc)
      as Hlookup' by by rewrite lookup_app_r, Nat.sub_diag.
    rewrite decide_True by done. simpl.
    rewrite (fetchItems_succeeded _ _ Hsel), Hinsert, Hall, Hlen. simpl.
    unfold from_inventory_view_select_order_item_name. rewrite Hsel. simpl.
    split_and!; try done.
    rewrite <-!app_assoc. apply Permutation_app_head. simpl.
    apply perm_skip. by rewrite <-Permutation_cons_append.
Qed.

Lemma one_after_the_other_snoc be bes be' :
  one_after_the_other be (bes ++ [be'])
  = one_after_the_other be bes
    ++ fetchItems_begins :: alone (S (length bes)) be'.
Proof.
  unfold one_after_the_other. rewrite imap_app, join_app. simpl.
  by rewrite Nat.add_0_r, app_nil_r, <-app_assoc.
Qed.

End FetchesFacts.

Module FetchesProperties.
Import Client ClientFacts HookFacts Fetches FetchesFacts.

(** However the calls of [fetchItems] overlap, the error of the hook is the
    message of the latest query of the view that failed, unless a call has
    begun since, which clears it.  An answer that succeeds clears nothing:
    the error of a call stays when a call begun after it has succeeded.  And
    the hook is not loading exactly when a call has returned since the last
    one began, whether or not other calls are still at an [await]. *)
Theorem error_while_fetches_overlap es :
  possible mounted es →
  (∀ text, error_ (cells (run es)) = Some text ↔
     since (fails_with text) (λ e, begins e ∨ fails e) es)
  ∧ (loading (cells (run es)) = false ↔ since returns begins es)
  ∧ (∀ es', possible mounted (es ++ es') →
       Forall (λ e, ¬ begins e ∧ ¬ fails e) es' →
       error_ (cells (run (es ++ es'))) = error_ (cells (run es))).
Proof.
  intros Hes. split_and!.
  - intros text. by apply error_since.
  - by apply loading_since.
  - intros es' Hes' Hquiet.
    induction es' as [|e es' IH] using rev_ind; [by rewrite app_nil_r|].
    rewrite app_assoc in Hes' |- *.
    apply possible_app in Hes' as [Hes' [He _]].
    apply Forall_app in Hquiet as [Hquiet [Hb Hf]%Forall_inv].
    rewrite run_snoc, <-IH by done. by apply error_kept.
Qed.

Lemma error_while_fetches_overlap_witness :
  let answers failure :=
    {| database := Fixtures.sample_data; collate_le := String.leb;
       select_failure := failure; rpc_failure := None; auth_role := Schema.anon |} in
  let failed :=
    answers (Some {| instanceof_Error := true; message := "JWT expired" |}) in
  let es := [fetchItems_begins; select_resumes 0 failed;
             select_resumes 1 (answers None); rpc_resumes 1 (answers None)] in
  possible mounted es
  ∧ calls (run es) = [returned; returned]
  ∧ error_ (cells (run es)) = Some "JWT expired"
  ∧ loading (cells (run es)) = false.
Proof.
  intros answers failed es.
  assert (possible mounted es) as Hes by (vm_compute; tauto).
  split; [exact Hes|]. split; [reflexivity|].
  destruct (error_while_fetches_overlap es Hes) as (Herror & Hloading & _).
  split.
  - apply Herror.
    exists [fetchItems_begins], (select_resumes 0 failed),
      [select_resumes 1 (answers None); rpc_resumes 1 (answers None)].
    split_and!; [done..|].
    repeat constructor; by intros [|[]].
  - apply Hloading.
    exists [fetchItems_begins; select_resumes 0 failed; select_resumes 1 (answers None)],
      (rpc_resumes 1 (answers None)), [].
    by split_and!.
Defined.

(** When the calls do not overlap, each begun when the one before has
    returned, the hook is the one of [session]: the same cells after the same
    requests, and no call left at an [await]. *)
Theorem fetches_one_after_the_other be bes :
  let h := run (one_after_the_other be bes) in
  possible mounted (one_after_the_other be bes)
  ∧ cells h = (session be bes).1
  ∧ sent h ≡ₚ (session be bes).2
  ∧ Forall (λ s, s = returned) (calls h)
  ∧ length (calls h) = S (length bes).
Proof.
  induction bes as [|be' bes IH] using rev_ind.
  - assert (one_after_the_other be [] = alone 0 be) as ->
      by apply app_nil_r.
    assert (possible mounted (alone 0 be)
            ∧ cells (run (alone 0 be)) = (fetchItems be useInventory_initial).1
            ∧ sent (run (alone 0 be))
              ≡ₚ (fetchItems be useInventory_initial).2
                 ++ [channel_on_postgres_changes "*" "public" "stock_levels"]
            ∧ Forall (λ s, s = returned) (calls (run (alone 0 be)))
            ∧ length (calls (run (alone 0 be))) = 1)
      as (Hp & Hc & Hs & Hr & Hl).
    { exact (alone_fetchItems
               {| cells := useInventory_initial; calls := []; sent := [] |}
               [channel_on_postgres_changes "*" "public" "stock_levels"] be
               (Forall_nil_2 _)). }
    unfold session, useEffect. cbn [foldl].
    destruct (fetchItems be useInventory_initial) as [st sent0].
    by split_and!.
  - destruct IH as (Hp & Hc & Hs & Hr & Hl).
    rewrite one_after_the_other_snoc. cbv zeta. unfold run. rewrite foldl_app.
    fold (run (one_after_the_other be bes)).
    set (h := run (one_after_the_other be bes)) in *. cbv zeta in Hc, Hs, Hr, Hl.
    assert (possible (begin h) (alone (length (calls h)) be')
            ∧ cells (foldl handle (begin h) (alone (length (calls h)) be'))
              = (fetchItems be' (cells h)).1
            ∧ sent (foldl handle (begin h) (alone (length (calls h)) be'))
              ≡ₚ sent h ++ (fetchItems be' (cells h)).2 ++ []
            ∧ Forall (λ s, s = returned)
                (calls (foldl handle (begin h) (alone (length (calls h)) be')))
            ∧ length (calls (foldl handle (begin h) (alone (length (calls h)) be')))
              = S (length (calls h)))
      as (Hp' & Hc' & Hs' & Hr' & Hl').
    { pose proof (alone_fetchItems h [] be' Hr) as Halone. cbv zeta in Halone.
      assert ({| cells := cells (begin h); calls := calls (begin h);
                 sent := sent (begin h) ++ [] |} = begin h) as Heta
        by by rewrite app_nil_r.
      by rewrite Heta in Halone. }
    rewrite Hl in Hp', Hc', Hs', Hr', Hl'.
    rewrite session_snoc, possible_app, length_app.
    change (foldl handle h (fetchItems_begins :: ?es))
      with (foldl handle (begin h) es).
    change (possible (foldl handle mounted (one_after_the_other be bes))
              (fetchItems_begins :: ?es))
      with (True ∧ possible (begin h) es).
    cbn [fst snd length]. rewrite Nat.add_1_r.
    split_and!; try done.
    + by rewrite Hc', Hc.
    + by rewrite Hs', app_nil_r, Hs, Hc.
Qed.

End FetchesProperties.

(** ** The list components *)

Module JSFacts.
Import Client JS.

Local Open Scope Z_scope.

Lemma length_append s t :
  String.length (s +:+ t) = (String.length s + String.length t)%nat.
Proof. induction s as [|a s IH]; simpl; [done|by rewrite IH]. Qed.

Lemma append_not_Never s t :
  String.length t = 5%nat → t ≠ "Never" → s +:+ t ≠ "Never".
Proof.
  intros Hlen Ht Heq. destruct s as [|a s]; [done|].
  apply (f_equal String.length) in Heq. rewrite length_append in Heq.
  simpl in Heq. lia.
Qed.

Lemma prefix_append s t : String.prefix s t = true ↔ ∃ post, t = s +:+ post.
Proof.
  revert t. induction s as [|a s IH]; intros t; simpl.
  - destruct t; split; eauto.
  - destruct t as [|b t]; [split; [done|by intros [? [=]]]|].
    simpl. destruct (Ascii.ascii_dec a b) as [->|Hne].
    + rewrite IH. split; intros [post Hpost]; exists post; [by rewrite Hpost|].
      by injection Hpost.
    + split; [done|]. intros [post [= -> _]]. done.
Qed.

(** [includes] is the substring relation. *)
Lemma includes_spec s t :
  includes s t = true ↔ ∃ pre post, s = pre +:+ t +:+ post.
Proof.
  induction s as [|a s IH]; cbn [includes].
  - rewrite orb_false_r, prefix_append. split.
    + intros [post ->]. by exists "", post.
    + intros ([|] & post & Heq); [by exists post|done].
  - rewrite orb_true_iff, IH, prefix_append. split.
    + intros [[post ->]|(pre & post & ->)].
      * by exists "", post.
      * by exists (String a pre), post.
    + intros ([|b pre] & post & Heq).
      * left. by exists post.
      * right. injection Heq as -> ->. by exists pre, post.
Qed.

Lemma includes_empty s : includes s "" = true.
Proof. apply includes_spec. by exists "", s. Qed.

Lemma elem_of_new_Set {A} `{EqDecision A} (l : list A) x : x ∈ new_Set l ↔ x ∈ l.
Proof.
  induction l as [|y l IH]; simpl; [done|].
  rewrite !elem_of_cons, list_elem_of_filter, IH.
  destruct (decide (x = y)); tauto.
Qed.

Lemma NoDup_new_Set {A} `{EqDecision A} (l : list A) : NoDup (new_Set l).
Proof.
  induction l as [|y l IH]; simpl; [constructor|].
  constructor; [|by apply NoDup_filter].
  rewrite list_elem_of_filter. tauto.
Qed.

Lemma sort_insert_Permutation {A} (le : A → A → bool) x l :
  sort_insert le x l ≡ₚ x :: l.
Proof.
  induction l as [|y l IH]; simpl; [done|].
  destruct (le x y); [done|]. by rewrite IH, Permutation_swap.
Qed.

Lemma sort_by_Permutation {A} (le : A → A → bool) l : sort_by le l ≡ₚ l.
Proof.
  induction l as [|x l IH]; simpl; [done|].
  by rewrite sort_insert_Permutation, IH.
Qed.

Lemma sort_insert_Sorted {A} (le : A → A → bool) x l :
  (∀ a b, le a b ∨ le b a) →
  Sorted (λ a b, le a b) l → Sorted (λ a b, le a b) (sort_insert le x l).
Proof.
  intros Htotal. induction 1 as [|y l Hl IH Hy]; simpl.
  - by repeat constructor.
  - destruct (le x y) eqn:Hxy.
    + constructor; [by constructor|]. constructor. by rewrite Hxy.
    + constructor; [done|].
      assert (le y x) as Hyx.
      { destruct (Htotal x y) as [H|H]; [by rewrite Hxy in H|done]. }
      destruct Hy as [|z l' Hz]; simpl; [by constructor|].
      destruct (le x z); by constructor.
Qed.

Lemma sort_by_Sorted {A} (le : A → A → bool) l :
  (∀ a b, le a b ∨ le b a) → Sorted (λ a b, le a b) (sort_by le l).
Proof.
  intros Htotal. induction l as [|x l IH]; simpl; [constructor|].
  by apply sort_insert_Sorted.
Qed.

Lemma code_units_leb_total x y : code_units_leb x y ∨ code_units_leb y x.
Proof.
  revert y. induction x as [|a x IH]; intros [|b y]; simpl; auto.
  destruct (N.ltb_spec a b), (N.ltb_spec b a); auto; lia.
Qed.

Lemma string_leb_total x y : string_leb x y ∨ string_leb y x.
Proof. apply code_units_leb_total. Qed.

(** The order of the code units is not the order of the bytes: the
    grinning face [U+1F600], a pair of surrogates, sorts before the
    fullwidth A [U+FF21], and its bytes after. *)
Example string_leb_surrogates :
  code_units "😀" = [55357; 56832]%N ∧ code_units "Ａ" = [65313]%N
  ∧ string_leb "😀" "Ａ" = true ∧ string_leb "Ａ" "😀" = false
  ∧ String.leb "Ａ" "😀" = true
  ∧ sort [Some "b"; Some "Ａ"; None; Some "😀"; Some "All"]
    = [Some "All"; Some "b"; None; Some "😀"; Some "Ａ"].
Proof. vm_compute. done. Qed.

Lemma slice_take_drop {A} (start end_ : Z) (l : list A) :
  0 ≤ start → 0 ≤ end_ →
  slice start end_ l = take (Z.to_nat (end_ - start)) (drop (Z.to_nat start) l).
Proof.
  intros Hs He. unfold slice, relative_index.
  rewrite !(proj2 (Z.ltb_ge _ _)) by lia.
  destruct (decide (start ≤ Z.of_nat (length l))) as [Hle'|Hgt'].
  - rewrite (Z.min_l start) by lia.
    destruct (decide (end_ ≤ Z.of_nat (length l))) as [Hle|Hgt].
    + by rewrite (Z.min_l end_) by lia.
    + rewrite (Z.min_r end_) by lia.
      rewrite !take_ge; [done|rewrite length_drop; lia..].
  - rewrite (Z.min_r start) by lia.
    rewrite !drop_ge by lia. by rewrite !take_nil.
Qed.

Lemma lookup_take_drop {A} (l : list A) (n s j : nat) :
  take n (drop s l) !! j = if decide (j < n)%nat then l !! (s + j)%nat else None.
Proof.
  case_decide.
  - by rewrite lookup_take_lt, lookup_drop.
  - by rewrite lookup_take_ge by lia.
Qed.

Lemma Math_ceil_div_bounds a b :
  0 < b → b * (Math_ceil_div a b - 1) < a ≤ b * Math_ceil_div a b.
Proof.
  intros Hb. unfold Math_ceil_div.
  pose proof (Z.div_mod (- a) b ltac:(lia)).
  pose proof (Z.mod_pos_bound (- a) b ltac:(lia)). nia.
Qed.

Lemma Math_floor_div_bounds a b :
  0 < b → b * Math_floor_div a b ≤ a < b * (Math_floor_div a b + 1).
Proof.
  intros Hb. unfold Math_floor_div.
  pose proof (Z.div_mod a b ltac:(lia)).
  pose proof (Z.mod_pos_bound a b ltac:(lia)). nia.
Qed.

End JSFacts.

Module ComponentFacts.
Import Client ClientFacts JS JSFacts Component.

Local Open Scope Z_scope.

(** Comparing the number of a stored decimal with an integer: the decimal
    itself decides. *)
Lemma number_leb_of_decimal d k :
  decimal_fits d →
  number_leb (number_of_decimal d) (literal k) = bool_decide (d ≤ 1000 * k)
  ∧ number_leb (literal k) (number_of_decimal d) = bool_decide (1000 * k ≤ d).
Proof.
  intros Hd. destruct (decide (d = 0)) as [->|Hne].
  { unfold number_leb. simpl. rewrite !Z.mul_1_r.
    split; (match goal with |- (?a <=? ?b) = _ => destruct (Z.leb_spec a b) end;
            [rewrite bool_decide_eq_true_2 by lia|rewrite bool_decide_eq_false_2 by lia];
            done). }
  destruct (number_of_decimal_normal d Hd Hne) as (m & s & Hs & Hm & -> & Hnear).
  unfold number_leb, literal. simpl.
  rewrite !Z.min_l, !Z.min_r, Z.sub_diag, Z.sub_opp_r, Z.add_0_l by lia.
  change (2 ^ 0) with 1. rewrite !Z.mul_1_r.
  assert (2 ^ 11 ≤ 2 ^ s) as Hp by (apply Z.pow_le_mono_r; lia).
  change (2 ^ 11) with 2048 in Hp. revert Hnear Hp. generalize (2 ^ s). intros P Hnear Hp.
  assert (Z.abs d = Z.sgn d * d ∧ (Z.sgn d = 1 ∨ Z.sgn d = -1)) as [Habs Hsgn].
  { destruct (Z.sgn_spec d) as [[? ->]|[[? ->]|[? ->]]]; lia. }
  split; (match goal with |- (?a <=? ?b) = _ => destruct (Z.leb_spec a b) end;
          [rewrite bool_decide_eq_true_2 by nia|rewrite bool_decide_eq_false_2 by nia];
          done).
Qed.

Lemma paginatedItems_take_drop {A} (l : list A) p :
  1 ≤ p → paginatedItems l p = take 50 (drop (50 * Z.to_nat (p - 1)) l).
Proof.
  intros Hp. unfold paginatedItems, endIndex, startIndex, itemsPerPage.
  rewrite slice_take_drop by lia. f_equal; [|f_equal]; lia.
Qed.

Lemma chunks {A} (n m : nat) (l : list A) :
  (length l ≤ n * m)%nat →
  concat ((λ k, take n (drop (n * k) l)) <$> seq 0 m) = l.
Proof.
  revert l. induction m as [|m IH]; intros l Hlen.
  - destruct l; [done|simpl in Hlen; lia].
  - rewrite <-cons_seq, fmap_cons, <-fmap_S_seq, <-list_fmap_compose. simpl.
    rewrite Nat.mul_0_r, drop_0.
    transitivity (take n l ++ drop n l); [|apply take_drop]. f_equal.
    rewrite <-(IH (drop n l)) by (rewrite length_drop; lia).
    f_equal. apply list_fmap_ext. intros _ k _. simpl.
    rewrite drop_drop. do 2 f_equal. lia.
Qed.

Lemma totalPages_bounds n :
  0 ≤ n → 0 ≤ totalPages n ∧ 50 * (totalPages n - 1) < n ≤ 50 * totalPages n.
Proof.
  intros Hn. unfold totalPages, Math_ceil_div, itemsPerPage.
  pose proof (Z.div_mod (- n) 50 ltac:(lia)).
  pose proof (Z.mod_pos_bound (- n) 50 ltac:(lia)). lia.
Qed.

Lemma pageButtons_range pages currentPage n :
  Some n ∈ pageButtons pages currentPage → 1 ≤ n ≤ pages.
Proof.
  unfold pageButtons. intros (i & Hn & Hi%elem_of_seqZ)%list_elem_of_fmap.
  simpl in Hn. case_match eqn:Hlt; [done|]. injection Hn as ->.
  apply Z.ltb_ge in Hlt. unfold pageNum in *. lia.
Qed.

End ComponentFacts.

Module ComponentProperties.
Import Client ClientFacts JS JSFacts Component ComponentFacts.

Local Open Scope Z_scope.

(** [formatLastSync] counts in whole minutes, hours and days of the time
    since the sync: nothing under a minute, and nothing for a sync in the
    future; minutes from 1 to 59, hours from 1 to 23, then days.  It says
    'Never' only when there is no date. *)
Theorem formatLastSync_units now date :
  let diffMs := now - date in
  formatLastSync now (Some date)
  = (if diffMs <? 60000 then "Just now"
     else if diffMs <? 3600000 then pretty (diffMs `div` 60000) +:+ "m ago"
     else if diffMs <? 86400000 then pretty (diffMs `div` 3600000) +:+ "h ago"
     else pretty (diffMs `div` 86400000) +:+ "d ago")
  ∧ (60000 ≤ diffMs < 3600000 → 1 ≤ diffMs `div` 60000 ≤ 59)
  ∧ (3600000 ≤ diffMs < 86400000 → 1 ≤ diffMs `div` 3600000 ≤ 23)
  ∧ (86400000 ≤ diffMs → 1 ≤ diffMs `div` 86400000)
  ∧ ∀ date', formatLastSync now date' = "Never" ↔ date' = None.
Proof.
  intros diffMs. split_and!.
  - unfold formatLastSync. fold diffMs.
    assert ((diffMs `div` 60000) `div` 60 = diffMs `div` 3600000) as Hh.
    { rewrite Z.div_div by lia. done. }
    assert (((diffMs `div` 60000) `div` 60) `div` 24 = diffMs `div` 86400000) as Hd.
    { rewrite !Z.div_div by lia. done. }
    rewrite Hd, Hh.
    assert (diffMs `div` 60000 < 1 ↔ diffMs < 60000) as H1.
    { split; intros H.
      - apply Z.nle_gt. intros Hge. apply (Z.div_le_mono _ _ 60000) in Hge; [|lia].
        change (60000 `div` 60000) with 1 in Hge. lia.
      - apply Z.div_lt_upper_bound; lia. }
    assert (diffMs `div` 60000 < 60 ↔ diffMs < 3600000) as H2.
    { split; intros H.
      - apply Z.nle_gt. intros Hge. apply (Z.div_le_mono _ _ 60000) in Hge; [|lia].
        change (3600000 `div` 60000) with 60 in Hge. lia.
      - apply Z.div_lt_upper_bound; lia. }
    assert (diffMs `div` 3600000 < 24 ↔ diffMs < 86400000) as H3.
    { split; intros H.
      - apply Z.nle_gt. intros Hge. apply (Z.div_le_mono _ _ 3600000) in Hge; [|lia].
        change (86400000 `div` 3600000) with 24 in Hge. lia.
      - apply Z.div_lt_upper_bound; lia. }
    repeat match goal with
           | |- context [?a <? ?b] => destruct (Z.ltb_spec a b)
           end; try done; lia.
  - intros [Hlo Hhi]. split.
    + apply Z.div_le_lower_bound; lia.
    + assert (diffMs `div` 60000 < 60); [|lia]. apply Z.div_lt_upper_bound; lia.
  - intros [Hlo Hhi]. split.
    + apply Z.div_le_lower_bound; lia.
    + assert (diffMs `div` 3600000 < 24); [|lia]. apply Z.div_lt_upper_bound; lia.
  - intros Hlo. apply Z.div_le_lower_bound; lia.
  - intros [date'|]; [|done]. split; [|done]. unfold formatLastSync.
    repeat case_match; try done; intros Heq; by apply append_not_Never in Heq.
Qed.

(** The colour of a card and the sign before its delta are those of the
    stored decimals: red for a stock of nothing or less, yellow up to five
    units, green above, and a plus for a delta that is not negative.  The
    rounding of the client's numbers never moves a quantity across 0 or 5. *)
Theorem stock_status_of_stored_decimal collate_le db r :
  Schema.reachable db → r ∈ Schema.inventory_view collate_le db →
  let item := InventoryItem_of_row r in
  getStockStatusColor (current_stock item)
  = (if Schema.v_current_stock r <=? 0 then "text-red-600 bg-red-50"
     else if Schema.v_current_stock r <=? 5000 then "text-yellow-600 bg-yellow-50"
     else "text-green-600 bg-green-50")
  ∧ delta_prefix item = (if 0 <=? Schema.v_tally_delta r then "+" else "").
Proof.
  intros Hdb%SchemaFacts.reachable_constraints Hr item.
  destruct (Reader.decimal_fits_view _ _ _ Hdb Hr) as (Hc & _ & Hd).
  unfold getStockStatusColor, delta_prefix, item. simpl.
  rewrite (proj1 (number_leb_of_decimal _ 0 Hc)), (proj1 (number_leb_of_decimal _ 5 Hc)),
    (proj2 (number_leb_of_decimal _ 0 Hd)).
  split; repeat case_bool_decide;
    repeat match goal with
           | |- context [?a <=? ?b] => destruct (Z.leb_spec a b)
           end; try done; lia.
Qed.

Lemma stock_status_of_stored_decimal_witness :
  let r := {| Schema.v_id := 2%nat; Schema.v_item_code := "OIL001";
              Schema.v_item_name := "Engine Oil 5W30";
              Schema.v_category := Some "Lubricants"; Schema.v_unit := Some "Liter";
              Schema.v_current_stock := 41100%Z;
              Schema.v_physical_baseline := 42000%Z;
              Schema.v_tally_delta := (-900)%Z;
              Schema.v_last_sync := Some 1700000600000000%Z;
              Schema.v_sync_source := "tally_sync" |} in
  Schema.reachable Fixtures.synced_data
  ∧ r ∈ Schema.inventory_view String.leb Fixtures.synced_data
  ∧ getStockStatusColor (current_stock (InventoryItem_of_row r))
    = "text-green-600 bg-green-50"
  ∧ delta_prefix (InventoryItem_of_row r) = "".
Proof.
  intros r.
  assert (r ∈ Schema.inventory_view String.leb Fixtures.synced_data) as Hr.
  { vm_compute. do 3 apply list_elem_of_further. apply list_elem_of_here. }
  split; [exact FixtureFacts.reachable_synced_data|]. split; [exact Hr|].
  exact (stock_status_of_stored_decimal String.leb Fixtures.synced_data r
           FixtureFacts.reachable_synced_data Hr).
Defined.

(** The filtered items are the items, in their order, whose name or code
    contains the search term, letter case apart, and whose category is the
    selected one; an empty search term and the category 'All' let every item
    through. *)
Theorem filteredItems_matching toLowerCase items term selected :
  filteredItems toLowerCase items term selected `sublist_of` items
  ∧ (∀ item, item ∈ filteredItems toLowerCase items term selected ↔
       item ∈ items
       ∧ (term = ""
          ∨ (∃ pre post, toLowerCase (item_name item) = pre +:+ toLowerCase term +:+ post)
          ∨ (∃ pre post, toLowerCase (item_code item) = pre +:+ toLowerCase term +:+ post))
       ∧ (selected = Some "All" ∨ category item = selected))
  ∧ filteredItems toLowerCase items "" (Some "All") = items.
Proof.
  unfold filteredItems. split_and!.
  - case_bool_decide; [apply sublist_nil_l|apply sublist_filter].
  - intros item. case_bool_decide as Hlen.
    + apply length_zero_iff_nil in Hlen as ->. rewrite !elem_of_nil. tauto.
    + rewrite list_elem_of_filter. unfold matchesSearch, matchesCategory.
      rewrite andb_True, !orb_True, !bool_decide_spec, !Is_true_true, !includes_spec.
      tauto.
  - case_bool_decide as Hlen; [by apply length_zero_iff_nil in Hlen as ->|].
    apply StoreFacts.filter_all, Forall_forall. intros item _.
    unfold matchesCategory. rewrite !bool_decide_eq_true_2 by done. done.
Qed.

(** The first version of the component filters as the later ones do: an
    empty search term is contained in every name. *)
Theorem filteredItems_simple_same toLowerCase items term selected :
  toLowerCase "" = "" →
  filteredItems_simple toLowerCase items term selected
  = filteredItems toLowerCase items term selected.
Proof.
  intros Hempty. unfold filteredItems, filteredItems_simple.
  case_bool_decide as Hlen; [by apply length_zero_iff_nil in Hlen as ->|].
  apply list_filter_iff. intros item.
  destruct (decide (term = "")) as [->|Hne].
  - unfold matchesSearch. rewrite Hempty, includes_empty. done.
  - by rewrite (bool_decide_eq_false_2 (term = "")).
Qed.

Lemma filteredItems_simple_same_witness :
  Screens.toLowerCase "" = ""
  ∧ item_code <$>
      filteredItems_simple Screens.toLowerCase
        (items (useEffect Fixtures.sample_backend).1) "BRAKE" (Some "All")
    = ["BRAKE001"; "BRAKE002"]
  ∧ filteredItems_simple Screens.toLowerCase
      (items (useEffect Fixtures.sample_backend).1) "" (Some "Brakes")
    = filteredItems Screens.toLowerCase
        (items (useEffect Fixtures.sample_backend).1) "" (Some "Brakes").
Proof.
  split; [reflexivity|]. split; [vm_compute; reflexivity|].
  exact (filteredItems_simple_same Screens.toLowerCase _ "" (Some "Brakes") eq_refl).
Defined.

(** The category buttons: 'All' and the categories of the items, each
    category once, in the order of their UTF-16 code units ([null] as the
    text 'null').  'All' comes twice exactly when an item has the category
    'All'. *)
Theorem categories_buttons items :
  (∀ c, c ∈ categories items ↔ c = Some "All" ∨ c ∈ category <$> items)
  ∧ Sorted (λ a b, string_leb (ToString a) (ToString b)) (categories items)
  ∧ (∀ c, c ≠ Some "All" → NoDup (filter (λ c', c' = c) (categories items)))
  ∧ (NoDup (categories items) ↔ Some "All" ∉ category <$> items).
Proof.
  assert (categories items ≡ₚ Some "All" :: new_Set (category <$> items)) as Hperm
    by apply sort_by_Permutation.
  split_and!.
  - intros c. by rewrite Hperm, elem_of_cons, elem_of_new_Set.
  - apply sort_by_Sorted. intros a b. apply string_leb_total.
  - intros c Hc. rewrite Hperm, filter_cons_False by done.
    apply NoDup_filter, NoDup_new_Set.
  - rewrite Hperm, NoDup_cons, elem_of_new_Set.
    pose proof (NoDup_new_Set (category <$> items)). tauto.
Qed.

(** The pages are the list cut in fifties: from 1 to [totalPages] they make
    up the list, each of them full but for the last, which is not empty; a
    page after the last one is empty, and there is no page exactly when there
    is no item. *)
Theorem pages_partition {A} (l : list A) :
  let pages := totalPages (Z.of_nat (length l)) in
  concat ((λ p, paginatedItems l p) <$> seqZ 1 pages) = l
  ∧ (∀ p, 1 ≤ p < pages → length (paginatedItems l p) = 50%nat)
  ∧ (∀ p, 1 ≤ p → paginatedItems l p ≠ [] ↔ p ≤ pages)
  ∧ (pages = 0 ↔ l = []).
Proof.
  intros pages.
  assert (0 ≤ pages ∧ 50 * (pages - 1) < Z.of_nat (length l) ≤ 50 * pages) as Hpages.
  { apply totalPages_bounds. lia. }
  split_and!.
  - unfold seqZ. rewrite <-list_fmap_compose.
    transitivity (concat ((λ k, take 50 (drop (50 * k) l)) <$> seq 0 (Z.to_nat pages)));
      [|apply chunks; lia].
    f_equal. apply list_fmap_ext. intros i k Hk%lookup_seq. simpl.
    rewrite paginatedItems_take_drop by lia. do 3 f_equal. lia.
  - intros p Hp. rewrite paginatedItems_take_drop by lia.
    rewrite length_take, length_drop. lia.
  - intros p Hp. rewrite paginatedItems_take_drop by lia.
    rewrite <-length_zero_iff_nil, length_take, length_drop. lia.
  - rewrite <-length_zero_iff_nil. lia.
Qed.

(** The page buttons are consecutive pages of the list, never more than
    five and never the [null] of the source; the current page is one of them
    exactly when it is a page of the list. *)
Theorem pageButtons_pages pages currentPage :
  pageButtons pages currentPage
  = Some <$> seqZ (pageNum pages currentPage 0) (Z.min 5 pages)
  ∧ (∀ n, Some n ∈ pageButtons pages currentPage → 1 ≤ n ≤ pages)
  ∧ (Some currentPage ∈ pageButtons pages currentPage ↔ 1 ≤ currentPage ≤ pages).
Proof.
  assert (pageButtons pages currentPage
          = Some <$> seqZ (pageNum pages currentPage 0) (Z.min 5 pages)) as Heq.
  { unfold pageButtons.
    rewrite <-(Z.add_0_r (pageNum pages currentPage 0)), <-fmap_add_seqZ.
    rewrite <-list_fmap_compose. apply list_fmap_ext.
    intros j i [-> Hi]%lookup_seqZ. simpl.
    unfold pageNum. rewrite (proj2 (Z.ltb_ge _ _)) by lia. f_equal. lia. }
  split_and!; [done|..].
  - intros n. rewrite Heq, list_elem_of_fmap.
    intros (? & [= <-] & Hn%elem_of_seqZ). unfold pageNum in Hn. lia.
  - rewrite Heq, list_elem_of_fmap. split.
    + intros (? & [= <-] & Hn%elem_of_seqZ). unfold pageNum in Hn. lia.
    + intros Hc. exists currentPage. split; [done|].
      apply elem_of_seqZ. unfold pageNum. lia.
Qed.

End ComponentProperties.

Module PaginatedFacts.
Import Client JS JSFacts Component ComponentFacts Paginated.

Local Open Scope Z_scope.

Lemma debouncing_mounted : debouncing mounted.
Proof.
  split; simpl.
  - intros due c [= <- <-]. split; [done|lia].
  - done.
Qed.

Lemma debouncing_elapse ms st : debouncing st → debouncing (elapse ms st).
Proof.
  intros Hst. pose proof Hst as [Hpending Hnone]. unfold elapse.
  destruct (searchTimeout st) as [[due c]|] eqn:Ht; [|done].
  destruct (Hpending due c eq_refl) as [-> Hdue].
  case_decide; split; simpl; try done.
  intros ?? [= <- <-]. split; [done|lia].
Qed.

Lemma debouncing_handle screen e st : debouncing st → debouncing (handle screen e st).
Proof.
  intros Hst. pose proof Hst as [Hpending Hnone].
  destruct e, screen as [| |shown]; simpl; try done; try by apply debouncing_elapse.
  - unfold handleSearchChange. case_decide; [done|]. split; simpl; [|done].
    intros ?? [= <- <-]. split; [done|lia].
  - case_decide; [|done]. unfold handleCategoryChange. by case_decide.
  - destruct (pagination_bar shown) as [bar|]; [|done]. by destruct (previous bar).
  - destruct (pagination_bar shown) as [bar|]; [|done]. by destruct (next bar).
  - destruct (pagination_bar shown) as [bar|]; [|done]. by case_decide.
Qed.

Lemma debouncing_run toLowerCase now hook events st :
  debouncing st → debouncing (interact toLowerCase now hook events st).
Proof.
  revert now st. induction events as [|e events IH]; intros now st Hst; [done|].
  simpl. by apply IH, debouncing_handle.
Qed.

Section component.

Variable toLowerCase : string → string.

Lemma pages_nonneg hook st : 0 ≤ pages toLowerCase hook st.
Proof.
  apply totalPages_bounds. lia.
Qed.

(** The list screen is the one of [inventory_of]. *)
Lemma inventory_shown now hook st shown :
  InventoryList toLowerCase now hook st = Inventory shown →
  shown = inventory_of toLowerCase now hook st.
Proof.
  unfold InventoryList. destruct (loading hook); [done|].
  destruct (error_ hook) as [error|].
  - case_decide; [|done]. by intros [= <-].
  - by intros [= <-].
Qed.

Lemma on_a_page_handle now hook e st :
  on_a_page toLowerCase hook st →
  on_a_page toLowerCase hook (handle (InventoryList toLowerCase now hook st) e st).
Proof.
  unfold on_a_page. intros Hst.
  assert (∀ st', debouncedSearchTerm st' = debouncedSearchTerm st →
                 selectedCategory st' = selectedCategory st →
                 pages toLowerCase hook st' = pages toLowerCase hook st) as Hsame.
  { intros st' Hd Hc. unfold pages, filtered. by rewrite Hd, Hc. }
  pose proof (λ st', pages_nonneg hook st') as Hpos.
  assert (∀ ms, 1 ≤ currentPage (elapse ms st)
                ≤ Z.max 1 (pages toLowerCase hook (elapse ms st))) as Helapse.
  { intros ms. unfold elapse. destruct (searchTimeout st) as [[due c]|]; [|done].
    case_decide; simpl.
    - specialize (Hpos (timeout c st)). lia.
    - by rewrite Hsame. }
  destruct (InventoryList toLowerCase now hook st) as [| |shown] eqn:Hscreen.
  { destruct e; simpl; done. }
  { destruct e; simpl; done. }
  apply inventory_shown in Hscreen as ->.
  destruct e as [value|category| | |n|ms]; simpl.
  - unfold handleSearchChange. case_decide; [done|]. simpl. by rewrite Hsame.
  - case_decide; [|done]. unfold handleCategoryChange. case_decide; [done|]. simpl.
    match goal with |- context [pages _ _ ?st'] => specialize (Hpos st') end. lia.
  - destruct (1 <? pages toLowerCase hook st) eqn:Hbar; simpl; [|done].
    apply Z.ltb_lt in Hbar. case_bool_decide; simpl; [|done].
    rewrite Hsame by done. lia.
  - destruct (1 <? pages toLowerCase hook st) eqn:Hbar; simpl; [|done].
    apply Z.ltb_lt in Hbar. case_bool_decide; simpl; [|done].
    rewrite Hsame by done. lia.
  - destruct (1 <? pages toLowerCase hook st) eqn:Hbar; simpl; [|done].
    apply Z.ltb_lt in Hbar. case_decide as Hn; [|done]. simpl.
    rewrite Hsame by done. rewrite <-list_fmap_compose in Hn.
    apply list_elem_of_fmap in Hn as ([n'|] & Hn' & Hin); [|done].
    injection Hn' as ->. apply pageButtons_range in Hin. lia.
  - apply Helapse.
Qed.

Lemma on_a_page_run now hook events st :
  on_a_page toLowerCase hook st →
  on_a_page toLowerCase hook (interact toLowerCase now hook events st).
Proof.
  revert now st. induction events as [|e events IH]; intros now st Hst; [done|].
  simpl. by apply IH, on_a_page_handle.
Qed.

End component.

End PaginatedFacts.

Module PaginatedProperties.
Import Client JS JSFacts Component ComponentFacts Paginated PaginatedFacts.

Local Open Scope Z_scope.

(** Debouncing: whatever the user does, a pending timeout is the one of the
    search term in the field and is due within 300 ms, and there is one
    whenever the debounced term differs from the field; 300 ms without an
    event make the debounced term the term of the field. *)
Theorem search_settles toLowerCase now hook events :
  let st := interact toLowerCase now hook events mounted in
  (∀ due captured, searchTimeout st = Some (due, captured) →
     captured = searchTerm st ∧ (0 < due ≤ 300)%nat)
  ∧ (debouncedSearchTerm st ≠ searchTerm st → is_Some (searchTimeout st))
  ∧ (∀ ms, (300 ≤ ms)%nat →
       debouncedSearchTerm (elapse ms st) = searchTerm st
       ∧ searchTerm (elapse ms st) = searchTerm st
       ∧ searchTimeout (elapse ms st) = None).
Proof.
  intros st.
  destruct (debouncing_run toLowerCase now hook events mounted debouncing_mounted)
    as [Hpending Hnone].
  fold st in Hpending, Hnone. split_and!; [done| |].
  - intros Hne. destruct (searchTimeout st); [done|]. by destruct Hne; apply Hnone.
  - intros ms Hms. unfold elapse.
    destruct (searchTimeout st) as [[due c]|] eqn:Ht.
    + destruct (Hpending due c eq_refl) as [-> Hdue].
      rewrite decide_True by lia. done.
    + by rewrite Hnone.
Qed.

(** As long as the items do not change, the current page is a page of the
    filtered list: the screen shows cards whenever an item passes the filter,
    and its summary counts the cards it shows. *)
Theorem current_page_shown toLowerCase now hook events now' :
  let st := interact toLowerCase now hook events mounted in
  1 ≤ currentPage st ≤ Z.max 1 (pages toLowerCase hook st)
  ∧ ∀ shown, InventoryList toLowerCase now' hook st = Inventory shown →
      match body shown with
      | inl _ => filtered toLowerCase hook st = [] ∧ summary_line shown = None
      | inr cards =>
          cards ≠ []
          ∧ cards = paginatedItems (filtered toLowerCase hook st) (currentPage st)
          ∧ ∃ s, summary_line shown = Some s
              ∧ 1 ≤ showing_from s ≤ showing_to s
              ∧ showing_to s ≤ showing_of s
              ∧ Z.of_nat (length cards) = showing_to s - showing_from s + 1
              ∧ showing_of s = Z.of_nat (length (filtered toLowerCase hook st))
      end.
Proof.
  intros st.
  assert (on_a_page toLowerCase hook st) as Hpage.
  { apply on_a_page_run. unfold on_a_page. simpl.
    pose proof (pages_nonneg toLowerCase hook mounted). lia. }
  split; [done|]. intros shown Hshown.
  apply inventory_shown in Hshown as ->.
  unfold on_a_page, pages in Hpage. simpl.
  set (l := filtered toLowerCase hook st) in *.
  pose proof (totalPages_bounds (Z.of_nat (length l)) ltac:(lia)) as Hpages.
  destruct (Z.eqb_spec (Z.of_nat (length l)) 0) as [Hzero|Hpos].
  - split.
    + apply length_zero_iff_nil. lia.
    + by rewrite (proj2 (Z.ltb_ge 0 _)) by lia.
  - rewrite (proj2 (Z.ltb_lt 0 _)) by lia.
    rewrite paginatedItems_take_drop by lia.
    assert (length (take 50 (drop (50 * Z.to_nat (currentPage st - 1)) l))
            = Z.to_nat (Z.min 50 (Z.of_nat (length l) - 50 * (currentPage st - 1))))
      as Hlen.
    { rewrite length_take, length_drop. lia. }
    split_and!.
    + intros Hnil. apply (f_equal length) in Hnil. rewrite Hlen in Hnil.
      simpl in Hnil. lia.
    + done.
    + eexists. split; [done|]. cbn [showing_from showing_to showing_of]. rewrite Hlen.
      unfold endIndex, startIndex, itemsPerPage. lia.
Qed.

(** The page is not reset when the items change: once a refresh has left
    fewer pages than the current one, the screen shows no card although items
    pass the filter, and its summary runs backwards. *)
Theorem page_kept_by_refresh toLowerCase now hook st shown :
  InventoryList toLowerCase now hook st = Inventory shown →
  filtered toLowerCase hook st ≠ [] →
  pages toLowerCase hook st < currentPage st →
  body shown = inr []
  ∧ ∃ s, summary_line shown = Some s ∧ showing_to s < showing_from s.
Proof.
  intros Hshown Hne Hpage.
  apply inventory_shown in Hshown as ->.
  unfold pages in Hpage. simpl.
  set (l := filtered toLowerCase hook st) in *.
  pose proof (totalPages_bounds (Z.of_nat (length l)) ltac:(lia)) as Hpages.
  assert (Z.of_nat (length l) ≠ 0) as Hpos.
  { intros Hzero. apply Hne, length_zero_iff_nil. lia. }
  rewrite (proj2 (Z.eqb_neq _ _)) by done.
  rewrite (proj2 (Z.ltb_lt 0 _)) by lia.
  rewrite paginatedItems_take_drop by lia. split.
  - f_equal. apply length_zero_iff_nil. rewrite length_take, length_drop. lia.
  - eexists. split; [done|]. cbn [showing_from showing_to].
    unfold endIndex, startIndex, itemsPerPage. lia.
Qed.

Lemma page_kept_by_refresh_witness :
  let st := interact Screens.toLowerCase 0 (Screens.numbered 120)
              [click_next; click_next] mounted in
  currentPage st = 3
  ∧ ∃ shown,
      InventoryList Screens.toLowerCase 0 (Screens.numbered 60) st = Inventory shown
      ∧ length (filtered Screens.toLowerCase (Screens.numbered 60) st) = 60%nat
      ∧ body shown = inr []
      ∧ ∃ s, summary_line shown = Some s ∧ showing_to s < showing_from s.
Proof.
  intros st.
  assert (currentPage st = 3) as Hpage by (vm_compute; reflexivity).
  split; [exact Hpage|].
  exists (inventory_of Screens.toLowerCase 0 (Screens.numbered 60) st).
  assert (length (filtered Screens.toLowerCase (Screens.numbered 60) st) = 60%nat)
    as Hlen by (vm_compute; reflexivity).
  split; [reflexivity|]. split; [exact Hlen|].
  apply (page_kept_by_refresh Screens.toLowerCase 0 (Screens.numbered 60) st).
  - reflexivity.
  - intros Hnil. rewrite Hnil in Hlen. discriminate Hlen.
  - rewrite Hpage. unfold pages. rewrite Hlen. vm_compute. reflexivity.
Defined.

(** The message of an empty list: 'No inventory items found' exactly when
    the hook holds no item and nothing is filtered, 'No items match your
    search criteria' when a search term or a category has left no item. *)
Theorem empty_list_message toLowerCase now hook st shown :
  InventoryList toLowerCase now hook st = Inventory shown →
  (body shown = inl "No inventory items found" ↔
     items hook = [] ∧ debouncedSearchTerm st = "" ∧ selectedCategory st = Some "All")
  ∧ (body shown = inl "No items match your search criteria" ↔
       filtered toLowerCase hook st = []
       ∧ (debouncedSearchTerm st ≠ "" ∨ selectedCategory st ≠ Some "All")).
Proof.
  intros Hshown.
  apply inventory_shown in Hshown as ->.
  simpl. 
  assert (filtered toLowerCase hook st = []
          ↔ Z.of_nat (length (filtered toLowerCase hook st)) = 0%Z) as Hnil.
  { rewrite <-length_zero_iff_nil. lia. }
  assert (debouncedSearchTerm st = "" → selectedCategory st = Some "All" →
          filtered toLowerCase hook st = items hook) as Hall.
  { intros Hd Hc. unfold filtered. rewrite Hd, Hc.
    unfold filteredItems. case_bool_decide as Hlen.
    - by apply length_zero_iff_nil in Hlen as ->.
    - apply StoreFacts.filter_all, Forall_forall. intros item _.
      unfold matchesCategory. rewrite !bool_decide_eq_true_2 by done. done. }
  destruct (Z.eqb_spec (Z.of_nat (length (filtered toLowerCase hook st))) 0)
    as [Hzero|Hpos].
  - apply Hnil in Hzero.
    destruct (decide (debouncedSearchTerm st = "")) as [Hd|Hd],
             (decide (selectedCategory st = Some "All")) as [Hc|Hc].
    + rewrite (bool_decide_eq_false_2 (debouncedSearchTerm st ≠ "")) by tauto.
      rewrite (bool_decide_eq_false_2 (selectedCategory st ≠ Some "All")) by tauto.
      simpl. rewrite <-(Hall Hd Hc). split; split; try done; tauto.
    + rewrite (bool_decide_eq_true_2 (selectedCategory st ≠ Some "All")) by done.
      rewrite orb_true_r. split; split; try done; try tauto. 
    + rewrite (bool_decide_eq_true_2 (debouncedSearchTerm st ≠ "")) by done.
      simpl. split; split; try done; tauto.
    + rewrite (bool_decide_eq_true_2 (debouncedSearchTerm st ≠ "")) by done.
      simpl. split; split; try done; tauto.
  - split; split; try done.
    + intros (Hi & Hd & Hc). destruct Hpos. apply Hnil. by rewrite Hall.
    + intros [Hf _]. destruct Hpos. by apply Hnil.
Qed.

Lemma empty_list_message_witness :
  let hook := {| items := []; loading := false; error_ := None; lastSync := None |} in
  InventoryList Screens.toLowerCase 0%Z hook mounted
  = Inventory (inventory_of Screens.toLowerCase 0%Z hook mounted)
  ∧ body (inventory_of Screens.toLowerCase 0%Z hook mounted)
    = inl "No inventory items found".
Proof.
  intros hook. split; [reflexivity|].
  apply (proj1 (empty_list_message Screens.toLowerCase 0%Z hook mounted _ eq_refl)).
  done.
Defined.

(** The screen while the calls of [fetchItems] overlap.  It is the spinner
    exactly when no call has returned since the last one began.  It is the
    error card exactly when a query of the view has failed with a message to
    show and since then no call has begun and no other query has failed:
    the card stays when a call begun later has succeeded. *)
Theorem error_card_shown toLowerCase now es st :
  Fetches.possible Fetches.mounted es →
  let hook := Fetches.cells (Fetches.run es) in
  (InventoryList toLowerCase now hook st = Loading_inventory ↔
     ¬ Fetches.since Fetches.returns Fetches.begins es)
  ∧ ∀ text, InventoryList toLowerCase now hook st = Error_loading_inventory text ↔
      text ≠ ""
      ∧ Fetches.since (Fetches.fails_with text)
          (λ e, Fetches.begins e ∨ Fetches.fails e) es.
Proof.
  intros Hes hook.
  pose proof (FetchesFacts.loading_since es Hes) as Hloading.
  pose proof (λ text, FetchesFacts.error_since es text Hes) as Herror.
  fold hook in Hloading, Herror. unfold InventoryList.
  destruct (loading hook).
  - split.
    + split; [|done]. intros _ Hsince. by apply Hloading in Hsince.
    + intros text. split; [done|].
      intros [_ Hsince%FetchesFacts.since_fails_returns]. by apply Hloading in Hsince.
  - split.
    + split; [by destruct (error_ hook); [case_decide|]|].
      intros Hno. destruct Hno. by apply Hloading.
    + intros text. rewrite <-Herror.
      destruct (error_ hook) as [error|]; [|by split; [|intros [_ [=]]]].
      case_decide as Hempty.
      * split; [done|]. intros [Hne [= ->]]. done.
      * split; [by intros [= ->]|]. by intros [_ [= ->]].
Qed.

Lemma error_card_shown_witness :
  let answers failure :=
    {| database := Fixtures.sample_data; collate_le := String.leb;
       select_failure := failure; rpc_failure := None; auth_role := Schema.anon |} in
  let failed :=
    answers (Some {| instanceof_Error := true; message := "JWT expired" |}) in
  let es := [Fetches.fetchItems_begins; Fetches.select_resumes 0 failed;
             Fetches.select_resumes 1 (answers None);
             Fetches.rpc_resumes 1 (answers None)] in
  Fetches.possible Fetches.mounted es
  ∧ length (items (Fetches.cells (Fetches.run es))) = 5%nat
  ∧ InventoryList Screens.toLowerCase 0%Z (Fetches.cells (Fetches.run es)) mounted
    = Error_loading_inventory "JWT expired".
Proof.
  intros answers failed es.
  assert (Fetches.possible Fetches.mounted es) as Hes by (vm_compute; tauto).
  split; [exact Hes|]. split; [vm_compute; reflexivity|].
  apply (proj2 (error_card_shown Screens.toLowerCase 0%Z es mounted Hes)).
  split; [done|].
  exists [Fetches.fetchItems_begins], (Fetches.select_resumes 0 failed),
    [Fetches.select_resumes 1 (answers None); Fetches.rpc_resumes 1 (answers None)].
  split_and!; [done..|].
  repeat constructor; by intros [|[]].
Defined.

End PaginatedProperties.

(** ** The virtual list *)

Module VirtualizedProperties.
Import JS JSFacts Virtualized.

Local Open Scope Z_scope.

(** The virtual list renders a window of the items: consecutive items, each
    with its index in the list, never more than the container holds plus the
    overscan on both sides; and every item of which a part is inside the
    container is in the window, wherever the list is scrolled to. *)
Theorem visibleItems_window {T} (items : list T)
    itemHeight containerHeight overscan scrollTop :
  0 < itemHeight → 0 ≤ containerHeight → 0 ≤ default 5 overscan →
  let v := useVirtualizedList items itemHeight containerHeight overscan scrollTop in
  (∀ item index, (item, index) ∈ visibleItems v →
     0 ≤ index ∧ items !! Z.to_nat index = Some item)
  ∧ (visibleItems v).*2 = seqZ (startIndex v) (Z.of_nat (length (visibleItems v)))
  ∧ Z.of_nat (length (visibleItems v))
    ≤ Math_ceil_div containerHeight itemHeight + 2 * default 5 overscan + 1
  ∧ (∀ (i : nat) item,
       items !! i = Some item →
       Z.of_nat i * itemHeight < scrollTop + containerHeight →
       scrollTop < (Z.of_nat i + 1) * itemHeight →
       (item, Z.of_nat i) ∈ visibleItems v).
Proof.
  intros Hh Hc Ho v.
  pose proof (Math_ceil_div_bounds containerHeight itemHeight Hh) as Hceil.
  pose proof (Math_floor_div_bounds scrollTop itemHeight Hh) as Hfloor.
  unfold v, useVirtualizedList. clear v.
  cbn [visibleItems startIndex offsetY totalHeight].
  revert Ho. generalize (default 5 overscan). clear overscan. intros overscan Ho.
  set (count := Math_ceil_div containerHeight itemHeight) in *.
  set (top := Math_floor_div scrollTop itemHeight) in *.
  set (s := Z.max 0 (top - overscan)).
  set (e := Z.min (Z.of_nat (length items) - 1) (s + count + overscan * 2)).
  assert (0 ≤ count) as Hcount by nia.
  rewrite slice_take_drop by lia.
  set (n := Z.to_nat (e + 1 - s)). set (k := Z.to_nat s).
  assert (length (take n (drop k items))
          = Z.to_nat (Z.min (Z.of_nat n) (Z.of_nat (length items) - Z.of_nat k))) as Hlen.
  { rewrite length_take, length_drop. lia. }
  split_and!.
  - intros item index (j & x & [= -> ->] & Hj)%elem_of_lookup_imap.
    rewrite lookup_take_drop in Hj. case_decide; [|done].
    split; [lia|]. rewrite <-Hj. f_equal. lia.
  - rewrite length_imap. apply list_eq. intros j.
    rewrite list_lookup_fmap, list_lookup_imap.
    destruct (take n (drop k items) !! j) as [x|] eqn:Hj; simpl.
    + symmetry. apply lookup_seqZ. split; [done|].
      apply lookup_lt_Some in Hj. lia.
    + symmetry. apply lookup_seqZ_ge. apply lookup_ge_None in Hj. lia.
  - rewrite length_imap, Hlen. lia.
  - intros i item Hi Hbelow Habove.
    assert (Z.of_nat i < Z.of_nat (length items)) as Hlt.
    { apply lookup_lt_Some in Hi. lia. }
    assert (top ≤ Z.of_nat i) as Htop by nia.
    assert (Z.of_nat i ≤ top + count) as Hbottom by nia.
    assert (s ≤ Z.of_nat i ≤ e) as [Hs He] by lia.
    replace (Z.of_nat i) with (s + Z.of_nat (i - k)) by lia.
    apply (elem_of_lookup_imap_2 (λ index item, (item, s + Z.of_nat index))).
    rewrite lookup_take_drop. rewrite decide_True by lia.
    rewrite <-Hi. f_equal. lia.
Qed.

Lemma visibleItems_window_witness :
  let v := useVirtualizedList (seq 0 1000) 120 600 None 30000 in
  (visibleItems v).*1 = seq 245 16
  ∧ (visibleItems v).*2 = seqZ 245 16
  ∧ Z.of_nat (length (visibleItems v)) ≤ 16.
Proof.
  intros v.
  pose proof (visibleItems_window (seq 0 1000) 120 600 None 30000
                ltac:(lia) ltac:(lia) ltac:(simpl; lia)) as (_ & Hidx & Hlen & _).
  split; [vm_compute; reflexivity|]. split; [exact Hidx|]. exact Hlen.
Defined.

End VirtualizedProperties.
